(** * Turn-resolution engine of the team Connect Four server

    A shallow embedding of [GameEngine], [MajorityTurnDecider], the clock
    utilities and [TurnManager], followed by the properties of the
    turn-resolution core.

    Conventions of the embedding:
    - a JavaScript [number] that holds a column, row, count, round or
      timestamp is an integer of [Z];
    - [undefined] is [None]; a board cell [Team | null] is [option Team],
      so reading a cell gives [option (option Team)]: [None] is
      [undefined], [Some None] is [null];
    - [Record<string, number>] is a [gmap string Z];
    - methods that mutate their arguments return the new values next to
      their result (explicit state passing);
    - [Math.random()] is an explicit argument [u], a rational of [0, 1). *)

From Stdlib Require Import ZArith QArith Qround Lia.
From stdpp Require Import base option list gmap strings sorting.

Close Scope Q_scope.
Local Open Scope Z_scope.

(** ** Types ([types/index.ts]) *)

Inductive Team := red | yellow.

#[global] Instance Team_eq_dec : EqDecision Team.
Proof. solve_decision. Defined.

Abbreviation Row := (list (option Team)).
Abbreviation Board := (list (list (option Team))).

Record Cell := mkCell { col : Z; row : Z }.

#[global] Instance Cell_eq_dec : EqDecision Cell.
Proof. solve_decision. Defined.

Record LastMove := mkLastMove { lastCol : Z; lastRow : Z; lastTeam : Team }.

Record Result := mkResult {
  winner : option Team;
  draw : option bool;
  winningLine : option (list Cell)
}.

Record GameState := mkGameState {
  board : Board;
  currentTeam : Team;
  round : Z;
  votes : gmap string Z;
  perColumnCounts : list Z;
  endsAt : option Z;
  lastMove : option LastMove;
  result : option Result
}.

Record Player := mkPlayer {
  id : string;
  nickname : string;
  team : Team;
  isAdmin : bool;
  matchingVotes : Z;
  connected : bool
}.

(** ** JavaScript array and truthiness helpers *)

(** [a[i]] for an integer [i]: [undefined] outside the array. *)
Definition at_index {A} (a : list A) (i : Z) : option A :=
  if i <? 0 then None else a !! Z.to_nat i.

(** [a[i] = x] for an index that exists in [a]. *)
Definition set_index {A} (a : list A) (i : Z) (x : A) : list A :=
  if i <? 0 then a else <[Z.to_nat i := x]> a.

(** [board[row]?.[col]]. *)
Definition cellAt (b : Board) (r c : Z) : option (option Team) :=
  at_index b r ≫= fun cells => at_index cells c.

(** [board[row] && board[row][col] === null]. *)
Definition isNullAt (b : Board) (r c : Z) : bool :=
  match cellAt b r c with
  | Some None => true
  | _ => false
  end.

(** Truthiness of an optional number: [undefined] and [0] are falsy. *)
Definition truthy (x : option Z) : bool :=
  match x with
  | None => false
  | Some n => negb (n =? 0)
  end.

(** [xs.includes(x)]. *)
Definition includes (xs : list Z) (x : Z) : bool := bool_decide (x ∈ xs).

(** ** GameEngine *)

Module GameEngine.

Inductive Thrown :=
| InvalidMove (column : Z)      (* Error(`Invalid move: column ${col}`) *)
| ColumnIsFull (column : Z).    (* Error(`Column ${col} is full`) *)

Record WinResult := mkWinResult {
  win_winner : option Team;
  win_winningLine : option (list Cell)
}.

Definition emptyRow : Row := replicate 7 None.

Definition newBoard : Board := replicate 6 emptyRow.

Definition newGame : GameState :=
  {| board := newBoard;
     currentTeam := red;
     round := 1;
     votes := ∅;
     perColumnCounts := [0; 0; 0; 0; 0; 0; 0];
     endsAt := None;
     lastMove := None;
     result := None |}.

Definition isValidMove (b : Board) (c : Z) : bool :=
  if (c <? 0) || (c >=? 7) then false
  else isNullAt b 0 c.

(** The gravity loop [for (row = n - 1; row >= 0; row--)]: the first
    row, from [n - 1] upward, whose cell in column [c] is [null];
    [-1] when the loop ends without a [break]. *)
Fixpoint findTargetRow (b : Board) (c : Z) (n : nat) : Z :=
  match n with
  | O => -1
  | S k => if isNullAt b (Z.of_nat k) c then Z.of_nat k
           else findTargetRow b c k
  end.

Definition applyMove (b : Board) (c : Z) (t : Team)
  : Thrown + (Board * Z) :=
  if negb (isValidMove b c) then inl (InvalidMove c)
  else
    let newBoard := (fun cells : Row => cells) <$> b in
    let targetRow := findTargetRow newBoard c 6 in
    if targetRow =? -1 then inl (ColumnIsFull c)
    else
      let placed :=
        match at_index newBoard targetRow with
        | Some targetRowArray =>
            set_index newBoard targetRow (set_index targetRowArray c (Some t))
        | None => newBoard
        end in
      inr (placed, targetRow).

(** The loop condition shared by both [while] loops of
    [checkDirection]. *)
Definition onTeam (b : Board) (t : Team) (c r : Z) : bool :=
  (0 <=? c) && (c <? 7) && (0 <=? r) && (r <? 6)
  && bool_decide (cellAt b r c = Some (Some t)).

(** First loop: step backwards while the cell belongs to [t]; returns
    the position at which the loop stopped. *)
Fixpoint walkBack (fuel : nat) (b : Board) (t : Team) (dc dr c r : Z)
  : Z * Z :=
  match fuel with
  | O => (c, r)
  | S k => if onTeam b t c r then walkBack k b t dc dr (c - dc) (r - dr)
           else (c, r)
  end.

(** Second loop: step forwards and collect the cells of [t]. *)
Fixpoint walkForward (fuel : nat) (b : Board) (t : Team) (dc dr c r : Z)
  : list Cell :=
  match fuel with
  | O => []
  | S k => if onTeam b t c r
           then mkCell c r :: walkForward k b t dc dr (c + dc) (r + dr)
           else []
  end.

(** A line of the 7 x 6 board has at most 7 cells, so neither loop
    body runs more than 7 times for a direction that moves; one more
    unit of fuel lets the condition be tested a last time. *)
Definition lineFuel : nat := 8.

Definition checkDirection (b : Board) (startCol startRow : Z) (t : Team)
  (deltaCol deltaRow : Z) : list Cell :=
  let '(c, r) := walkBack lineFuel b t deltaCol deltaRow startCol startRow in
  walkForward lineFuel b t deltaCol deltaRow (c + deltaCol) (r + deltaRow).

Definition directions : list (Z * Z) :=
  [ (1, 0);     (* Horizontal *)
    (0, 1);     (* Vertical *)
    (1, 1);     (* Diagonal *)
    (1, -1) ].  (* Other diagonal *)

Fixpoint checkLines (b : Board) (c r : Z) (t : Team) (ds : list (Z * Z))
  : WinResult :=
  match ds with
  | [] => mkWinResult None None
  | (deltaCol, deltaRow) :: rest =>
      let line := checkDirection b c r t deltaCol deltaRow in
      if (4 <=? length line)%nat
      then mkWinResult (Some t) (Some (take 4 line))
      else checkLines b c r t rest
  end.

Definition checkWin (b : Board) (m : LastMove) : WinResult :=
  checkLines b (lastCol m) (lastRow m) (lastTeam m) directions.

(** [for (col = 0; col < 7; col++) if (board[0][col] === null) return false]. *)
Fixpoint topRowHasNull (cells : Row) (c : Z) (n : nat) : bool :=
  match n with
  | O => false
  | S k => match at_index cells c with
           | Some None => true
           | _ => topRowHasNull cells (c + 1) k
           end
  end.

Definition isBoardFull (b : Board) : bool :=
  match at_index b 0 with
  | None => false
  | Some top => negb (topRowHasNull top 0 7)
  end.

Definition nextTeam (t : Team) : Team :=
  match t with red => yellow | yellow => red end.

End GameEngine.

(** ** GameEngine.applyMove over the object store

    The functions above take a board as a value. A JavaScript board is a
    reference to an array of references to row arrays, and [applyMove]
    allocates and writes such arrays; the model below keeps the store
    explicit, to state what a move does to the objects that existed
    before it. *)

Module Store.

Inductive Obj :=
| RowArray (cells : Row)
| BoardArray (rows : list positive).

(** A new array: a reference that the store does not hold yet. *)
Definition alloc (h : gmap positive Obj) (o : Obj)
  : positive * gmap positive Obj :=
  let l := fresh (dom h) in (l, <[l := o]> h).

Definition rowCells (h : gmap positive Obj) (l : positive) : option Row :=
  match h !! l with
  | Some (RowArray cells) => Some cells
  | _ => None
  end.

Definition boardRows (h : gmap positive Obj) (l : positive)
  : option (list positive) :=
  match h !! l with
  | Some (BoardArray rows) => Some rows
  | _ => None
  end.

(** [board[row]?.[col]]. *)
Definition cellAt (h : gmap positive Obj) (b : positive) (r c : Z)
  : option (option Team) :=
  boardRows h b ≫= λ rows, at_index rows r ≫= λ l,
  rowCells h l ≫= λ cells, at_index cells c.

Definition isNullAt (h : gmap positive Obj) (b : positive) (r c : Z) : bool :=
  match cellAt h b r c with
  | Some None => true
  | _ => false
  end.

Definition isValidMove (h : gmap positive Obj) (b : positive) (c : Z) : bool :=
  if (c <? 0) || (c >=? 7) then false
  else isNullAt h b 0 c.

(** [board.map(row => [...row])], row by row: every row is spread into
    a new array. The type of the board rules out an entry that is not
    a row array. *)
Fixpoint copyRows (h : gmap positive Obj) (rows : list positive)
  : gmap positive Obj * list positive :=
  match rows with
  | [] => (h, [])
  | l :: rest =>
      let '(l', h) := alloc h (RowArray (default [] (rowCells h l))) in
      let '(h, rest') := copyRows h rest in
      (h, l' :: rest')
  end.

Fixpoint findTargetRow (h : gmap positive Obj) (b : positive) (c : Z)
  (n : nat) : Z :=
  match n with
  | O => -1
  | S k => if isNullAt h b (Z.of_nat k) c then Z.of_nat k
           else findTargetRow h b c k
  end.

Definition applyMove (h : gmap positive Obj) (b : positive) (c : Z) (t : Team)
  : gmap positive Obj * (GameEngine.Thrown + (positive * Z)) :=
  if negb (isValidMove h b c) then (h, inl (GameEngine.InvalidMove c))
  else
    let '(h, newRows) := copyRows h (default [] (boardRows h b)) in
    let '(newBoard, h) := alloc h (BoardArray newRows) in
    let targetRow := findTargetRow h newBoard c 6 in
    if targetRow =? -1 then (h, inl (GameEngine.ColumnIsFull c))
    else
      match at_index newRows targetRow with
      | Some targetRowArray =>
          match rowCells h targetRowArray with
          | Some cells =>
              (<[targetRowArray := RowArray (set_index cells c (Some t))]> h,
               inr (newBoard, targetRow))
          | None => (h, inr (newBoard, targetRow))
          end
      | None => (h, inr (newBoard, targetRow))
      end.

(** The board value that a reference denotes in a store. *)
Definition boardOf (h : gmap positive Obj) (b : positive) : option Board :=
  boardRows h b ≫= mapM (rowCells h).

End Store.

(** ** MajorityTurnDecider *)

Module MajorityTurnDecider.

(** One iteration of the loop over [Object.values(votes)]. *)
Definition countVote (validCols : list Z) (counts : list Z) (column : Z)
  : list Z :=
  if includes validCols column && (column >=? 0) && (column <? 7)
  then set_index counts column (default 0 (at_index counts column) + 1)
  else counts.

(** The order in which the values are visited does not change the
    counts; the values are taken in the order of [map_to_list]. *)
Definition tallyVotes (votes : gmap string Z) (validCols : list Z)
  : list Z :=
  foldl (countVote validCols) [0; 0; 0; 0; 0; 0; 0]
        ((map_to_list votes).*2).

(** [Math.floor(u * columns.length)] then [columns[randomIndex]]; the
    index is inside the array for every [u] of [0, 1). *)
Definition pickRandomColumn (u : Q) (columns : list Z) : Z :=
  if (length columns =? 0)%nat then 0
  else
    let randomIndex := Qfloor (u * inject_Z (Z.of_nat (length columns))) in
    default 0 (at_index columns randomIndex).

(** First loop of [decideColumn], from column [c] on. *)
Fixpoint maxVotesFrom (validCols : list Z) (c : Z) (counts : list Z)
  (maxVotes : Z) : Z :=
  match counts with
  | [] => maxVotes
  | colVotes :: rest =>
      maxVotesFrom validCols (c + 1) rest
        (if includes validCols c && (colVotes >? maxVotes)
         then colVotes else maxVotes)
  end.

(** Second loop of [decideColumn], from column [c] on. *)
Fixpoint tiedColumnsFrom (validCols : list Z) (c : Z) (counts : list Z)
  (maxVotes : Z) : list Z :=
  match counts with
  | [] => []
  | colVotes :: rest =>
      if includes validCols c && (colVotes =? maxVotes)
      then c :: tiedColumnsFrom validCols (c + 1) rest maxVotes
      else tiedColumnsFrom validCols (c + 1) rest maxVotes
  end.

Definition decideColumn (u : Q) (perColumnCounts : list Z)
  (validCols : list Z) : Z :=
  let totalVotes := foldl Z.add 0 perColumnCounts in
  if totalVotes =? 0 then pickRandomColumn u validCols
  else
    let maxVotes := maxVotesFrom validCols 0 perColumnCounts 0 in
    if maxVotes =? 0 then pickRandomColumn u validCols
    else pickRandomColumn u (tiedColumnsFrom validCols 0 perColumnCounts maxVotes).

End MajorityTurnDecider.

(** ** Clock ([IClock], [FakeClock]) *)

(** The only closure the turn manager hands to the clock. *)
Inductive Callback := NotifyDeadline.

Class IClock (C : Type) := {
  now : C → Z;
  setTimeout : C → Callback → Z → C * Z;
  clearTimeout : C → Z → C
}.

Module FakeClock.

Record Timeout := mkTimeout {
  callback : Callback;
  triggerTime : Z;
  timeoutId : Z
}.

Record t := mk {
  currentTime : Z;
  timeouts : list Timeout;
  nextTimeoutId : Z
}.

(** [timeouts.sort((a, b) => a.triggerTime - b.triggerTime)]: a stable
    sort, written as an insertion sort. *)
Fixpoint insertByTime (x : Timeout) (l : list Timeout) : list Timeout :=
  match l with
  | [] => [x]
  | y :: rest => if triggerTime x <=? triggerTime y then x :: y :: rest
                 else y :: insertByTime x rest
  end.

Definition sortByTime (l : list Timeout) : list Timeout :=
  foldr insertByTime [] l.

Definition fresh : t := mk 0 [] 1.

Definition setTime (c : t) (time : Z) : t :=
  mk time (timeouts c) (nextTimeoutId c).

Definition now (c : t) : Z := currentTime c.

Definition setTimeout (c : t) (cb : Callback) (delay : Z) : t * Z :=
  let i := nextTimeoutId c in
  let trigger := currentTime c + delay in
  (mk (currentTime c)
      (sortByTime (timeouts c ++ [mkTimeout cb trigger i]))
      (i + 1),
   i).

Definition clearTimeout (c : t) (handle : Z) : t :=
  mk (currentTime c)
     (filter (λ x, timeoutId x ≠ handle) (timeouts c))
     (nextTimeoutId c).

Definition hasScheduledTimeouts (c : t) : bool :=
  negb (length (timeouts c) =? 0)%nat.

Definition getNextTimeoutTime (c : t) : option Z :=
  triggerTime <$> head (timeouts c).

End FakeClock.

#[global] Instance FakeClock_IClock : IClock FakeClock.t := {
  now := FakeClock.now;
  setTimeout := FakeClock.setTimeout;
  clearTimeout := FakeClock.clearTimeout
}.

(** ** TurnManager *)

Module TurnManager.

Inductive VoteError :=
| WindowClosed      (* 'Voting window is closed' *)
| PlayerNotFound    (* 'Player not found' *)
| WrongTeam         (* 'Not your team\'s turn' *)
| InvalidColumn     (* 'Invalid column' *)
| ColumnFull.       (* 'Column is full' *)

Definition message (e : VoteError) : string :=
  match e with
  | WindowClosed => "Voting window is closed"
  | PlayerNotFound => "Player not found"
  | WrongTeam => "Not your team's turn"
  | InvalidColumn => "Invalid column"
  | ColumnFull => "Column is full"
  end.

Record VoteResult := mkVoteResult {
  success : bool;
  vote_error : option VoteError
}.

Record TurnResult := mkTurnResult {
  moveApplied : bool;
  gameEnded : bool;
  chosenColumn : option Z;
  error : option GameEngine.Thrown
}.

(** The manager's own state. [completionCallback] and
    [currentRoomCode] are read only by the deadline closure, which the
    clock runs; the three methods below never touch them. *)
Record t (C : Type) := mk {
  currentTimeout : option Z;
  clock : C
}.
Arguments mk {C} _ _.
Arguments currentTimeout {C} _.
Arguments clock {C} _.

(** Field assignments on the game state. *)
Definition set_endsAt (g : GameState) (v : option Z) : GameState :=
  mkGameState (board g) (currentTeam g) (round g) (votes g)
              (perColumnCounts g) v (lastMove g) (result g).

Definition set_votes (g : GameState) (v : gmap string Z) : GameState :=
  mkGameState (board g) (currentTeam g) (round g) v
              (perColumnCounts g) (endsAt g) (lastMove g) (result g).

Definition set_perColumnCounts (g : GameState) (v : list Z) : GameState :=
  mkGameState (board g) (currentTeam g) (round g) (votes g)
              v (endsAt g) (lastMove g) (result g).

Definition set_result (g : GameState) (v : Result) : GameState :=
  mkGameState (board g) (currentTeam g) (round g) (votes g)
              (perColumnCounts g) (endsAt g) (lastMove g) (Some v).

Definition set_board (g : GameState) (v : Board) : GameState :=
  mkGameState v (currentTeam g) (round g) (votes g)
              (perColumnCounts g) (endsAt g) (lastMove g) (result g).

Definition set_lastMove (g : GameState) (v : LastMove) : GameState :=
  mkGameState (board g) (currentTeam g) (round g) (votes g)
              (perColumnCounts g) (endsAt g) (Some v) (result g).

Definition set_currentTeam (g : GameState) (v : Team) : GameState :=
  mkGameState (board g) v (round g) (votes g)
              (perColumnCounts g) (endsAt g) (lastMove g) (result g).

Definition set_round (g : GameState) (v : Z) : GameState :=
  mkGameState (board g) (currentTeam g) v (votes g)
              (perColumnCounts g) (endsAt g) (lastMove g) (result g).

Section Methods.
Context {C : Type} `{IClock C}.

(** [if (this.currentTimeout) { clearTimeout(...); ... = undefined }]. *)
Definition cancelTimeout (tm : t C) : t C :=
  match currentTimeout tm with
  | Some handle =>
      if truthy (Some handle)
      then mk None (clearTimeout (clock tm) handle)
      else tm
  | None => tm
  end.

Definition startVoting (tm : t C) (gameState : GameState)
  (players : list Player) (timerSec : Z) : t C * GameState :=
  let now := now (clock tm) in
  let gameState := set_endsAt gameState (Some (now + timerSec * 1000)) in
  let tm := cancelTimeout tm in
  let '(clk, handle) :=
    setTimeout (clock tm) NotifyDeadline (timerSec * 1000) in
  (mk (Some handle) clk, gameState).

(** [players.find(p => p.id === playerId)]. *)
Definition findPlayer (players : list Player) (playerId : string)
  : option Player :=
  list_find (λ p, id p = playerId) players ≫= λ ip, Some ip.2.

Definition castVote (tm : t C) (gameState : GameState)
  (players : list Player) (playerId : string) (column : Z)
  : VoteResult * GameState :=
  if negb (truthy (endsAt gameState))
  then (mkVoteResult false (Some WindowClosed), gameState)
  else
    match findPlayer players playerId with
    | None => (mkVoteResult false (Some PlayerNotFound), gameState)
    | Some player =>
        if bool_decide (team player ≠ currentTeam gameState)
        then (mkVoteResult false (Some WrongTeam), gameState)
        else if (column <? 0) || (column >=? 7)
        then (mkVoteResult false (Some InvalidColumn), gameState)
        else if negb (GameEngine.isValidMove (board gameState) column)
        then (mkVoteResult false (Some ColumnFull), gameState)
        else (mkVoteResult true None,
              set_votes gameState (<[playerId := column]> (votes gameState)))
    end.

(** [for (col = 0; col < 7; col++) if (isValidMove(board, col)) push]. *)
Definition validColumns (b : Board) : list Z :=
  filter (λ c, GameEngine.isValidMove b c = true) (seqZ 0 7).

(** [player.matchingVotes++] for the active-team players whose vote
    is the chosen column. *)
Definition creditPlayer (gameState : GameState) (chosen : Z) (p : Player)
  : Player :=
  if bool_decide (team p = currentTeam gameState)
     && bool_decide (votes gameState !! id p = Some chosen)
  then mkPlayer (id p) (nickname p) (team p) (isAdmin p)
                (matchingVotes p + 1) (connected p)
  else p.

Definition finishVoting (u : Q) (tm : t C) (gameState : GameState)
  (players : list Player)
  : t C * GameState * list Player * TurnResult :=
  let gameState := set_endsAt gameState None in
  let tm := cancelTimeout tm in
  let validColumns := validColumns (board gameState) in
  if (length validColumns =? 0)%nat
  then (tm, set_result gameState (mkResult None (Some true) None), players,
        mkTurnResult false true None None)
  else
    let perColumnCounts :=
      MajorityTurnDecider.tallyVotes (votes gameState) validColumns in
    let gameState := set_perColumnCounts gameState perColumnCounts in
    let chosenColumn :=
      MajorityTurnDecider.decideColumn u perColumnCounts validColumns in
    let players := creditPlayer gameState chosenColumn <$> players in
    let gameState := set_votes gameState ∅ in
    match GameEngine.applyMove (board gameState) chosenColumn
                               (currentTeam gameState) with
    | inr (newBoard, targetRow) =>
        let gameState := set_board gameState newBoard in
        let move := mkLastMove chosenColumn targetRow (currentTeam gameState) in
        let gameState := set_lastMove gameState move in
        let winResult := GameEngine.checkWin (board gameState) move in
        match GameEngine.win_winner winResult with
        | Some w =>
            (tm,
             set_result gameState
               (mkResult (Some w) None (GameEngine.win_winningLine winResult)),
             players,
             mkTurnResult true true (Some chosenColumn) None)
        | None =>
            if GameEngine.isBoardFull (board gameState)
            then (tm, set_result gameState (mkResult None (Some true) None),
                  players,
                  mkTurnResult true true (Some chosenColumn) None)
            else
              let gameState :=
                set_currentTeam gameState
                  (GameEngine.nextTeam (currentTeam gameState)) in
              let gameState := set_round gameState (round gameState + 1) in
              (tm, gameState, players,
               mkTurnResult true false (Some chosenColumn) None)
        end
    | inl thrown =>
        (tm, gameState, players, mkTurnResult false false None (Some thrown))
    end.

(** [hasAllTeamVoted]. *)
Definition hasAllTeamVoted (gameState : GameState) (players : list Player)
  : bool :=
  forallb (λ p, bool_decide (is_Some (votes gameState !! id p)))
          (filter (λ p, team p = currentTeam gameState ∧ connected p = true)
                  players).

End Methods.

End TurnManager.

(** ** TurnManager.getTeamVoteCounts *)

Module TurnManagerQueries.

(** The loop that copies the votes of the team's players into
    [teamVotes]. *)
Definition collectTeamVotes (gameState : GameState)
  (teamPlayers : list Player) : gmap string Z :=
  foldl (λ teamVotes player,
           match votes gameState !! id player with
           | Some vote => <[id player := vote]> teamVotes
           | None => teamVotes
           end)
        ∅ teamPlayers.

Definition getTeamVoteCounts (gameState : GameState)
  (players : list Player) (t : Team) : list Z :=
  let teamPlayers := filter (λ p, team p = t) players in
  let teamVotes := collectTeamVotes gameState teamPlayers in
  MajorityTurnDecider.tallyVotes teamVotes
    (TurnManager.validColumns (board gameState)).

End TurnManagerQueries.

(** ** FakeClock.tick and the deadline closure of TurnManager

    [tick] runs the callbacks of the due timeouts. The one callback the
    turn manager schedules is the arrow function of [startVoting]: it
    clears [currentTimeout] and calls the registered completion callback
    with the room code. The completion callback belongs to the caller;
    it is a value of a type [H] whose invocation [invoke] may change
    anything in the world it is run in. *)

Module Deadline.

Record World (H U : Type) := mkWorld {
  manager : TurnManager.t FakeClock.t;
  completionCallback : option H;
  currentRoomCode : option string;
  outside : U
}.
Arguments mkWorld {H U} _ _ _ _.
Arguments manager {H U} _.
Arguments completionCallback {H U} _.
Arguments currentRoomCode {H U} _.
Arguments outside {H U} _.

Section Run.
Context {H U : Type}.
Variable invoke : H → string → World H U → World H U.

Definition setManager (w : World H U) (tm : TurnManager.t FakeClock.t)
  : World H U :=
  mkWorld tm (completionCallback w) (currentRoomCode w) (outside w).

Definition setClock (w : World H U) (clk : FakeClock.t) : World H U :=
  setManager w
    (TurnManager.mk (TurnManager.currentTimeout (manager w)) clk).

Definition setCompletionCallback (w : World H U) (roomCode : string)
  (callback : H) : World H U :=
  mkWorld (manager w) (Some callback) (Some roomCode) (outside w).

(** The arrow function handed to [setTimeout] by [startVoting]; an
    empty room code is falsy. *)
Definition runCallback (cb : Callback) (w : World H U) : World H U :=
  match cb with
  | NotifyDeadline =>
      let w :=
        setManager w
          (TurnManager.mk None (TurnManager.clock (manager w))) in
      match completionCallback w, currentRoomCode w with
      | Some callback, Some roomCode =>
          if (String.length roomCode =? 0)%nat then w
          else invoke callback roomCode w
      | _, _ => w
      end
  end.

(** The [while] loop of [tick]; a callback may schedule again, so
    the loop is bounded by fuel and [None] means the fuel ran out. *)
Fixpoint tickLoop (fuel : nat) (targetTime : Z) (w : World H U)
  : option (World H U) :=
  match fuel with
  | O => None
  | S k =>
      let clk := TurnManager.clock (manager w) in
      match FakeClock.timeouts clk with
      | [] => Some w
      | timeout :: rest =>
          if FakeClock.triggerTime timeout <=? targetTime
          then
            let w :=
              setClock w
                (FakeClock.mk (FakeClock.triggerTime timeout) rest
                              (FakeClock.nextTimeoutId clk)) in
            tickLoop k targetTime (runCallback (FakeClock.callback timeout) w)
          else Some w
      end
  end.

Definition tick (fuel : nat) (w : World H U) (milliseconds : Z)
  : option (World H U) :=
  let targetTime :=
    FakeClock.currentTime (TurnManager.clock (manager w)) + milliseconds in
  w ← tickLoop fuel targetTime w;
  Some (setClock w
          (FakeClock.setTime (TurnManager.clock (manager w)) targetTime)).

(** The manager's methods, run on the manager of the world. *)
Definition startVoting (w : World H U) (gameState : GameState)
  (players : list Player) (timerSec : Z) : World H U * GameState :=
  let '(tm, gameState) :=
    TurnManager.startVoting (manager w) gameState players timerSec in
  (setManager w tm, gameState).

Definition finishVoting (u : Q) (w : World H U) (gameState : GameState)
  (players : list Player)
  : World H U * GameState * list Player * TurnManager.TurnResult :=
  let '(tm, gameState, players, res) :=
    TurnManager.finishVoting u (manager w) gameState players in
  (setManager w tm, gameState, players, res).

End Run.

End Deadline.

(** ** Rooms ([types/index.ts]) and InMemoryRoomStore *)

Module Rooms.

Inductive RoomState := lobby | active | ended | aborted.

#[global] Instance RoomState_eq_dec : EqDecision RoomState.
Proof. solve_decision. Defined.

Record Settings := mkSettings { timerSec : Z; maxPlayers : Z }.

Record Room := mkRoom {
  code : string;
  passwordHash : option string;
  players : list Player;
  state : RoomState;
  game : option GameState;
  settings : Settings;
  createdAt : Z
}.

End Rooms.

Module InMemoryRoomStore.

(** [Error(`Room ${code} not found`)]. *)
Inductive Thrown := RoomNotFound (code : string).

Definition createRoom (rooms : gmap string Rooms.Room) (room : Rooms.Room)
  : gmap string Rooms.Room :=
  <[Rooms.code room := room]> rooms.

(** [this.rooms.get(code) || null]. *)
Definition getRoom (rooms : gmap string Rooms.Room) (code : string)
  : option Rooms.Room :=
  rooms !! code.

Definition updateRoom (rooms : gmap string Rooms.Room) (code : string)
  (room : Rooms.Room) : Thrown + gmap string Rooms.Room :=
  if bool_decide (is_Some (rooms !! code))
  then inr (<[code := room]> rooms)
  else inl (RoomNotFound code).

Definition deleteRoom (rooms : gmap string Rooms.Room) (code : string)
  : gmap string Rooms.Room :=
  delete code rooms.

Definition getRoomCount (rooms : gmap string Rooms.Room) : nat := size rooms.

Definition clear (rooms : gmap string Rooms.Room) : gmap string Rooms.Room :=
  ∅.

End InMemoryRoomStore.

(** The result of [validateNickname]: [{ valid, error? }]. *)
Record NicknameValidation := mkNicknameValidation {
  valid : bool;
  validation_error : option string
}.

(** ** AccessControl: room codes and nicknames *)

Module AccessControl.

(** The alphabet of [generateRoomCode]. *)
Definition chars : string := "ABCDEFGHJKLMNPQRSTUVWXYZ23456789".

(** [chars.charAt(i)]: the empty string outside the string. *)
Definition charAt (s : string) (i : Z) : string :=
  if i <? 0 then ""
  else match String.get (Z.to_nat i) s with
       | Some a => String a ""
       | None => ""
       end.

(** The loop of [generateRoomCode]; [random i] is the number
    [Math.random()] returns in iteration [i]. *)
Definition generateRoomCode (random : nat → Q) : string :=
  foldl (λ result i,
           result +:+
           charAt chars
             (Qfloor (random i * inject_Z (Z.of_nat (String.length chars)))))
        "" (seq 0 6).

(** A character of the class [A-Z2-9]. *)
Definition codeChar (a : Ascii.ascii) : bool :=
  let n := Ascii.nat_of_ascii a in
  ((65 <=? n) && (n <=? 90) || (50 <=? n) && (n <=? 57))%nat.

(** [/^[A-Z2-9]{6,8}$/.test(code)]. *)
Definition validateRoomCode (code : string) : bool :=
  (6 <=? String.length code)%nat && (String.length code <=? 8)%nat
  && forallb codeChar (String.list_ascii_of_string code).

(** *** Nicknames

    [validateNickname] and [sanitizeNickname] look at single
    characters, among them white space outside ASCII, and at the
    [length] of the string, which counts UTF-16 code units: a
    nickname is here the list of its code units. *)

(** White space as [trim] and the class [\s] have it: the
    [WhiteSpace] and [LineTerminator] code points, all of which are
    single code units. *)
Definition isWhiteSpace (c : Z) : bool :=
  bool_decide (c ∈ [9; 10; 11; 12; 13; 32; 160; 5760; 8232; 8233; 8239;
                    8287; 12288; 65279])
  || (8192 <=? c) && (c <=? 8202).

Fixpoint trimStart (s : list Z) : list Z :=
  match s with
  | c :: s' => if isWhiteSpace c then trimStart s' else s
  | [] => []
  end.

Definition trimEnd (s : list Z) : list Z :=
  reverse (trimStart (reverse s)).

(** [s.trim()]. *)
Definition trim (s : list Z) : list Z := trimEnd (trimStart s).

(** [s.replace(/\s+/g, ' ')]: every maximal run of white space
    becomes one space; [inRun] tells that the character before was
    white space, so that the run has its space already. *)
Fixpoint replaceRuns (inRun : bool) (s : list Z) : list Z :=
  match s with
  | [] => []
  | c :: s' =>
      if isWhiteSpace c
      then if inRun then replaceRuns true s' else 32 :: replaceRuns true s'
      else c :: replaceRuns false s'
  end.

(** A character of the class [[a-zA-Z0-9\s\-_.]]. *)
Definition nicknameChar (c : Z) : bool :=
  (97 <=? c) && (c <=? 122) || (65 <=? c) && (c <=? 90)
  || (48 <=? c) && (c <=? 57) || isWhiteSpace c
  || (c =? 45) || (c =? 95) || (c =? 46).

Definition validateNickname (nickname : list Z) : NicknameValidation :=
  if bool_decide (nickname = []) || (length (trim nickname) =? 0)%nat
  then mkNicknameValidation false (Some "Nickname cannot be empty")
  else if (20 <? length nickname)%nat
  then mkNicknameValidation false
                            (Some "Nickname too long (max 20 characters)")
  else if negb (negb (bool_decide (nickname = []))
                && forallb nicknameChar nickname)
  then mkNicknameValidation false
                            (Some "Nickname contains invalid characters")
  else mkNicknameValidation true None.

Definition sanitizeNickname (nickname : list Z) : list Z :=
  replaceRuns false (trim nickname).

End AccessControl.

(** ** RoomService

    [createRoom], [joinRoom], [startGame], [startRematch], [castVote]
    and [getRoom], over the in-memory store. The access-control
    collaborator is the interface of [types/index.ts]; the results of
    the calls whose outcome is random ([generateRoomCode], [uuidv4],
    [hashPassword]) are arguments of [createRoom]. [toLowerCase] is the
    string method of that name. An [await] is the plain sequencing of
    the calls. The store is a map of values: it stands for a [Map] no
    two keys of which hold the same object, and an assignment to the
    object got under a key is an update of that entry. A rejected vote
    leaves the game state as it was, so [castVote] leaves the store
    alone on that path. *)


Class IAccessControl := {
  validatePassword : string → string → bool;
  validateNickname : string → NicknameValidation;
  sanitizeNickname : string → string
}.

Module RoomService.

Inductive ErrorCode :=
| ROOM_NOT_FOUND | PASSWORD_REQUIRED | INVALID_PASSWORD | INVALID_NICKNAME
| NICKNAME_TAKEN | ROOM_FULL | UNAUTHORIZED | INVALID_STATE
| NOT_ENOUGH_PLAYERS | INTERNAL_ERROR | VOTE_REJECTED.

Inductive Thrown :=
| RoomServiceError (code : ErrorCode) (message : string)
| StoreError (e : InMemoryRoomStore.Thrown).

Record CreateRoomRequest := mkCreateRoomRequest {
  create_password : option string;
  create_timerSec : option Z
}.

Record CreateRoomResponse := mkCreateRoomResponse {
  created_roomCode : string;
  created_adminToken : string
}.

Record JoinRoomRequest := mkJoinRoomRequest {
  join_roomCode : string;
  join_nickname : string;
  join_password : option string
}.

Record JoinRoomResponse := mkJoinRoomResponse {
  joined_room : Rooms.Room;
  joined_player : Player
}.

Record t (C : Type) := mk {
  roomStore : gmap string Rooms.Room;
  turnManagers : gmap string (TurnManager.t C);
  clock : C
}.
Arguments mk {C} _ _ _.
Arguments roomStore {C} _.
Arguments turnManagers {C} _.
Arguments clock {C} _.

(** Truthiness of an optional string: [undefined] and [''] are falsy. *)
Definition truthyString (s : option string) : bool :=
  match s with
  | Some (String _ _) => true
  | _ => false
  end.

(** Field assignments on a room. *)
Definition set_players (r : Rooms.Room) (v : list Player) : Rooms.Room :=
  Rooms.mkRoom (Rooms.code r) (Rooms.passwordHash r) v (Rooms.state r)
               (Rooms.game r) (Rooms.settings r) (Rooms.createdAt r).

Definition set_state (r : Rooms.Room) (v : Rooms.RoomState) : Rooms.Room :=
  Rooms.mkRoom (Rooms.code r) (Rooms.passwordHash r) (Rooms.players r) v
               (Rooms.game r) (Rooms.settings r) (Rooms.createdAt r).

Definition set_game (r : Rooms.Room) (v : option GameState) : Rooms.Room :=
  Rooms.mkRoom (Rooms.code r) (Rooms.passwordHash r) (Rooms.players r)
               (Rooms.state r) v (Rooms.settings r) (Rooms.createdAt r).

(** [{ ...room }] without [passwordHash]. *)
Definition sanitizeRoomForClient (r : Rooms.Room) : Rooms.Room :=
  Rooms.mkRoom (Rooms.code r) None (Rooms.players r) (Rooms.state r)
               (Rooms.game r) (Rooms.settings r) (Rooms.createdAt r).

Definition set_connected (p : Player) (v : bool) : Player :=
  mkPlayer (id p) (nickname p) (team p) (isAdmin p) (matchingVotes p) v.

Definition set_matchingVotes (p : Player) (v : Z) : Player :=
  mkPlayer (id p) (nickname p) (team p) (isAdmin p) v (connected p).

(** [players.filter(p => p.team === t).length]. *)
Definition teamCount (players : list Player) (t : Team) : nat :=
  length (filter (λ p, team p = t) players).

Section Methods.
Context {C : Type} `{IClock C} `{IAccessControl}.
Variable toLowerCase : string → string.

Definition setStore (svc : t C) (rooms : gmap string Rooms.Room) : t C :=
  mk rooms (turnManagers svc) (clock svc).

(** The statements that assign to the room object got under
    [roomCode], followed by [await this.roomStore.updateRoom(room.code,
    room)]: [room] is the object after the assignments. It is the
    stored object itself, so the entry [roomCode] shows the
    assignments also when [updateRoom] throws. *)
Definition updateThen {R} (svc : t C) (roomCode : string)
  (room : Rooms.Room) (result : R) : t C * (Thrown + R) :=
  let rooms := <[roomCode := room]> (roomStore svc) in
  match InMemoryRoomStore.updateRoom rooms (Rooms.code room) room with
  | inr rooms => (setStore svc rooms, inr result)
  | inl e => (setStore svc rooms, inl (StoreError e))
  end.

Definition createRoom (svc : t C) (request : CreateRoomRequest)
  (roomCode adminToken hashed : string) : t C * CreateRoomResponse :=
  let room :=
    Rooms.mkRoom roomCode
      (if truthyString (create_password request) then Some hashed else None)
      [] Rooms.lobby None
      (Rooms.mkSettings
         (if truthy (create_timerSec request)
          then default 15 (create_timerSec request) else 15)
         10)
      (now (clock svc)) in
  (mk (InMemoryRoomStore.createRoom (roomStore svc) room)
      (<[roomCode := TurnManager.mk None (clock svc)]> (turnManagers svc))
      (clock svc),
   mkCreateRoomResponse roomCode adminToken).

Definition joinRoom (svc : t C) (playerId : string)
  (request : JoinRoomRequest) : t C * (Thrown + JoinRoomResponse) :=
  match InMemoryRoomStore.getRoom (roomStore svc) (join_roomCode request) with
  | None => (svc, inl (RoomServiceError ROOM_NOT_FOUND "Room not found"))
  | Some room =>
      if truthyString (Rooms.passwordHash room)
         && negb (truthyString (join_password request))
      then (svc, inl (RoomServiceError PASSWORD_REQUIRED
                                       "Room requires a password"))
      else if truthyString (Rooms.passwordHash room)
              && truthyString (join_password request)
              && negb (validatePassword
                         (default "" (join_password request))
                         (default "" (Rooms.passwordHash room)))
      then (svc, inl (RoomServiceError INVALID_PASSWORD "Invalid password"))
      else
        let nicknameValidation := validateNickname (join_nickname request) in
        if negb (valid nicknameValidation)
        then (svc, inl (RoomServiceError INVALID_NICKNAME
                          (default "" (validation_error nicknameValidation))))
        else
          let sanitizedNickname := sanitizeNickname (join_nickname request) in
          match list_find
                  (λ p, toLowerCase (nickname p)
                        = toLowerCase sanitizedNickname)
                  (Rooms.players room) with
          | Some (i, existingPlayer) =>
              if bool_decide (id existingPlayer = playerId)
              then
                let existingPlayer := set_connected existingPlayer true in
                let room :=
                  set_players room
                    (<[i := existingPlayer]> (Rooms.players room)) in
                updateThen svc (join_roomCode request) room
                  (mkJoinRoomResponse (sanitizeRoomForClient room)
                                      existingPlayer)
              else (svc, inl (RoomServiceError NICKNAME_TAKEN
                                               "Nickname already taken"))
          | None =>
              if Z.of_nat (length (Rooms.players room))
                 >=? Rooms.maxPlayers (Rooms.settings room)
              then (svc, inl (RoomServiceError ROOM_FULL "Room is full"))
              else
                let redCount := teamCount (Rooms.players room) red in
                let yellowCount := teamCount (Rooms.players room) yellow in
                let t := if (redCount <=? yellowCount)%nat
                         then red else yellow in
                let player :=
                  mkPlayer playerId sanitizedNickname t
                           (length (Rooms.players room) =? 0)%nat 0 true in
                let room :=
                  set_players room (Rooms.players room ++ [player]) in
                updateThen svc (join_roomCode request) room
                  (mkJoinRoomResponse (sanitizeRoomForClient room) player)
          end
  end.

(** [!admin || !admin.isAdmin]. *)
Definition notAdmin (players : list Player) (adminPlayerId : string)
  : bool :=
  match TurnManager.findPlayer players adminPlayerId with
  | Some admin => negb (isAdmin admin)
  | None => true
  end.

Definition startGame (svc : t C) (roomCode adminPlayerId : string)
  : t C * (Thrown + unit) :=
  match InMemoryRoomStore.getRoom (roomStore svc) roomCode with
  | None => (svc, inl (RoomServiceError ROOM_NOT_FOUND "Room not found"))
  | Some room =>
      if notAdmin (Rooms.players room) adminPlayerId
      then (svc, inl (RoomServiceError UNAUTHORIZED
                                       "Only admin can start the game"))
      else if bool_decide (Rooms.state room ≠ Rooms.lobby)
      then (svc, inl (RoomServiceError INVALID_STATE
                                       "Game is not in lobby state"))
      else if (length (Rooms.players room) <? 2)%nat
      then (svc, inl (RoomServiceError NOT_ENOUGH_PLAYERS
                                       "Need at least 2 players to start"))
      else
        let room := set_game room (Some GameEngine.newGame) in
        let room := set_state room Rooms.active in
        updateThen svc roomCode room tt
  end.

Definition startRematch (svc : t C) (roomCode adminPlayerId : string)
  : t C * (Thrown + unit) :=
  match InMemoryRoomStore.getRoom (roomStore svc) roomCode with
  | None => (svc, inl (RoomServiceError ROOM_NOT_FOUND "Room not found"))
  | Some room =>
      if notAdmin (Rooms.players room) adminPlayerId
      then (svc, inl (RoomServiceError UNAUTHORIZED
                                       "Only admin can start a rematch"))
      else if bool_decide (Rooms.state room ≠ Rooms.ended)
      then (svc, inl (RoomServiceError INVALID_STATE
                        "Can only rematch after game has ended"))
      else if (length (Rooms.players room) <? 2)%nat
      then (svc, inl (RoomServiceError NOT_ENOUGH_PLAYERS
                                       "Need at least 2 players to start"))
      else
        let room := set_state room Rooms.lobby in
        let room := set_game room None in
        let room :=
          set_players room
            ((λ p, set_matchingVotes p 0) <$> Rooms.players room) in
        match updateThen svc roomCode room tt with
        | (svc, inr _) => startGame svc roomCode adminPlayerId
        | (svc, inl e) => (svc, inl e)
        end
  end.

Definition castVote (svc : t C) (roomCode playerId : string) (column : Z)
  : t C * (Thrown + unit) :=
  match InMemoryRoomStore.getRoom (roomStore svc) roomCode with
  | None => (svc, inl (RoomServiceError ROOM_NOT_FOUND "Room not found"))
  | Some room =>
      match Rooms.game room with
      | Some game =>
          if bool_decide (Rooms.state room ≠ Rooms.active)
          then (svc, inl (RoomServiceError INVALID_STATE "Game is not active"))
          else
            match turnManagers svc !! roomCode with
            | None => (svc, inl (RoomServiceError INTERNAL_ERROR
                                                  "Turn manager not found"))
            | Some turnManager =>
                let '(result, game) :=
                  TurnManager.castVote turnManager game
                    (Rooms.players room) playerId column in
                if negb (TurnManager.success result)
                then (svc,
                      inl (RoomServiceError VOTE_REJECTED
                             (default ""
                                (TurnManager.message
                                   <$> TurnManager.vote_error result))))
                else updateThen svc roomCode (set_game room (Some game)) tt
            end
      | None => (svc, inl (RoomServiceError INVALID_STATE "Game is not active"))
      end
  end.

Definition getRoom (svc : t C) (roomCode : string) : option Rooms.Room :=
  sanitizeRoomForClient <$> InMemoryRoomStore.getRoom (roomStore svc) roomCode.

Definition getTurnManager (svc : t C) (roomCode : string)
  : option (TurnManager.t C) :=
  turnManagers svc !! roomCode.

End Methods.

End RoomService.

(** ** Vocabulary of the properties *)

(** Votes recorded for column [c]: a column outside the count array has
    no votes. *)
Definition votesFor (counts : list Z) (c : Z) : Z :=
  default 0 (at_index counts c).

(** [c] is a valid column whose count is the maximum among the valid
    columns. *)
Definition attainsMax (counts validCols : list Z) (c : Z) : Prop :=
  c ∈ validCols ∧ ∀ v, v ∈ validCols → votesFor counts v ≤ votesFor counts c.

Definition unitInterval (u : Q) : Prop := (0 <= u)%Q ∧ (u < 1)%Q.

(** Row [r] is the lowest empty cell of column [c]: the cell is [null]
    and no row below it, down to row 5, is. *)
Definition isLowestEmptyRow (b : Board) (c r : Z) : Prop :=
  0 ≤ r ≤ 5 ∧ cellAt b r c = Some None
  ∧ ∀ r', r < r' ≤ 5 → cellAt b r' c ≠ Some None.

(** The board [b] with cell ([r], [c]) holding [t]. *)
Definition withCell (b : Board) (r c : Z) (t : Team) : Board :=
  match at_index b r with
  | Some cells => set_index b r (set_index cells c (Some t))
  | None => b
  end.

(** A board of 6 rows of 7 cells. *)
Definition wfBoard (b : Board) : Prop :=
  length b = 6%nat ∧ Forall (λ cells : Row, length cells = 7%nat) b.

(** Every cell of column [c], rows 0 to 5, is [null]. *)
Definition emptyColumn (b : Board) (c : Z) : Prop :=
  ∀ r, 0 ≤ r ≤ 5 → cellAt b r c = Some None.

(** Successive moves into one column; the rows used, in order. *)
Fixpoint applyMoves (b : Board) (c : Z) (ts : list Team)
  : option (Board * list Z) :=
  match ts with
  | [] => Some (b, [])
  | t :: rest =>
      match GameEngine.applyMove b c t with
      | inl _ => None
      | inr (b', r) =>
          match applyMoves b' c rest with
          | Some (b'', rs) => Some (b'', r :: rs)
          | None => None
          end
      end
  end.

(** The rows [5, 4, ...] for [n] moves stacked from the bottom. *)
Definition stackedRows (n : nat) : list Z :=
  (λ i : nat, 5 - Z.of_nat i) <$> seq 0 n.

(** The column that [finishVoting] resolves to: the decision over the
    tally of the recorded votes, restricted to the playable columns. *)
Definition chosenBy (u : Q) (g : GameState) : Z :=
  let valid := TurnManager.validColumns (board g) in
  MajorityTurnDecider.decideColumn u
    (MajorityTurnDecider.tallyVotes (votes g) valid) valid.

(** The tally that [finishVoting] stores on the game state. *)
Definition tallyOf (g : GameState) : list Z :=
  MajorityTurnDecider.tallyVotes (votes g)
    (TurnManager.validColumns (board g)).

(** No top cell of the board is empty: zero playable columns. *)
Definition noPlayableColumn (b : Board) : Prop :=
  ∀ c, 0 ≤ c < 7 → cellAt b 0 c ≠ Some None.

(** Cell ([c], [r]) is on the board and holds a piece of team [t]. *)
Definition holds (b : Board) (t : Team) (c r : Z) : Prop :=
  0 ≤ c < 7 ∧ 0 ≤ r < 6 ∧ cellAt b r c = Some (Some t).

(** The [n] coordinates met from ([sc], [sr]) in steps of ([dc], [dr]). *)
Definition cellsFrom (sc sr dc dr : Z) (n : nat) : list Cell :=
  (λ i : nat, mkCell (sc + Z.of_nat i * dc) (sr + Z.of_nat i * dr))
    <$> seq 0 n.

(** A run of team [t] along ([dc], [dr]): [n] consecutive cells of [t]
    from ([sc], [sr]), closed at both ends by a cell that is off the
    board or not of [t]. *)
Record isRun (b : Board) (t : Team) (dc dr sc sr : Z) (n : nat) : Prop := {
  run_cells : ∀ i : nat, (i < n)%nat →
              holds b t (sc + Z.of_nat i * dc) (sr + Z.of_nat i * dr);
  run_before : ¬ holds b t (sc - dc) (sr - dr);
  run_after : ¬ holds b t (sc + Z.of_nat n * dc) (sr + Z.of_nat n * dr)
}.

(** The run along ([dc], [dr]) that passes through cell ([c], [r]). *)
Definition runThrough (b : Board) (t : Team) (dc dr c r sc sr : Z) (n : nat)
  : Prop :=
  isRun b t dc dr sc sr n
  ∧ ∃ k : nat, (k < n)%nat ∧ c = sc + Z.of_nat k * dc ∧ r = sr + Z.of_nat k * dr.

(** The four axes through a cell, as steps (columns, rows) from one cell
    of the axis to the next; row 0 is the top row. *)
Definition horizontal : Z * Z := (1, 0).
Definition vertical : Z * Z := (0, 1).
Definition diagonalDown : Z * Z := (1, 1).
Definition diagonalUp : Z * Z := (1, -1).

(** The axes in the fixed scan order. *)
Definition axes : list (Z * Z) :=
  [horizontal; vertical; diagonalDown; diagonalUp].

(** A run of 4 or more through the last move along one of the four axes. *)
Definition winningRun (b : Board) (m : LastMove) (dc dr sc sr : Z) (n : nat)
  : Prop :=
  (dc, dr) ∈ axes
  ∧ runThrough b (lastTeam m) dc dr (lastCol m) (lastRow m) sc sr n
  ∧ (4 ≤ n)%nat.

(** A step that moves by one column, or by one row in a fixed column:
    on the 7 x 6 board two cells of one line are at most 6 such steps
    apart. *)
Definition unitStep (dc dr : Z) : Prop :=
  dc = 1 ∨ dc = -1 ∨ (dc = 0 ∧ (dr = 1 ∨ dr = -1)).

(** The deadline field holds a number that JavaScript treats as true. *)
Definition windowOpen (g : GameState) : Prop :=
  ∃ e, endsAt g = Some e ∧ e ≠ 0.

(** The two shapes of a [castVote] outcome: a structured failure next to
    the untouched game state, or success next to the state whose vote
    map has the new entry. *)
Definition rejected (e : TurnManager.VoteError) (g : GameState)
  : TurnManager.VoteResult * GameState :=
  (TurnManager.mkVoteResult false (Some e), g).

Definition accepted (g : GameState) (playerId : string) (column : Z)
  : TurnManager.VoteResult * GameState :=
  (TurnManager.mkVoteResult true None,
   TurnManager.set_votes g (<[playerId := column]> (votes g))).


(** ** Concrete inputs used to run the model *)

Module Sample.

Definition roster : list Player :=
  [ mkPlayer "p1" "Player1" red false 0 true;
    mkPlayer "p2" "Player2" red false 0 true;
    mkPlayer "p3" "Player3" yellow false 0 true;
    mkPlayer "p4" "Player4" yellow false 0 true ].

Definition manager : TurnManager.t FakeClock.t :=
  TurnManager.mk None FakeClock.fresh.

(** A new game with the first window opened for 15 seconds at time 0. *)
Definition opened : TurnManager.t FakeClock.t * GameState :=
  TurnManager.startVoting manager GameEngine.newGame roster 15.

(** Both red players have voted for column 3. *)
Definition voted : GameState :=
  TurnManager.set_votes opened.2 (<["p1" := 3]> (<["p2" := 3]> ∅)).

(** A board with no empty cell and no four in a row. *)
Definition fullBoard : Board :=
  let R := Some red in
  let Y := Some yellow in
  [ [R; R; Y; Y; R; R; Y];
    [Y; Y; R; R; Y; Y; R];
    [R; R; Y; Y; R; R; Y];
    [Y; Y; R; R; Y; Y; R];
    [R; R; Y; Y; R; R; Y];
    [Y; Y; R; R; Y; Y; R] ].

(** An open window over the full board, with a vote left in the map. *)
Definition staleOnFullBoard : GameState :=
  mkGameState fullBoard red 43 (<["p1" := 3]> ∅) [0; 0; 0; 0; 0; 0; 0]
              (Some 15000) (Some (mkLastMove 6 0 yellow)) None.

(** A window whose deadline field holds the number 0: what
    [startVoting] stores when the clock reads 0 and the timer is 0
    seconds. *)
Definition openedAtZero : TurnManager.t FakeClock.t * GameState :=
  TurnManager.startVoting manager GameEngine.newGame roster 0.

(** The manager with the clock moved to 20 seconds, 5 seconds past the
    deadline of [opened]. *)
Definition lateManager : TurnManager.t FakeClock.t :=
  TurnManager.mk (TurnManager.currentTimeout opened.1)
                 (FakeClock.setTime (TurnManager.clock opened.1) 20000).

(** Red on columns 0 to 3 of the bottom row, yellow above the first
    three. *)
Definition bottomRowWin : Board :=
  let R := Some red in
  let Y := Some yellow in
  let o : option Team := None in
  [ [o; o; o; o; o; o; o];
    [o; o; o; o; o; o; o];
    [o; o; o; o; o; o; o];
    [o; o; o; o; o; o; o];
    [Y; Y; Y; o; o; o; o];
    [R; R; R; R; o; o; o] ].

(** Red on rows 2 to 5 of column 2. *)
Definition columnWin : Board :=
  let R := Some red in
  let Y := Some yellow in
  let o : option Team := None in
  [ [o; o; o; o; o; o; o];
    [o; o; o; o; o; o; o];
    [o; o; R; o; o; o; o];
    [o; o; R; o; o; o; o];
    [o; o; R; o; o; o; o];
    [Y; Y; R; Y; o; o; o] ].

(** Red on the diagonal that goes down from column 0, row 2 to
    column 3, row 5. *)
Definition diagonalDownWin : Board :=
  let R := Some red in
  let Y := Some yellow in
  let o : option Team := None in
  [ [o; o; o; o; o; o; o];
    [o; o; o; o; o; o; o];
    [R; o; o; o; o; o; o];
    [Y; R; o; o; o; o; o];
    [R; Y; R; o; o; o; o];
    [Y; Y; Y; R; o; o; o] ].

(** Red on the diagonal that goes up from column 0, row 5 to
    column 3, row 2. *)
Definition diagonalUpWin : Board :=
  let R := Some red in
  let Y := Some yellow in
  let o : option Team := None in
  [ [o; o; o; o; o; o; o];
    [o; o; o; o; o; o; o];
    [o; o; o; R; o; o; o];
    [o; o; R; Y; o; o; o];
    [o; R; Y; R; o; o; o];
    [R; Y; Y; Y; o; o; o] ].

(** A store that holds the empty board: six row arrays and the array
    of their references. *)
Definition stored : gmap positive Store.Obj :=
  list_to_map
    [ (1%positive, Store.RowArray GameEngine.emptyRow);
      (2%positive, Store.RowArray GameEngine.emptyRow);
      (3%positive, Store.RowArray GameEngine.emptyRow);
      (4%positive, Store.RowArray GameEngine.emptyRow);
      (5%positive, Store.RowArray GameEngine.emptyRow);
      (6%positive, Store.RowArray GameEngine.emptyRow);
      (7%positive, Store.BoardArray [1; 2; 3; 4; 5; 6]%positive) ].

Definition half : Q := 1 # 2.



End Sample.

(** ** Proof automation *)

(** Case analysis on an integer known to lie in a short range. *)
Ltac each_column c :=
  let H := fresh "Hcases" in
  assert (c = 0 ∨ c = 1 ∨ c = 2 ∨ c = 3 ∨ c = 4 ∨ c = 5 ∨ c = 6) as H by lia;
  destruct H as [->|[->|[->|[->|[->|[->| ->]]]]]].

Ltac each_row r :=
  let H := fresh "Hcases" in
  assert (r = 0 ∨ r = 1 ∨ r = 2 ∨ r = 3 ∨ r = 4 ∨ r = 5) as H by lia;
  destruct H as [->|[->|[->|[->|[->| ->]]]]].

(** ** Vocabulary of the further properties *)

(** The number of players whose recorded vote is column [c]. *)
Definition votersFor (votes : gmap string Z) (c : Z) : nat :=
  size (filter (λ kv : string * Z, kv.2 = c) votes).

(** [c] is a column that the tally counts: valid and inside [0, 7). *)
Definition counted (validCols : list Z) (c : Z) : Prop :=
  c ∈ validCols ∧ 0 ≤ c < 7.

(** No empty cell lies below a piece or below a missing cell: in every
    column, below a cell that is not [null] no cell is [null]. *)
Definition settled (b : Board) : Prop :=
  ∀ c r r', 0 ≤ r < r' ∧ r' ≤ 5 →
    cellAt b r c ≠ Some None → cellAt b r' c ≠ Some None.

(** The boards of play: the new board and what successful moves make of
    it. *)
Inductive Played : Board → Prop :=
| Played_new : Played GameEngine.newBoard
| Played_move b c t b' r :
    Played b → GameEngine.applyMove b c t = inr (b', r) → Played b'.

(** All six cells of column [c] hold a piece. *)
Definition fullColumn (b : Board) (c : Z) : Prop :=
  ∀ r, 0 ≤ r ≤ 5 → ∃ t, cellAt b r c = Some (Some t).

(** [line] is four cells in a row along one of the four directions, each
    on the board and holding a piece of team [t]. *)
Definition fourInLine (b : Board) (t : Team) (line : list Cell) : Prop :=
  ∃ sc sr dc dr,
    (dc, dr) ∈ GameEngine.directions
    ∧ line = cellsFrom sc sr dc dr 4
    ∧ ∀ cell, cell ∈ line → holds b t (col cell) (row cell).

(** The number of recorded votes for column [c] whose key is the id of a
    roster player of team [t]. *)
Definition teamVotersFor (g : GameState) (players : list Player) (t : Team)
  (c : Z) : nat :=
  size (filter (λ kv : string * Z,
                  kv.2 = c ∧ Exists (λ p, team p = t ∧ id p = kv.1) players)
               (votes g)).

(** What one resolution does to a roster entry: identity kept, one more
    matching vote exactly for an active-team player whose recorded vote
    is the chosen column. *)
Definition creditedFrom (g : GameState) (chosen : Z) (p p' : Player) : Prop :=
  id p' = id p ∧ nickname p' = nickname p ∧ team p' = team p
  ∧ isAdmin p' = isAdmin p ∧ connected p' = connected p
  ∧ matchingVotes p'
    = matchingVotes p
      + (if bool_decide (team p = currentTeam g
                         ∧ votes g !! id p = Some chosen)
         then 1 else 0).

(** The queue of a fake clock is ordered by trigger time, its ids are
    distinct and all below the next id to hand out. *)
Definition sortedByTime (l : list FakeClock.Timeout) : Prop :=
  StronglySorted (λ a b, FakeClock.triggerTime a ≤ FakeClock.triggerTime b) l.

Record clockInv (c : FakeClock.t) : Prop := {
  inv_sorted : sortedByTime (FakeClock.timeouts c);
  inv_distinct : NoDup (FakeClock.timeoutId <$> FakeClock.timeouts c);
  inv_below : Forall (λ x, FakeClock.timeoutId x < FakeClock.nextTimeoutId c)
                     (FakeClock.timeouts c)
}.

(** A timeout with handle [h] is in the queue. *)
Definition queued (c : FakeClock.t) (h : Z) : Prop :=
  h ∈ FakeClock.timeoutId <$> FakeClock.timeouts c.

(** The queue of the manager's clock holds the manager's pending
    deadline and nothing else, and ids start at 1. *)
Definition soleOwner (tm : TurnManager.t FakeClock.t) : Prop :=
  1 ≤ FakeClock.nextTimeoutId (TurnManager.clock tm)
  ∧ match TurnManager.currentTimeout tm with
    | None => FakeClock.timeouts (TurnManager.clock tm) = []
    | Some h =>
        ∃ x, FakeClock.timeouts (TurnManager.clock tm) = [x]
             ∧ FakeClock.timeoutId x = h
             ∧ 1 ≤ h < FakeClock.nextTimeoutId (TurnManager.clock tm)
    end.

(** The entries of a queue that are not the manager's pending deadline. *)
Definition othersOf (tm : TurnManager.t FakeClock.t)
  : list FakeClock.Timeout :=
  filter (λ x, Some (FakeClock.timeoutId x) ≠ TurnManager.currentTimeout tm)
         (FakeClock.timeouts (TurnManager.clock tm)).

(** ** Further concrete inputs *)

Module Sample2.

(** Red to move with three in a row on the bottom row; both red
    players vote for column 3. *)
Definition nearWin : GameState :=
  let R := Some red in
  let Y := Some yellow in
  let o : option Team := None in
  mkGameState
    [ [o; o; o; o; o; o; o];
      [o; o; o; o; o; o; o];
      [o; o; o; o; o; o; o];
      [o; o; o; o; o; o; o];
      [Y; Y; Y; o; o; o; o];
      [R; R; R; o; o; o; o] ]
    red 7 (<["p1" := 3]> (<["p2" := 3]> ∅)) [0; 0; 0; 0; 0; 0; 0]
    (Some 15000) (Some (mkLastMove 2 4 yellow)) None.

(** A completion callback that counts its calls. *)
Definition count (_ : unit) (_ : string) (w : Deadline.World unit nat)
  : Deadline.World unit nat :=
  Deadline.mkWorld (Deadline.manager w) (Deadline.completionCallback w)
                   (Deadline.currentRoomCode w) (S (Deadline.outside w)).

Definition world : Deadline.World unit nat :=
  Deadline.setCompletionCallback
    (Deadline.mkWorld Sample.manager None None 0%nat) "test-room" tt.

End Sample2.

(** ** Vocabulary for the room service *)

(** Every room is stored under its own code. *)
Definition keyed (rooms : gmap string Rooms.Room) : Prop :=
  ∀ k r, rooms !! k = Some r → Rooms.code r = k.

(** Red has as many players as yellow, or one more. *)
Definition balanced (players : list Player) : Prop :=
  (RoomService.teamCount players yellow ≤ RoomService.teamCount players red
   ≤ RoomService.teamCount players yellow + 1)%nat.

(** No two players share a nickname up to case. *)
Definition distinctNicknames (toLowerCase : string → string)
  (players : list Player) : Prop :=
  NoDup ((λ p, toLowerCase (nickname p)) <$> players).

Definition withinCapacity (r : Rooms.Room) : Prop :=
  Z.of_nat (length (Rooms.players r)) ≤ Rooms.maxPlayers (Rooms.settings r).

Definition roomInv (toLowerCase : string → string) (r : Rooms.Room) : Prop :=
  balanced (Rooms.players r)
  ∧ distinctNicknames toLowerCase (Rooms.players r)
  ∧ withinCapacity r.

(** The player [adminPlayerId] is in the room and is its admin. *)
Definition isAdminOf (r : Rooms.Room) (adminPlayerId : string) : Prop :=
  ∃ admin, TurnManager.findPlayer (Rooms.players r) adminPlayerId = Some admin
           ∧ isAdmin admin = true.

(** A thrown [RoomServiceError], as opposed to an error of the store. *)
Definition refused {R} (r : RoomService.Thrown + R) : Prop :=
  ∃ code message, r = inl (RoomService.RoomServiceError code message).

(** What [startGame] and [startRematch] ask of the caller and of the
    room, [st] being the state the room has to be in. *)
Definition canStart (r : Rooms.Room) (adminPlayerId : string)
  (st : Rooms.RoomState) : Prop :=
  isAdminOf r adminPlayerId
  ∧ Rooms.state r = st
  ∧ (2 ≤ length (Rooms.players r))%nat.

(** The room [r] with a fresh game under way and [players] as its
    players. *)
Definition startedRoom (r : Rooms.Room) (players : list Player) : Rooms.Room :=
  Rooms.mkRoom (Rooms.code r) (Rooms.passwordHash r) players Rooms.active
               (Some GameEngine.newGame) (Rooms.settings r) (Rooms.createdAt r).

Section JoinOutcome.
Import RoomService.
Context `{IAccessControl}.
Variable toLowerCase : string → string.

(** The players of a room after [joinRoom] let [playerId] in. *)
Inductive Joined (playerId : string) (request : JoinRoomRequest)
  (room : Rooms.Room) : list Player → Player → Prop :=
| Rejoined i existing :
    list_find (λ p, toLowerCase (nickname p)
                    = toLowerCase (sanitizeNickname (join_nickname request)))
              (Rooms.players room) = Some (i, existing) →
    id existing = playerId →
    Joined playerId request room
           (<[i := set_connected existing true]> (Rooms.players room))
           (set_connected existing true)
| Entered :
    list_find (λ p, toLowerCase (nickname p)
                    = toLowerCase (sanitizeNickname (join_nickname request)))
              (Rooms.players room) = None →
    Z.of_nat (length (Rooms.players room))
    < Rooms.maxPlayers (Rooms.settings room) →
    Joined playerId request room
           (Rooms.players room
            ++ [mkPlayer playerId (sanitizeNickname (join_nickname request))
                  (if (teamCount (Rooms.players room) red
                       <=? teamCount (Rooms.players room) yellow)%nat
                   then red else yellow)
                  (length (Rooms.players room) =? 0)%nat 0 true])
           (mkPlayer playerId (sanitizeNickname (join_nickname request))
              (if (teamCount (Rooms.players room) red
                   <=? teamCount (Rooms.players room) yellow)%nat
               then red else yellow)
              (length (Rooms.players room) =? 0)%nat 0 true).

End JoinOutcome.

Module Sample3.

(** An access control that takes every nickname as it is and compares
    passwords with hashes literally. *)
Definition openAccess : IAccessControl := {|
  validatePassword := String.eqb;
  validateNickname := λ _, mkNicknameValidation true None;
  sanitizeNickname := λ n, n
|}.

Definition empty : RoomService.t FakeClock.t :=
  RoomService.mk ∅ ∅ FakeClock.fresh.

Definition created : RoomService.t FakeClock.t :=
  (RoomService.createRoom empty
     (RoomService.mkCreateRoomRequest None None) "ABC234" "token" "").1.

Definition join (svc : RoomService.t FakeClock.t) (playerId nick : string)
  : RoomService.t FakeClock.t :=
  (@RoomService.joinRoom _ openAccess (λ s, s) svc playerId
     (RoomService.mkJoinRoomRequest "ABC234" nick None)).1.

Definition lobbyOfTwo : RoomService.t FakeClock.t :=
  join (join created "p1" "ann") "p2" "bob".

Definition roomOfTwo : Rooms.Room :=
  Rooms.mkRoom "ABC234" None
    [mkPlayer "p1" "ann" red true 0 true;
     mkPlayer "p2" "bob" yellow false 0 true]
    Rooms.lobby None (Rooms.mkSettings 15 10) 0.

Definition endedRoom : Rooms.Room :=
  Rooms.mkRoom "ABC234" None (Rooms.players roomOfTwo)
    Rooms.ended (Some GameEngine.newGame) (Rooms.mkSettings 15 10) 0.

Definition started : RoomService.t FakeClock.t :=
  (RoomService.startGame lobbyOfTwo "ABC234" "p1").1.

(** The room of [started] once its game has ended in a draw. *)
Definition finished : RoomService.t FakeClock.t :=
  RoomService.mk
    ((λ r, RoomService.set_state r Rooms.ended) <$> RoomService.roomStore started)
    (RoomService.turnManagers started) (RoomService.clock started).

(** [started] with the voting window open. *)
Definition voting : RoomService.t FakeClock.t :=
  RoomService.mk
    ((λ r, RoomService.set_game r
             ((λ g, TurnManager.set_endsAt g (Some 15000)) <$> Rooms.game r))
       <$> RoomService.roomStore started)
    (RoomService.turnManagers started) (RoomService.clock started).

End Sample3.

(** ** Vocabulary for nicknames *)

Definition whiteSpace (c : Z) : Prop := AccessControl.isWhiteSpace c = true.

(** The characters of a nickname that are not white space, in order. *)
Definition inked (s : list Z) : list Z :=
  filter (λ c, ¬ whiteSpace c) s.

(** White space occurs only as single spaces between other
    characters. *)
Definition singleSpaced (s : list Z) : Prop :=
  (∀ c, c ∈ s → whiteSpace c → c = 32)
  ∧ (∀ c, head s = Some c → ¬ whiteSpace c)
  ∧ (∀ c, last s = Some c → ¬ whiteSpace c)
  ∧ (∀ i c d, s !! i = Some c → s !! S i = Some d →
              whiteSpace c → ¬ whiteSpace d).

(** The same without the condition on the last character, as a
    function: [afterSpace] tells that white space may not come first. *)
Fixpoint spacedFrom (afterSpace : bool) (s : list Z) : bool :=
  match s with
  | [] => true
  | c :: s' =>
      if AccessControl.isWhiteSpace c
      then negb afterSpace && (c =? 32) && spacedFrom true s'
      else spacedFrom false s'
  end.

Module Sample4.

(** [" Ann \t B. "]. *)
Definition padded : list Z := [32; 65; 110; 110; 32; 9; 66; 46; 32].

End Sample4.
(** * Properties *)

Section ArrayFacts.
Context {A : Type}.
Implicit Types (a : list A) (i : Z).

Lemma at_index_Some a i x :
  at_index a i = Some x ↔ 0 ≤ i ∧ a !! Z.to_nat i = Some x.
Proof.
  unfold at_index. destruct (Z.ltb_spec i 0); split.
  - discriminate.
  - intros [? _]; lia.
  - auto.
  - tauto.
Qed.

Lemma at_index_of_nat a (k : nat) : at_index a (Z.of_nat k) = a !! k.
Proof.
  unfold at_index. destruct (Z.ltb_spec (Z.of_nat k) 0); [lia|].
  by rewrite Nat2Z.id.
Qed.

Lemma at_index_in_range a i :
  0 ≤ i < Z.of_nat (length a) → is_Some (at_index a i).
Proof.
  intros Hi. unfold at_index. destruct (Z.ltb_spec i 0); [lia|].
  apply lookup_lt_is_Some. lia.
Qed.

Lemma at_index_elem_of a i x : at_index a i = Some x → x ∈ a.
Proof.
  intros [_ Hx]%at_index_Some. by eapply list_elem_of_lookup_2.
Qed.
End ArrayFacts.

Section Decider.
Import MajorityTurnDecider.

Lemma randomIndex_range u (n : Z) :
  unitInterval u → 0 < n → 0 ≤ Qfloor (u * inject_Z n) < n.
Proof.
  intros [Hlo Hhi] Hn. destruct u as [a b].
  unfold Qle, Qlt in *. cbn in *.
  rewrite Pos.mul_1_r.
  split.
  - apply Z.div_pos; lia.
  - apply Z.div_lt_upper_bound; nia.
Qed.

Lemma pickRandomColumn_elem_of u columns :
  unitInterval u → columns ≠ [] → pickRandomColumn u columns ∈ columns.
Proof.
  intros Hu Hne. unfold pickRandomColumn.
  destruct (Nat.eqb_spec (length columns) 0) as [Hz|Hz].
  { by destruct columns. }
  pose proof (randomIndex_range u (Z.of_nat (length columns)) Hu) as Hr.
  destruct (at_index_in_range columns
              (Qfloor (u * inject_Z (Z.of_nat (length columns)))))
    as [x Hx]; [lia|].
  rewrite Hx. cbn. by eapply at_index_elem_of.
Qed.
End Decider.

Section DecideColumn.
Import MajorityTurnDecider.
Variable validCols : list Z.

Lemma includes_true (x : Z) : includes validCols x = true ↔ x ∈ validCols.
Proof. unfold includes. apply bool_decide_eq_true. Qed.

(** The first loop computes the largest count of a valid column, or
    the initial value when no valid column exceeds it. *)
Lemma maxVotesFrom_spec counts : ∀ c m,
  let r := maxVotesFrom validCols c counts m in
  m ≤ r
  ∧ (∀ (k : nat) x, counts !! k = Some x → c + Z.of_nat k ∈ validCols → x ≤ r)
  ∧ (r = m ∨ ∃ k : nat, counts !! k = Some r ∧ c + Z.of_nat k ∈ validCols).
Proof.
  induction counts as [|x counts IH]; intros c m; cbn.
  - split; [lia|]. split; [|by left]. intros k y Hk. by destruct k.
  - set (m' := if includes validCols c && (x >? m) then x else m).
    destruct (IH (c + 1) m') as (Hle & Hub & Hwit).
    assert (Hm : m ≤ m').
    { subst m'. destruct (includes validCols c); cbn; [|lia].
      destruct (Z.gtb_spec x m); lia. }
    split; [lia|]. split.
    + intros [|k] y Hk Hin; cbn in Hk.
      * injection Hk as <-. rewrite Z.add_0_r in Hin.
        apply includes_true in Hin.
        assert (x ≤ m'); [|lia].
        subst m'. rewrite Hin. cbn. destruct (Z.gtb_spec x m); lia.
      * apply (Hub k y Hk). by replace (c + 1 + Z.of_nat k) with (c + Z.of_nat (S k)) by lia.
    + destruct Hwit as [Heq | (k & Hk & Hin)].
      * subst m'. destruct (includes validCols c) eqn:Hc; cbn in Heq; [|by left].
        destruct (Z.gtb_spec x m); [|by left].
        right. exists 0%nat. cbn. rewrite Z.add_0_r, Heq.
        split; [done|]. by apply includes_true.
      * right. exists (S k). cbn. split; [done|].
        by replace (c + Z.of_nat (S k)) with (c + 1 + Z.of_nat k) by lia.
Qed.

(** The second loop collects exactly the valid columns whose count is
    [m]. *)
Lemma tiedColumnsFrom_spec counts m : ∀ c x,
  x ∈ tiedColumnsFrom validCols c counts m
  ↔ ∃ k : nat, counts !! k = Some m ∧ x = c + Z.of_nat k ∧ x ∈ validCols.
Proof.
  induction counts as [|y counts IH]; intros c x; cbn.
  - split; [by intros ?%elem_of_nil | by intros ([|?] & ? & _)].
  - assert (Hrest : x ∈ tiedColumnsFrom validCols (c + 1) counts m
              ↔ ∃ k : nat, counts !! k = Some m ∧ x = c + Z.of_nat (S k)
                           ∧ x ∈ validCols).
    { rewrite IH. split; intros (k & ? & -> & ?); exists k;
        (split; [done|]); (split; [lia|]); done. }
    destruct (includes validCols c && (y =? m)) eqn:Hhead.
    + apply andb_true_iff in Hhead as [Hc%includes_true ->%Z.eqb_eq].
      rewrite elem_of_cons, Hrest. split.
      * intros [-> | (k & ? & ? & ?)].
        -- exists 0%nat. cbn. split; [done|]. split; [lia|done].
        -- by exists (S k).
      * intros ([|k] & Hk & -> & Hin); cbn in Hk.
        -- left. lia.
        -- right. by exists k.
    + rewrite Hrest. split.
      * intros (k & ? & ? & ?). by exists (S k).
      * intros ([|k] & Hk & -> & Hin); cbn in Hk.
        -- injection Hk as ->. rewrite Z.add_0_r in Hin.
           apply includes_true in Hin. rewrite Hin, Z.eqb_refl in Hhead.
           discriminate.
        -- by exists k.
Qed.

Lemma votesFor_lookup counts (k : nat) x :
  counts !! k = Some x → votesFor counts (Z.of_nat k) = x.
Proof. intros Hk. unfold votesFor. by rewrite at_index_of_nat, Hk. Qed.

Lemma votesFor_cases counts c :
  votesFor counts c = 0
  ∨ ∃ k : nat, c = Z.of_nat k ∧ counts !! k = Some (votesFor counts c).
Proof.
  unfold votesFor. destruct (at_index counts c) as [x|] eqn:Hc; [|by left].
  apply at_index_Some in Hc as [Hc Hk]. right. exists (Z.to_nat c).
  split; [lia|done].
Qed.

Lemma total_zero counts :
  Forall (λ x, 0 ≤ x) counts → foldl Z.add 0 counts = 0 →
  Forall (λ x, x = 0) counts.
Proof.
  assert (Hacc : ∀ l a, Forall (λ x, 0 ≤ x) l → a ≤ foldl Z.add a l).
  { induction l as [|x l IH]; intros a Hl; cbn; [lia|].
    inversion Hl; subst. etrans; [|apply IH]; [lia|done]. }
  assert (Hgen : ∀ l a, Forall (λ x, 0 ≤ x) l → 0 ≤ a → foldl Z.add a l = 0 →
                        a = 0 ∧ Forall (λ x, x = 0) l).
  { induction l as [|x l IH]; intros a Hl Ha Hsum; cbn in *; [done|].
    inversion Hl; subst.
    destruct (IH (a + x)) as [? ?]; [done|lia|done|].
    split; [lia|]. constructor; [lia|done]. }
  intros Hl Hsum. by destruct (Hgen counts 0 Hl).
Qed.

Lemma decideColumn_elem_of u counts :
  unitInterval u → validCols ≠ [] →
  decideColumn u counts validCols ∈ validCols.
Proof.
  intros Hu Hne. unfold decideColumn.
  destruct (foldl Z.add 0 counts =? 0); [by apply pickRandomColumn_elem_of|].
  destruct (Z.eqb_spec (maxVotesFrom validCols 0 counts 0) 0) as [|Hmax];
    [by apply pickRandomColumn_elem_of|].
  set (m := maxVotesFrom validCols 0 counts 0) in *.
  destruct (maxVotesFrom_spec counts 0 0) as (_ & _ & [?|(k & Hk & Hin)]); [done|].
  fold m in Hk.
  assert (Htied : 0 + Z.of_nat k ∈ tiedColumnsFrom validCols 0 counts m).
  { apply tiedColumnsFrom_spec. by exists k. }
  assert (Hpick : pickRandomColumn u (tiedColumnsFrom validCols 0 counts m)
                    ∈ tiedColumnsFrom validCols 0 counts m).
  { apply pickRandomColumn_elem_of; [done|]. intros Hnil.
    rewrite Hnil in Htied. by apply elem_of_nil in Htied. }
  apply tiedColumnsFrom_spec in Hpick as (? & _ & _ & ?). done.
Qed.

Lemma decideColumn_attainsMax u counts :
  unitInterval u → validCols ≠ [] → Forall (λ x, 0 ≤ x) counts →
  attainsMax counts validCols (decideColumn u counts validCols).
Proof.
  intros Hu Hne Hpos.
  assert (Hnonneg : ∀ c, 0 ≤ votesFor counts c).
  { intros c. destruct (votesFor_cases counts c) as [->|(k & _ & Hk)]; [done|].
    eapply Forall_lookup_1 in Hpos; [|done]. done. }
  split; [by apply decideColumn_elem_of|].
  intros v Hv. unfold decideColumn.
  destruct (Z.eqb_spec (foldl Z.add 0 counts) 0) as [Hsum|Hsum].
  { apply total_zero in Hsum; [|done].
    assert (Hzero : ∀ c, votesFor counts c = 0).
    { intros c. destruct (votesFor_cases counts c) as [->|(k & _ & Hk)]; [done|].
      by eapply Forall_lookup_1 in Hsum. }
    by rewrite !Hzero. }
  set (m := maxVotesFrom validCols 0 counts 0).
  destruct (maxVotesFrom_spec counts 0 0) as (Hm0 & Hub & Hwit). fold m in Hm0, Hub, Hwit.
  assert (Hle : ∀ c, c ∈ validCols → votesFor counts c ≤ m).
  { intros c Hc. destruct (votesFor_cases counts c) as [->|(k & -> & Hk)]; [done|].
    apply (Hub k); [done|]. by rewrite Z.add_0_l. }
  destruct (Z.eqb_spec m 0) as [Hmz|Hmz].
  { pose proof (pickRandomColumn_elem_of u validCols Hu Hne) as Hp.
    specialize (Hle _ Hv). specialize (Hnonneg (pickRandomColumn u validCols)). lia. }
  destruct Hwit as [?|(k & Hk & Hin)]; [lia|].
  assert (Hpick : pickRandomColumn u (tiedColumnsFrom validCols 0 counts m)
                    ∈ tiedColumnsFrom validCols 0 counts m).
  { apply pickRandomColumn_elem_of; [done|]. intros Hnil.
    assert (Htied : 0 + Z.of_nat k ∈ tiedColumnsFrom validCols 0 counts m)
      by (apply tiedColumnsFrom_spec; by exists k).
    rewrite Hnil in Htied. by apply elem_of_nil in Htied. }
  apply tiedColumnsFrom_spec in Hpick as (j & Hj & Heq & _).
  rewrite Heq, Z.add_0_l, (votesFor_lookup _ _ _ Hj). by apply Hle.
Qed.
End DecideColumn.

Section BoardFacts.
Import GameEngine.
Implicit Types (b : Board) (c r : Z) (t : Team).

Lemma at_index_set_index {A} (a : list A) i j (x : A) :
  at_index (set_index a i x) j
  = if bool_decide (i = j ∧ is_Some (at_index a i)) then Some x
    else at_index a j.
Proof.
  unfold set_index, at_index.
  destruct (Z.ltb_spec i 0), (Z.ltb_spec j 0);
    try (case_bool_decide as Hd; [destruct Hd as [? [? ?]]; (lia || done)|done]).
  case_bool_decide as Hd.
  - destruct Hd as [<- Hs]. apply list_lookup_insert_eq.
    by apply lookup_lt_is_Some.
  - destruct (decide (Z.to_nat i = Z.to_nat j)) as [Heq|Hne].
    + assert (i = j) as <- by lia.
      rewrite list_insert_ge; [done|].
      destruct (decide (length a ≤ Z.to_nat i)%nat); [done|].
      exfalso. apply Hd. split; [done|]. apply lookup_lt_is_Some. lia.
    + by apply list_lookup_insert_ne.
Qed.

(** The board returned by a move differs from the input in one cell. *)
Lemma cellAt_withCell b r c t r' c' :
  cellAt (withCell b r c t) r' c'
  = if bool_decide (r' = r ∧ c' = c ∧ is_Some (cellAt b r c))
    then Some (Some t) else cellAt b r' c'.
Proof.
  unfold withCell, cellAt.
  destruct (at_index b r) as [cells|] eqn:Hr; cbn.
  - rewrite at_index_set_index, Hr.
    case_bool_decide as H1; cbn.
    + destruct H1 as [<- _]. rewrite Hr. cbn.
      rewrite at_index_set_index.
      case_bool_decide as H2; case_bool_decide as H3; try done; exfalso.
      * destruct H2 as [-> ?]. by apply H3.
      * destruct H3 as (_ & -> & ?). by apply H2.

    + case_bool_decide as H2; [|done]. exfalso. apply H1.
      destruct H2 as (-> & _ & _). split; [done|]. by eexists.
  - case_bool_decide as H1; [|done].
    destruct H1 as (_ & _ & [? ?]). done.
Qed.

Lemma isNullAt_true b r c : isNullAt b r c = true ↔ cellAt b r c = Some None.
Proof. unfold isNullAt. destruct (cellAt b r c) as [[?|]|]; naive_solver. Qed.

Lemma isValidMove_true b c :
  isValidMove b c = true ↔ 0 ≤ c < 7 ∧ cellAt b 0 c = Some None.
Proof.
  unfold isValidMove.
  destruct (Z.ltb_spec c 0); cbn; [split; [done|lia]|].
  destruct (Z.geb_spec c 7); cbn; [split; [done|lia]|].
  rewrite isNullAt_true. split; [intros; split; [lia|done] | by intros [_ ?]].
Qed.

Lemma isValidMove_false b c :
  isValidMove b c = false ↔ c < 0 ∨ 7 ≤ c ∨ cellAt b 0 c ≠ Some None.
Proof.
  rewrite <-not_true_iff_false, isValidMove_true.
  destruct (decide (cellAt b 0 c = Some None)); split.
  - intros Hn. destruct (decide (0 ≤ c < 7)); [|lia]. exfalso. by apply Hn.
  - intros [?|[?|?]] [? ?]; (lia || done).
  - intros _. by right; right.
  - intros _ [_ ?]. done.
Qed.

Lemma findTargetRow_spec b c (n : nat) :
  let r := findTargetRow b c n in
  (r = -1 ∧ ∀ r', 0 ≤ r' < Z.of_nat n → cellAt b r' c ≠ Some None)
  ∨ (0 ≤ r < Z.of_nat n ∧ cellAt b r c = Some None
     ∧ ∀ r', r < r' < Z.of_nat n → cellAt b r' c ≠ Some None).
Proof.
  induction n as [|n IH]; cbn.
  - left. split; [done|]. lia.
  - destruct (isNullAt b (Z.of_nat n) c) eqn:Hn.
    + right. apply isNullAt_true in Hn. split; [lia|]. split; [done|]. lia.
    + assert (cellAt b (Z.of_nat n) c ≠ Some None) as Hnn.
      { intros ?%isNullAt_true. congruence. }
      destruct IH as [[-> IH]|(? & ? & IH)].
      * left. split; [done|]. intros r' Hr'.
        destruct (decide (r' = Z.of_nat n)) as [->|]; [done|]. apply IH. lia.
      * right. split; [lia|]. split; [done|]. intros r' Hr'.
        destruct (decide (r' = Z.of_nat n)) as [->|]; [done|]. apply IH. lia.
Qed.

Lemma isLowestEmptyRow_unique b c r1 r2 :
  isLowestEmptyRow b c r1 → isLowestEmptyRow b c r2 → r1 = r2.
Proof.
  intros (? & H1 & L1) (? & H2 & L2).
  destruct (Z.lt_trichotomy r1 r2) as [?|[?|?]]; [|done|].
  - exfalso. apply (L1 r2); [lia|done].
  - exfalso. apply (L2 r1); [lia|done].
Qed.

(** A valid move succeeds, lands on the lowest empty row of the
    column, and changes that cell only. *)
Lemma applyMove_valid b c t :
  isValidMove b c = true →
  ∃ r, isLowestEmptyRow b c r ∧ applyMove b c t = inr (withCell b r c t, r).
Proof.
  intros Hv. unfold applyMove, withCell. rewrite Hv. cbn [negb].
  rewrite list_fmap_id.
  apply isValidMove_true in Hv as [Hc Htop].
  destruct (findTargetRow_spec b c 6) as [[_ Hnone]|(Hr & Hnull & Hbelow)].
  { exfalso. apply (Hnone 0); [lia|done]. }
  set (r := findTargetRow b c 6) in *.
  exists r. split.
  { split; [lia|]. split; [done|]. intros r' ?. apply Hbelow. lia. }
  destruct (Z.eqb_spec r (-1)); [lia|]. done.
Qed.

Lemma applyMove_invalid b c t :
  isValidMove b c = false → applyMove b c t = inl (InvalidMove c).
Proof. intros Hv. unfold applyMove. by rewrite Hv. Qed.
End BoardFacts.

Section Stacking.
Import GameEngine.

Lemma applyMoves_from_level c ts : ∀ b (j : nat),
  0 ≤ c < 7 → (j + length ts ≤ 6)%nat →
  (∀ r, 0 ≤ r ≤ 5 - Z.of_nat j → cellAt b r c = Some None) →
  (∀ r, 5 - Z.of_nat j < r ≤ 5 → cellAt b r c ≠ Some None) →
  ∃ b', applyMoves b c ts
        = Some (b', (λ i : nat, 5 - Z.of_nat (j + i)) <$> seq 0 (length ts)).
Proof.
  induction ts as [|t ts IH]; intros b j Hc Hlen Hnull Hfull; cbn.
  { by exists b. }
  cbn in Hlen.
  assert (Hv : isValidMove b c = true).
  { apply isValidMove_true. split; [done|]. apply Hnull. lia. }
  destruct (applyMove_valid b c t Hv) as (r & Hlow & ->).
  assert (r = 5 - Z.of_nat j) as ->.
  { apply (isLowestEmptyRow_unique b c); [done|].
    split; [lia|]. split; [apply Hnull; lia|]. intros r' ?. apply Hfull. lia. }
  destruct (IH (withCell b (5 - Z.of_nat j) c t) (S j)) as [b' Hb'].
  - done.
  - lia.
  - intros r Hr. rewrite cellAt_withCell.
    case_bool_decide as Hd; [lia|]. apply Hnull. lia.
  - intros r Hr. rewrite cellAt_withCell.
    case_bool_decide as Hd; [done|].
    apply Hfull. destruct (decide (r = 5 - Z.of_nat j)) as [->|]; [|lia].
    exfalso. apply Hd. split; [done|]. split; [done|].
    rewrite Hnull; [by eexists|lia].
  - rewrite Hb'. exists b'. do 2 f_equal.
    rewrite Nat.add_0_r. f_equal.
    rewrite <-fmap_S_seq, <-list_fmap_compose.
    apply list_fmap_ext. intros _ i _. cbn. f_equal. lia.
Qed.

(** Moves into an empty column stack from row 5 upward. *)
Lemma applyMoves_stack b c ts :
  0 ≤ c < 7 → (length ts ≤ 6)%nat → emptyColumn b c →
  ∃ b', applyMoves b c ts = Some (b', stackedRows (length ts)).
Proof.
  intros Hc Hlen Hempty.
  destruct (applyMoves_from_level c ts b 0) as [b' Hb']; [done|lia| | |].
  - intros r ?. apply Hempty. lia.
  - intros r ?. lia.
  - by exists b'.
Qed.
End Stacking.

Section TurnManagerFacts.
Import GameEngine MajorityTurnDecider TurnManager.
Context {C : Type} `{IClock C}.
Implicit Types (tm : TurnManager.t C) (g : GameState) (players : list Player).

Lemma validColumns_spec (b : Board) c :
  c ∈ validColumns b ↔ isValidMove b c = true.
Proof.
  unfold validColumns. rewrite list_elem_of_filter, elem_of_seqZ.
  split; [by intros [? _]|]. intros Hv. split; [done|].
  apply isValidMove_true in Hv. lia.
Qed.

Lemma validColumns_nil (b : Board) :
  validColumns b = [] ↔ noPlayableColumn b.
Proof.
  split.
  - intros Hnil c Hc Htop.
    assert (c ∈ validColumns b) as Hin.
    { apply validColumns_spec, isValidMove_true. done. }
    rewrite Hnil in Hin. by apply elem_of_nil in Hin.
  - intros Hno. destruct (validColumns b) as [|c l] eqn:Hl; [done|].
    assert (c ∈ validColumns b) as Hin by (rewrite Hl; left).
    apply validColumns_spec, isValidMove_true in Hin as [? ?].
    by destruct (Hno c).
Qed.

(** The decided column is playable whenever a playable column exists. *)
Lemma chosenBy_valid u g :
  unitInterval u → validColumns (board g) ≠ [] →
  chosenBy u g ∈ validColumns (board g).
Proof. intros. by apply decideColumn_elem_of. Qed.

(** [finishVoting] when no column is playable. *)
Lemma finishVoting_no_column u tm g players :
  validColumns (board g) = [] →
  finishVoting u tm g players
  = (cancelTimeout tm,
     mkGameState (board g) (currentTeam g) (round g) (votes g)
                 (perColumnCounts g) None (lastMove g)
                 (Some (mkResult None (Some true) None)),
     players,
     mkTurnResult false true None None).
Proof. intros Hnil. unfold finishVoting. cbn. by rewrite Hnil. Qed.

(** [finishVoting] when the move application returns. *)
Lemma finishVoting_applied u tm g players b' r :
  validColumns (board g) ≠ [] →
  applyMove (board g) (chosenBy u g) (currentTeam g) = inr (b', r) →
  let move := mkLastMove (chosenBy u g) r (currentTeam g) in
  let w := checkWin b' move in
  let players' := creditPlayer g (chosenBy u g) <$> players in
  let after team' round' result' :=
    mkGameState b' team' round' ∅ (tallyOf g) None (Some move) result' in
  finishVoting u tm g players
  = match win_winner w with
    | Some t =>
        (cancelTimeout tm,
         after (currentTeam g) (round g)
               (Some (mkResult (Some t) None (win_winningLine w))),
         players', mkTurnResult true true (Some (chosenBy u g)) None)
    | None =>
        if isBoardFull b'
        then (cancelTimeout tm,
              after (currentTeam g) (round g)
                    (Some (mkResult None (Some true) None)),
              players', mkTurnResult true true (Some (chosenBy u g)) None)
        else (cancelTimeout tm,
              after (nextTeam (currentTeam g)) (round g + 1) (result g),
              players', mkTurnResult true false (Some (chosenBy u g)) None)
    end.
Proof.
  intros Hne Happly. unfold finishVoting.
  cbn [board set_endsAt set_perColumnCounts set_votes currentTeam votes].
  destruct (validColumns (board g)) as [|c0 l] eqn:Hvalid; [done|].
  cbn [length Nat.eqb].
  unfold chosenBy in Happly. rewrite Hvalid in Happly. rewrite Happly.
  unfold chosenBy, tallyOf. rewrite Hvalid. cbn.
  destruct (win_winner _); [done|]. by destruct (isBoardFull b').
Qed.
End TurnManagerFacts.

Section Resolution.
Import GameEngine MajorityTurnDecider TurnManager.
Context {C : Type} `{IClock C}.
Implicit Types (tm : TurnManager.t C) (g : GameState) (players : list Player).

(** [finishVoting] never reads the deadline field: it deletes it
    first, whatever it holds. *)
Lemma finishVoting_ignores_endsAt u tm g players e :
  finishVoting u tm (set_endsAt g e) players = finishVoting u tm g players.
Proof. reflexivity. Qed.

(** C9: when finishVoting finds at least one playable column, the
    column chosen by decideColumn is one of the playable columns,
    applyMove on it returns instead of throwing, and the result of
    finishVoting is never the one built in the catch branch: it has
    moveApplied = true and no error. *)
Theorem finishVoting_move_never_fails u tm g players :
  unitInterval u → validColumns (board g) ≠ [] →
  chosenBy u g ∈ validColumns (board g)
  ∧ (∃ b' r, applyMove (board g) (chosenBy u g) (currentTeam g) = inr (b', r))
  ∧ moveApplied (finishVoting u tm g players).2 = true
  ∧ error (finishVoting u tm g players).2 = None.
Proof.
  intros Hu Hne.
  pose proof (chosenBy_valid u g Hu Hne) as Hin.
  split; [done|].
  apply validColumns_spec in Hin.
  destruct (applyMove_valid (board g) (chosenBy u g) (currentTeam g) Hin)
    as (r & _ & Happly).
  split; [by eauto|].
  rewrite (finishVoting_applied u tm g players _ r Hne Happly).
  cbv zeta. destruct (win_winner _); [done|].
  by destruct (isBoardFull _).
Qed.

(** C2: when the resolved move neither completes four in a row nor
    fills the board, finishVoting returns moveApplied = true and
    gameEnded = false with the chosen column, the active team's piece
    is on the lowest empty row of that column and no other cell
    changed, currentTeam is the other team, round grew by exactly 1,
    the votes map is empty and endsAt is absent. *)
Theorem finishVoting_continues u tm g players r :
  unitInterval u → validColumns (board g) ≠ [] →
  isLowestEmptyRow (board g) (chosenBy u g) r →
  let chosen := chosenBy u g in
  let b' := withCell (board g) r chosen (currentTeam g) in
  let move := mkLastMove chosen r (currentTeam g) in
  win_winner (checkWin b' move) = None →
  isBoardFull b' = false →
  finishVoting u tm g players
  = (cancelTimeout tm,
     mkGameState b' (nextTeam (currentTeam g)) (round g + 1) ∅ (tallyOf g)
                 None (Some move) (result g),
     creditPlayer g chosen <$> players,
     mkTurnResult true false (Some chosen) None)
  ∧ cellAt b' r chosen = Some (Some (currentTeam g))
  ∧ (∀ r' c', (r', c') ≠ (r, chosen) → cellAt b' r' c' = cellAt (board g) r' c')
  ∧ nextTeam (currentTeam g) ≠ currentTeam g.
Proof.
  intros Hu Hne Hlow chosen b' move Hnowin Hnotfull.
  assert (Hin : isValidMove (board g) chosen = true)
    by (apply validColumns_spec; by apply chosenBy_valid).
  destruct (applyMove_valid (board g) chosen (currentTeam g) Hin)
    as (r0 & Hlow0 & Happly).
  assert (r0 = r) as -> by (by eapply isLowestEmptyRow_unique).
  split; [|split; [|split]].
  - rewrite (finishVoting_applied u tm g players _ r Hne Happly).
    cbv zeta. fold chosen b' move. by rewrite Hnowin, Hnotfull.
  - subst b'. rewrite cellAt_withCell. case_bool_decide as Hd; [done|].
    exfalso. apply Hd. destruct Hlow as (_ & Hnull & _).
    split; [done|]. split; [done|]. unfold chosen. rewrite Hnull. by eexists.
  - intros r' c' Hne'. subst b'. rewrite cellAt_withCell.
    case_bool_decide as Hd; [|done]. destruct Hd as (-> & -> & _). done.
  - by destruct (currentTeam g).
Qed.

(** C7: with zero playable columns finishVoting sets the result to a
    draw and returns gameEnded = true with moveApplied = false; the
    votes still in the map are not tallied (the stored counts and the
    map itself are untouched), the board is unchanged and no player is
    credited. *)
Theorem finishVoting_draw_without_columns u tm g players :
  noPlayableColumn (board g) →
  finishVoting u tm g players
  = (cancelTimeout tm,
     mkGameState (board g) (currentTeam g) (round g) (votes g)
                 (perColumnCounts g) None (lastMove g)
                 (Some (mkResult None (Some true) None)),
     players,
     mkTurnResult false true None None).
Proof. intros Hno. by apply finishVoting_no_column, validColumns_nil. Qed.

(** Every return path of [finishVoting] has deleted the deadline and
    cancelled the pending timer. *)
Lemma finishVoting_closes u tm g players :
  (finishVoting u tm g players).1.1.1 = cancelTimeout tm
  ∧ endsAt (finishVoting u tm g players).1.1.2 = None.
Proof.
  unfold finishVoting. cbn [board set_endsAt].
  destruct (length (validColumns (board g)) =? 0)%nat; [done|].
  destruct (applyMove _ _ _) as [?|[? ?]]; [done|].
  destruct (win_winner _); [done|]. by destruct (isBoardFull _).
Qed.

(** C1 (amended): finishVoting has no guard of its own against a
    second call; resolving a window at most once is left to its
    caller. It deletes the deadline field and cancels the pending
    deadline timer, and its outcome does not depend on what the
    deadline field held: called on a state whose window was already
    resolved (deadline absent) and that has a playable column, it
    applies a further move to the board and reports no error; when
    it reports that the game continues, the turn has passed to the
    other team and the round has grown by one once more, and when it
    reports that the game ended, team and round are as they were. *)
Theorem finishVoting_unguarded u tm g players :
  (∀ e, finishVoting u tm (set_endsAt g e) players
        = finishVoting u tm g players)
  ∧ (finishVoting u tm g players).1.1.1 = cancelTimeout tm
  ∧ endsAt (finishVoting u tm g players).1.1.2 = None
  ∧ (unitInterval u → validColumns (board g) ≠ [] →
     moveApplied (finishVoting u tm g players).2 = true
     ∧ error (finishVoting u tm g players).2 = None
     ∧ board (finishVoting u tm g players).1.1.2 ≠ board g
     ∧ (gameEnded (finishVoting u tm g players).2 = false →
        currentTeam (finishVoting u tm g players).1.1.2
        = nextTeam (currentTeam g)
        ∧ currentTeam (finishVoting u tm g players).1.1.2 ≠ currentTeam g
        ∧ round (finishVoting u tm g players).1.1.2 = round g + 1)
     ∧ (gameEnded (finishVoting u tm g players).2 = true →
        currentTeam (finishVoting u tm g players).1.1.2 = currentTeam g
        ∧ round (finishVoting u tm g players).1.1.2 = round g)).
Proof.
  split; [by intros e|].
  split; [apply finishVoting_closes|]. split; [apply finishVoting_closes|].
  intros Hu Hne.
  assert (Hin : isValidMove (board g) (chosenBy u g) = true)
    by (apply validColumns_spec; by apply chosenBy_valid).
  destruct (applyMove_valid (board g) (chosenBy u g) (currentTeam g) Hin)
    as (r & (_ & Hnull & _) & Happly).
  rewrite (finishVoting_applied u tm g players _ r Hne Happly).
  cbv zeta.
  assert (Hboard : withCell (board g) r (chosenBy u g) (currentTeam g)
                   ≠ board g).
  { intros Heq.
    assert (cellAt (withCell (board g) r (chosenBy u g) (currentTeam g))
                   r (chosenBy u g) = Some (Some (currentTeam g))) as Hcell.
    { rewrite cellAt_withCell. case_bool_decide as Hd; [done|].
      exfalso. apply Hd. split; [done|]. split; [done|].
      rewrite Hnull. by eexists. }
    rewrite Heq, Hnull in Hcell. discriminate. }
  assert (Hturn : nextTeam (currentTeam g) ≠ currentTeam g)
    by (by destruct (currentTeam g)).
  destruct (win_winner _); [done|]. by destruct (isBoardFull _).
Qed.

(** Whenever a column is playable, [finishVoting] returns with the
    votes map empty. *)
Lemma finishVoting_clears_votes u tm g players :
  unitInterval u → validColumns (board g) ≠ [] →
  votes (finishVoting u tm g players).1.1.2 = ∅.
Proof.
  intros Hu Hne.
  assert (Hin : isValidMove (board g) (chosenBy u g) = true)
    by (apply validColumns_spec; by apply chosenBy_valid).
  destruct (applyMove_valid (board g) (chosenBy u g) (currentTeam g) Hin)
    as (r & _ & Happly).
  rewrite (finishVoting_applied u tm g players _ r Hne Happly).
  cbv zeta. destruct (win_winner _); [done|].
  by destruct (isBoardFull _).
Qed.
End Resolution.

Section ResolutionRuns.
Import GameEngine MajorityTurnDecider TurnManager Sample.

Lemma half_unit : unitInterval half.
Proof. split; [discriminate|reflexivity]. Qed.

Lemma finishVoting_move_never_fails_witness :
  chosenBy half voted ∈ validColumns (board voted)
  ∧ (∃ b' r, applyMove (board voted) (chosenBy half voted)
                       (currentTeam voted) = inr (b', r))
  ∧ moveApplied (finishVoting half opened.1 voted roster).2 = true
  ∧ error (finishVoting half opened.1 voted roster).2 = None.
Proof.
  apply (finishVoting_move_never_fails half opened.1 voted roster).
  - exact half_unit.
  - vm_compute. discriminate.
Defined.

Lemma finishVoting_continues_witness :
  finishVoting half opened.1 voted roster
  = (cancelTimeout opened.1,
     mkGameState (withCell newBoard 5 3 red) yellow 2 ∅ [0; 0; 0; 2; 0; 0; 0]
                 None (Some (mkLastMove 3 5 red)) None,
     [ mkPlayer "p1" "Player1" red false 1 true;
       mkPlayer "p2" "Player2" red false 1 true;
       mkPlayer "p3" "Player3" yellow false 0 true;
       mkPlayer "p4" "Player4" yellow false 0 true ],
     mkTurnResult true false (Some 3) None)
  ∧ cellAt (withCell newBoard 5 3 red) 5 3 = Some (Some red).
Proof.
  assert (Hlow : isLowestEmptyRow (board voted) (chosenBy half voted) 5).
  { split; [lia|]. split; [reflexivity|]. intros r' ?. lia. }
  destruct (finishVoting_continues half opened.1 voted roster 5)
    as (Heq & Hcell & _).
  - exact half_unit.
  - vm_compute. discriminate.
  - exact Hlow.
  - vm_compute. reflexivity.
  - vm_compute. reflexivity.
  - split; [|exact Hcell]. rewrite Heq. vm_compute. reflexivity.
Defined.

Lemma finishVoting_draw_without_columns_witness :
  finishVoting half opened.1 staleOnFullBoard roster
  = (cancelTimeout opened.1,
     mkGameState fullBoard red 43 (<["p1" := 3]> ∅) [0; 0; 0; 0; 0; 0; 0]
                 None (Some (mkLastMove 6 0 yellow))
                 (Some (mkResult None (Some true) None)),
     roster,
     mkTurnResult false true None None).
Proof.
  apply (finishVoting_draw_without_columns half opened.1 staleOnFullBoard roster).
  intros c Hc. each_column c; discriminate.
Defined.
End ResolutionRuns.

Section DoubleResolution.
Import GameEngine MajorityTurnDecider TurnManager Sample.

(** C1, as stated, fails on the state a first call returned (endsAt
    already deleted, votes empty): a second call is neither a no-op
    nor an error; it drops a further piece, advances the round from 2
    to 3 and hands the turn back to red. *)
Lemma finishVoting_second_call_resolves_again :
  let '(tm1, g1, players1, res1) := finishVoting half opened.1 voted roster in
  let '(tm2, g2, players2, res2) := finishVoting half tm1 g1 players1 in
  endsAt voted = Some 15000
  ∧ endsAt g1 = None ∧ votes g1 = ∅ ∧ round g1 = 2 ∧ currentTeam g1 = yellow
  ∧ res2 = mkTurnResult true false (Some 3) None
  ∧ board g2 = withCell (withCell newBoard 5 3 red) 4 3 yellow
  ∧ board g2 ≠ board g1
  ∧ round g2 = 3 ∧ currentTeam g2 = red.
Proof. vm_compute. repeat split; discriminate. Qed.

Lemma finishVoting_unguarded_witness :
  let g1 := (finishVoting half opened.1 voted roster).1.1.2 in
  let out := finishVoting half opened.1 g1 roster in
  endsAt g1 = None
  ∧ moveApplied out.2 = true ∧ error out.2 = None
  ∧ board out.1.1.2 ≠ board g1
  ∧ currentTeam out.1.1.2 = nextTeam (currentTeam g1)
  ∧ currentTeam out.1.1.2 ≠ currentTeam g1
  ∧ round out.1.1.2 = round g1 + 1.
Proof.
  cbv zeta. split; [reflexivity|].
  destruct (finishVoting_unguarded half opened.1
              (finishVoting half opened.1 voted roster).1.1.2 roster)
    as (_ & _ & _ & Hagain).
  destruct Hagain as (Hmove & Herr & Hboard & Hgoes & _).
  - exact half_unit.
  - vm_compute. discriminate.
  - split; [exact Hmove|]. split; [exact Herr|]. split; [exact Hboard|].
    apply Hgoes. reflexivity.
Defined.

(** The statement that clears the votes is not on the
    zero-playable-columns path: on a state built by hand with a full
    board and a vote in the map, the vote is still in the map after
    the call. *)
Lemma finishVoting_full_board_keeps_votes :
  noPlayableColumn (board staleOnFullBoard)
  ∧ votes staleOnFullBoard = <["p1" := 3]> ∅
  ∧ votes (finishVoting half opened.1 staleOnFullBoard roster).1.1.2
    = <["p1" := 3]> ∅
  ∧ votes (finishVoting half opened.1 staleOnFullBoard roster).1.1.2 ≠ ∅.
Proof.
  split.
  { intros c Hc. each_column c; discriminate. }
  split; [reflexivity|].
  split; [vm_compute; reflexivity|].
  vm_compute. discriminate.
Qed.
End DoubleResolution.

Section CastVote.
Import GameEngine TurnManager.
Context {C : Type} `{IClock C}.
Implicit Types (tm : TurnManager.t C) (g : GameState) (players : list Player).

Lemma findPlayer_None players playerId :
  findPlayer players playerId = None
  ↔ ∀ p, p ∈ players → id p ≠ playerId.
Proof.
  unfold findPlayer.
  destruct (list_find _ players) as [[i p]|] eqn:Hfind; cbn.
  - split; [done|]. intros Hall.
    apply list_find_Some in Hfind as (Hi & Hp & _).
    exfalso. eapply Hall; [|done]. by eapply list_elem_of_lookup_2.
  - split; [|done]. intros _ p Hp.
    apply list_find_None in Hfind.
    by eapply Forall_forall in Hfind.
Qed.

Lemma findPlayer_Some players playerId p :
  findPlayer players playerId = Some p → p ∈ players ∧ id p = playerId.
Proof.
  unfold findPlayer.
  destruct (list_find _ players) as [[i q]|] eqn:Hfind; cbn; [|done].
  intros [= ->]. apply list_find_Some in Hfind as (Hi & Hp & _).
  split; [by eapply list_elem_of_lookup_2|done].
Qed.

Lemma truthy_false x : truthy x = false ↔ x = None ∨ x = Some 0.
Proof.
  destruct x as [n|]; cbn.
  - rewrite negb_false_iff, Z.eqb_eq. split; [intros ->; by right|].
    by intros [|[= ->]].
  - split; [by left|done].
Qed.

Lemma truthy_true x : truthy x = true ↔ ∃ n, x = Some n ∧ n ≠ 0.
Proof.
  destruct x as [n|]; cbn.
  - rewrite negb_true_iff, Z.eqb_neq. split; [by eauto|].
    by intros (? & [= <-] & ?).
  - split; [done|]. by intros (? & ? & _).
Qed.
End CastVote.

Section CastVoteOutcomes.
Import GameEngine TurnManager.
Context {C : Type} `{IClock C}.
Implicit Types (tm : TurnManager.t C) (g : GameState) (players : list Player).

Lemma windowOpen_truthy g : windowOpen g ↔ truthy (endsAt g) = true.
Proof. unfold windowOpen. by rewrite truthy_true. Qed.

Lemma castVote_cases tm g players playerId column :
  (∃ e, castVote tm g players playerId column = rejected e g)
  ∨ castVote tm g players playerId column = accepted g playerId column.
Proof.
  unfold castVote, rejected, accepted.
  destruct (truthy (endsAt g)); cbn; [|by left; eexists].
  destruct (findPlayer players playerId); [|by left; eexists].
  repeat case_match; (by left; eexists) || by right.
Qed.

(** A vote that passes every check is recorded. *)
Lemma castVote_accepts tm g players playerId column player :
  windowOpen g → findPlayer players playerId = Some player →
  team player = currentTeam g → isValidMove (board g) column = true →
  castVote tm g players playerId column = accepted g playerId column.
Proof.
  intros Hopen%windowOpen_truthy Hfind Hteam Hvalid.
  unfold castVote, accepted. rewrite Hopen, Hfind, Hvalid. cbn.
  rewrite bool_decide_eq_false_2 by (by intros ?).
  apply isValidMove_true in Hvalid as [? _].
  by destruct (Z.ltb_spec column 0), (Z.geb_spec column 7); try lia.
Qed.

(** C6: castVote fails with WindowClosed when no deadline is set; with
    a window open, it fails with PlayerNotFound when the id is not in
    the roster, WrongTeam when the found player's team is not the
    active team, InvalidColumn when the column is outside [0,7) and
    ColumnFull when the top cell of the column is not empty (occupied,
    in particular), each check being reached when the ones before it
    pass. Every failure returns the game state unchanged; success
    returns the state with only the vote map changed, the player's
    entry set to the column over any earlier one. *)
Theorem castVote_outcomes tm g players playerId column :
  let out := castVote tm g players playerId column in
  (endsAt g = None → out = rejected WindowClosed g)
  ∧ (windowOpen g → (∀ p, p ∈ players → id p ≠ playerId) →
     out = rejected PlayerNotFound g)
  ∧ (∀ player, windowOpen g → findPlayer players playerId = Some player →
     team player ≠ currentTeam g → out = rejected WrongTeam g)
  ∧ (∀ player, windowOpen g → findPlayer players playerId = Some player →
     team player = currentTeam g → column < 0 ∨ 7 ≤ column →
     out = rejected InvalidColumn g)
  ∧ (∀ player, windowOpen g → findPlayer players playerId = Some player →
     team player = currentTeam g → 0 ≤ column < 7 →
     cellAt (board g) 0 column ≠ Some None →
     out = rejected ColumnFull g)
  ∧ (∀ player, windowOpen g → findPlayer players playerId = Some player →
     team player = currentTeam g → 0 ≤ column < 7 →
     cellAt (board g) 0 column = Some None →
     out = accepted g playerId column)
  ∧ (success out.1 = false → out.2 = g)
  ∧ (success out.1 = true →
     out = accepted g playerId column
     ∧ votes out.2 !! playerId = Some column
     ∧ ∀ other, other ≠ playerId → votes out.2 !! other = votes g !! other).
Proof.
  pose proof (castVote_cases tm g players playerId column) as Hcases.
  cbv zeta. unfold castVote, rejected, accepted in *.
  split; [|split; [|split; [|split; [|split; [|split; [|split]]]]]].
  - by intros ->.
  - intros Hopen%windowOpen_truthy Habsent%findPlayer_None.
    by rewrite Hopen, Habsent.
  - intros player Hopen%windowOpen_truthy -> Hteam.
    rewrite Hopen. cbn. by rewrite bool_decide_eq_true_2.
  - intros player Hopen%windowOpen_truthy -> Hteam Hcol.
    rewrite Hopen. cbn. rewrite bool_decide_eq_false_2 by (by intros ?).
    destruct (Z.ltb_spec column 0), (Z.geb_spec column 7); (done || lia).
  - intros player Hopen%windowOpen_truthy -> Hteam Hcol Htop.
    rewrite Hopen. cbn. rewrite bool_decide_eq_false_2 by (by intros ?).
    destruct (Z.ltb_spec column 0), (Z.geb_spec column 7); try lia. cbn.
    assert (isValidMove (board g) column = false) as ->; [|done].
    apply isValidMove_false. by right; right.
  - intros player Hopen Hfind Hteam Hcol Htop.
    apply (castVote_accepts tm g players playerId column player); try done.
    by apply isValidMove_true.
  - destruct Hcases as [[e ->]| ->]; [done|]. cbn. discriminate.
  - destruct Hcases as [[e ->]| ->]; cbn; [discriminate|]. intros _.
    split; [done|]. split; [apply lookup_insert_eq|].
    intros other Hother. by apply lookup_insert_ne.
Qed.

(** C10: castVote returns the same outcome whatever the manager and
    its clock are. With a deadline field that holds a non-zero number,
    a vote of a known active-team player for a playable column is
    recorded, also when the clock is already past that deadline; the
    WindowClosed rejection occurs exactly when the field is absent or
    holds 0. *)
Theorem castVote_ignores_clock tm tm' g players playerId column :
  castVote tm g players playerId column
  = castVote tm' g players playerId column
  ∧ (∀ e player,
       endsAt g = Some e → e ≠ 0 →
       findPlayer players playerId = Some player →
       team player = currentTeam g →
       isValidMove (board g) column = true →
       castVote tm g players playerId column = accepted g playerId column)
  ∧ (vote_error (castVote tm g players playerId column).1 = Some WindowClosed
     ↔ endsAt g = None ∨ endsAt g = Some 0).
Proof.
  split; [reflexivity|]. split.
  - intros e player He Hnz Hfind Hteam Hvalid.
    apply (castVote_accepts tm g players playerId column player); try done.
    by exists e.
  - rewrite <-truthy_false. unfold castVote.
    destruct (truthy (endsAt g)); cbn; [|done].
    split; [|done].
    destruct (findPlayer players playerId); [|done].
    repeat (case_match; try done).
Qed.
End CastVoteOutcomes.

Section CastVoteRuns.
Import GameEngine TurnManager Sample.

Lemma castVote_outcomes_witness :
  castVote opened.1 voted roster "p1" 5 = accepted voted "p1" 5
  ∧ votes (castVote opened.1 voted roster "p1" 5).2 !! "p1" = Some 5
  ∧ castVote opened.1 voted roster "p3" 5 = rejected WrongTeam voted
  ∧ castVote opened.1 voted roster "p1" 7 = rejected InvalidColumn voted
  ∧ castVote opened.1 voted roster "p9" 5 = rejected PlayerNotFound voted.
Proof.
  assert (Hopen : windowOpen voted) by (by exists 15000).
  pose proof (castVote_outcomes opened.1 voted roster "p1" 5)
    as (_ & _ & _ & _ & _ & Hok & _ & Hsucc).
  pose proof (castVote_outcomes opened.1 voted roster "p3" 5)
    as (_ & _ & Hwrong & _).
  pose proof (castVote_outcomes opened.1 voted roster "p1" 7)
    as (_ & _ & _ & Hinvalid & _).
  pose proof (castVote_outcomes opened.1 voted roster "p9" 5)
    as (_ & Habsent & _).
  split; [|split; [|split; [|split]]].
  - by apply (Hok (mkPlayer "p1" "Player1" red false 0 true)).
  - apply Hsucc. reflexivity.
  - by apply (Hwrong (mkPlayer "p3" "Player3" yellow false 0 true)).
  - apply (Hinvalid (mkPlayer "p1" "Player1" red false 0 true)); try done.
    right. lia.
  - apply Habsent; [exact Hopen|]. intros p Hp. unfold roster in Hp.
    repeat (apply elem_of_cons in Hp as [->|Hp]; [discriminate|]).
    by apply elem_of_nil in Hp.
Defined.

(** C10, as stated, fails when the deadline field is present and holds
    0: the vote of a known active-team player for a playable column is
    rejected with WindowClosed. *)
Lemma castVote_zero_deadline_rejected :
  endsAt openedAtZero.2 = Some 0
  ∧ findPlayer roster "p1" = Some (mkPlayer "p1" "Player1" red false 0 true)
  ∧ currentTeam openedAtZero.2 = red
  ∧ isValidMove (board openedAtZero.2) 3 = true
  ∧ castVote openedAtZero.1 openedAtZero.2 roster "p1" 3
    = rejected WindowClosed openedAtZero.2.
Proof. repeat split. Qed.

Lemma castVote_ignores_clock_witness :
  now (clock lateManager) = 20000
  ∧ endsAt opened.2 = Some 15000
  ∧ castVote lateManager opened.2 roster "p1" 3 = accepted opened.2 "p1" 3.
Proof.
  split; [reflexivity|]. split; [reflexivity|].
  eapply (castVote_ignores_clock lateManager opened.1 opened.2 roster "p1" 3).
  - reflexivity.
  - discriminate.
  - reflexivity.
  - reflexivity.
  - reflexivity.
Defined.
End CastVoteRuns.

Section VoteLifetime.
Import GameEngine MajorityTurnDecider TurnManager.






End VoteLifetime.

Section VoteLifetimeRuns.
Import GameEngine TurnManager Sample.



End VoteLifetimeRuns.

Section Majority.
Import MajorityTurnDecider.

(** C3: for a non-empty list of valid columns decideColumn returns a
    member of it, for every count array (of 7 entries in particular).
    When the counts total zero, or no valid column has a positive
    count, the result is the random draw over the whole list. For
    non-negative counts the result always attains the maximum count
    among the valid columns, so it is a member of the tied set only,
    and when a single valid column attains that maximum the result is
    that column whatever the random number is. *)
Theorem decideColumn_majority u counts validCols :
  unitInterval u → validCols ≠ [] →
  decideColumn u counts validCols ∈ validCols
  ∧ (foldl Z.add 0 counts = 0 ∨ (∀ v, v ∈ validCols → votesFor counts v ≤ 0) →
     decideColumn u counts validCols = pickRandomColumn u validCols)
  ∧ (Forall (λ x, 0 ≤ x) counts →
     attainsMax counts validCols (decideColumn u counts validCols)
     ∧ ∀ c, (∀ v, attainsMax counts validCols v → v = c) →
            decideColumn u counts validCols = c).
Proof.
  intros Hu Hne. split; [by apply decideColumn_elem_of|]. split.
  - intros Hzero. unfold decideColumn.
    destruct (Z.eqb_spec (foldl Z.add 0 counts) 0) as [|Hsum]; [done|].
    destruct Hzero as [?|Hnopos]; [done|].
    destruct (maxVotesFrom_spec validCols counts 0 0) as (Hm0 & _ & Hwit).
    assert (maxVotesFrom validCols 0 counts 0 = 0) as ->; [|done].
    destruct Hwit as [?|(k & Hk & Hin)]; [done|].
    rewrite Z.add_0_l in Hin. specialize (Hnopos _ Hin).
    rewrite (votesFor_lookup _ _ _ Hk) in Hnopos. lia.
  - intros Hpos.
    pose proof (decideColumn_attainsMax validCols u counts Hu Hne Hpos) as Hmax.
    split; [done|]. intros c Huniq. by apply Huniq.
Qed.

Lemma decideColumn_majority_witness :
  decideColumn Sample.half [1; 3; 0; 2; 1; 0; 0] (seqZ 0 7) = 1
  ∧ decideColumn Sample.half [2; 1; 2; 1; 0; 2; 0] (seqZ 0 7) ∈ seqZ 0 7
  ∧ attainsMax [2; 1; 2; 1; 0; 2; 0] (seqZ 0 7)
               (decideColumn Sample.half [2; 1; 2; 1; 0; 2; 0] (seqZ 0 7)).
Proof.
  assert (Hne : seqZ 0 7 ≠ []) by discriminate.
  pose proof (decideColumn_majority Sample.half [1; 3; 0; 2; 1; 0; 0]
                (seqZ 0 7) half_unit Hne) as (_ & _ & Hone).
  pose proof (decideColumn_majority Sample.half [2; 1; 2; 1; 0; 2; 0]
                (seqZ 0 7) half_unit Hne) as (Hin & _ & Htie).
  split; [|split; [exact Hin|]].
  - apply Hone; [repeat constructor; lia|].
    intros v [Hv Hmax].
    assert (1 ∈ seqZ 0 7) as H1 by (apply elem_of_seqZ; lia).
    specialize (Hmax 1 H1). apply elem_of_seqZ in Hv.
    each_column v;
      vm_compute in Hmax; (reflexivity || (exfalso; by apply Hmax)).
  - apply Htie. repeat constructor; lia.
Defined.
End Majority.

Section WinDetection.
Import GameEngine.
Variables (b : Board) (t : Team).

Lemma onTeam_holds c r : onTeam b t c r = true ↔ holds b t c r.
Proof.
  unfold onTeam, holds.
  rewrite !andb_true_iff, bool_decide_eq_true.
  rewrite !Z.leb_le, !Z.ltb_lt. tauto.
Qed.

Lemma onTeam_false c r : onTeam b t c r = false ↔ ¬ holds b t c r.
Proof. by rewrite <-onTeam_holds, not_true_iff_false. Qed.

Lemma holds_at c r c' r' :
  c = c' → r = r' → holds b t c r → holds b t c' r'.
Proof. by intros -> ->. Qed.

Lemma onTeam_at c r c' r' :
  c = c' → r = r' → onTeam b t c r = onTeam b t c' r'.
Proof. by intros -> ->. Qed.

(** What the first loop has done when it stops: [a] cells of the team
    were passed, and unless the fuel ran out the loop stopped on a
    cell that fails the condition. *)
Lemma walkBack_inv dc dr : ∀ (fuel : nat) c r,
  ∃ a : nat, (a ≤ fuel)%nat
    ∧ walkBack fuel b t dc dr c r = (c - Z.of_nat a * dc, r - Z.of_nat a * dr)
    ∧ (∀ i : nat, (i < a)%nat →
         onTeam b t (c - Z.of_nat i * dc) (r - Z.of_nat i * dr) = true)
    ∧ ((a < fuel)%nat →
         onTeam b t (c - Z.of_nat a * dc) (r - Z.of_nat a * dr) = false).
Proof.
  induction fuel as [|fuel IH]; intros c r; cbn.
  - exists 0%nat. split; [lia|]. split; [f_equal; lia|].
    split; intros; lia.
  - destruct (onTeam b t c r) eqn:Hc.
    + destruct (IH (c - dc) (r - dr)) as (a & Ha & Heq & Hall & Hstop).
      exists (S a). split; [lia|]. split; [rewrite Heq; f_equal; lia|].
      split.
      * intros [|i] Hi.
        -- rewrite <-Hc. apply onTeam_at; lia.
        -- rewrite <-(Hall i) by lia. apply onTeam_at; lia.
      * intros Hlt. rewrite <-Hstop by lia. apply onTeam_at; lia.
    + exists 0%nat. split; [lia|]. split; [f_equal; lia|].
      split; [intros; lia|]. intros _. rewrite <-Hc. apply onTeam_at; lia.
Qed.

Lemma length_cellsFrom sc sr dc dr n : length (cellsFrom sc sr dc dr n) = n.
Proof. unfold cellsFrom. by rewrite length_fmap, length_seq. Qed.

Lemma cellsFrom_S sc sr dc dr n :
  cellsFrom sc sr dc dr (S n)
  = mkCell sc sr :: cellsFrom (sc + dc) (sr + dr) dc dr n.
Proof.
  unfold cellsFrom. cbn. f_equal; [f_equal; lia|].
  rewrite <-fmap_S_seq, <-list_fmap_compose.
  apply list_fmap_ext. intros _ i _. cbn. f_equal; lia.
Qed.

Lemma take_cellsFrom sc sr dc dr k n :
  (k ≤ n)%nat → take k (cellsFrom sc sr dc dr n) = cellsFrom sc sr dc dr k.
Proof.
  intros Hk. unfold cellsFrom. rewrite <-fmap_take, take_seq.
  by rewrite Nat.min_l.
Qed.

Lemma walkForward_inv dc dr : ∀ (fuel : nat) c r,
  ∃ n : nat, (n ≤ fuel)%nat
    ∧ walkForward fuel b t dc dr c r = cellsFrom c r dc dr n
    ∧ (∀ i : nat, (i < n)%nat →
         onTeam b t (c + Z.of_nat i * dc) (r + Z.of_nat i * dr) = true)
    ∧ ((n < fuel)%nat →
         onTeam b t (c + Z.of_nat n * dc) (r + Z.of_nat n * dr) = false).
Proof.
  induction fuel as [|fuel IH]; intros c r; cbn.
  - exists 0%nat. split; [lia|]. split; [done|]. split; intros; lia.
  - destruct (onTeam b t c r) eqn:Hc.
    + destruct (IH (c + dc) (r + dr)) as (n & Hn & Heq & Hall & Hstop).
      exists (S n). split; [lia|]. split; [by rewrite Heq, cellsFrom_S|].
      split.
      * intros [|i] Hi.
        -- rewrite <-Hc. apply onTeam_at; lia.
        -- rewrite <-(Hall i) by lia. apply onTeam_at; lia.
      * intros Hlt. rewrite <-Hstop by lia. apply onTeam_at; lia.
    + exists 0%nat. split; [lia|]. split; [done|].
      split; [intros; lia|]. intros _. rewrite <-Hc. apply onTeam_at; lia.
Qed.

Lemma directions_unitStep dc dr :
  (dc, dr) ∈ directions → unitStep dc dr ∧ unitStep (- dc) (- dr).
Proof.
  unfold directions, unitStep. intros Hd.
  repeat (apply elem_of_cons in Hd as [[= -> ->]|Hd]; [lia|]).
  by apply elem_of_nil in Hd.
Qed.

Lemma steps_bounded dc dr c r (n : nat) :
  unitStep dc dr → holds b t c r →
  holds b t (c + Z.of_nat n * dc) (r + Z.of_nat n * dr) → (n ≤ 6)%nat.
Proof. unfold unitStep, holds. intros Hd (? & ? & _) (? & ? & _). nia. Qed.

(** Both loops leave by their condition within the fuel: the count of
    cells passed is below [lineFuel]. *)
Lemma passed_below_fuel dc dr c r (a : nat) :
  unitStep dc dr →
  (∀ i : nat, (i < a)%nat →
     onTeam b t (c + Z.of_nat i * dc) (r + Z.of_nat i * dr) = true) →
  (a < lineFuel)%nat.
Proof.
  intros Hd Hall. unfold lineFuel.
  destruct a as [|a]; [lia|].
  pose proof (Hall 0%nat ltac:(lia)) as H0%onTeam_holds.
  pose proof (Hall a ltac:(lia)) as Ha%onTeam_holds.
  assert (a ≤ 6)%nat; [|lia].
  eapply (steps_bounded dc dr c r); [done| |exact Ha].
  eapply holds_at; [| |exact H0]; lia.
Qed.

(** More fuel than [lineFuel] changes nothing. *)
Lemma walkBack_fuel_enough dc dr c r (fuel : nat) :
  unitStep (- dc) (- dr) → (lineFuel ≤ fuel)%nat →
  walkBack fuel b t dc dr c r = walkBack lineFuel b t dc dr c r.
Proof.
  intros Hd Hfuel.
  destruct (walkBack_inv dc dr fuel c r) as (a & _ & -> & Ha & Hastop).
  destruct (walkBack_inv dc dr lineFuel c r) as (a' & _ & -> & Ha' & Ha'stop).
  assert (Hlt : ∀ x : nat,
    (∀ i : nat, (i < x)%nat →
       onTeam b t (c - Z.of_nat i * dc) (r - Z.of_nat i * dr) = true) →
    (x < lineFuel)%nat).
  { intros x Hx. apply (passed_below_fuel (- dc) (- dr) c r); [done|].
    intros i Hi. rewrite <-(Hx i Hi). apply onTeam_at; lia. }
  pose proof (Hlt a Ha). pose proof (Hlt a' Ha').
  specialize (Hastop ltac:(lia)). specialize (Ha'stop ltac:(lia)).
  assert (a = a') as ->; [|done].
  destruct (Nat.lt_trichotomy a a') as [Hc|[?|Hc]]; [|done|].
  - rewrite (Ha' a Hc) in Hastop. discriminate.
  - rewrite (Ha a' Hc) in Ha'stop. discriminate.
Qed.

Lemma walkForward_fuel_enough dc dr c r (fuel : nat) :
  unitStep dc dr → (lineFuel ≤ fuel)%nat →
  walkForward fuel b t dc dr c r = walkForward lineFuel b t dc dr c r.
Proof.
  intros Hd Hfuel.
  destruct (walkForward_inv dc dr fuel c r) as (a & _ & -> & Ha & Hastop).
  destruct (walkForward_inv dc dr lineFuel c r) as (a' & _ & -> & Ha' & Ha'stop).
  pose proof (passed_below_fuel dc dr c r a Hd Ha).
  pose proof (passed_below_fuel dc dr c r a' Hd Ha').
  specialize (Hastop ltac:(lia)). specialize (Ha'stop ltac:(lia)).
  assert (a = a') as ->; [|done].
  destruct (Nat.lt_trichotomy a a') as [Hc|[?|Hc]]; [|done|].
  - rewrite (Ha' a Hc) in Hastop. discriminate.
  - rewrite (Ha a' Hc) in Ha'stop. discriminate.
Qed.

(** For the four directions of [checkWin], [checkDirection] is what
    the two loops compute with any larger amount of fuel. *)
Lemma checkDirection_fuel_enough dc dr c r (f1 f2 : nat) :
  (dc, dr) ∈ directions → (lineFuel ≤ f1)%nat → (lineFuel ≤ f2)%nat →
  (let '(c', r') := walkBack f1 b t dc dr c r in
   walkForward f2 b t dc dr (c' + dc) (r' + dr))
  = checkDirection b c r t dc dr.
Proof.
  intros [Hfwd Hbwd]%directions_unitStep H1 H2. unfold checkDirection.
  rewrite (walkBack_fuel_enough dc dr c r f1) by done.
  destruct (walkBack lineFuel b t dc dr c r) as [c' r'].
  by apply walkForward_fuel_enough.
Qed.

(** [checkDirection] returns the cells of the run through the start
    cell, from the end the first loop reached. *)
Lemma checkDirection_run dc dr c r :
  (dc, dr) ∈ directions → holds b t c r →
  ∃ sc sr n, runThrough b t dc dr c r sc sr n
             ∧ checkDirection b c r t dc dr = cellsFrom sc sr dc dr n.
Proof.
  intros [Hfwd Hbwd]%directions_unitStep Hcell. unfold checkDirection.
  destruct (walkBack_inv dc dr lineFuel c r) as (a & _ & -> & Ha & Hastop).
  assert (a < lineFuel)%nat as Halt.
  { apply (passed_below_fuel (- dc) (- dr) c r); [done|].
    intros i Hi. rewrite <-(Ha i Hi). apply onTeam_at; lia. }
  specialize (Hastop Halt).
  destruct a as [|a].
  { exfalso. apply onTeam_false in Hastop. apply Hastop.
    eapply holds_at; [| |exact Hcell]; lia. }
  set (sc := c - Z.of_nat a * dc). set (sr := r - Z.of_nat a * dr).
  replace (c - Z.of_nat (S a) * dc + dc) with sc by (subst sc; lia).
  replace (r - Z.of_nat (S a) * dr + dr) with sr by (subst sr; lia).
  destruct (walkForward_inv dc dr lineFuel sc sr) as (n & _ & -> & Hn & Hnstop).
  pose proof (passed_below_fuel dc dr sc sr n Hfwd Hn) as Hnlt.
  specialize (Hnstop Hnlt).
  exists sc, sr, n. split; [|done]. split.
  - split.
    + intros i Hi. by apply onTeam_holds, Hn.
    + apply onTeam_false. rewrite <-Hastop. apply onTeam_at; subst sc sr; lia.
    + by apply onTeam_false.
  - exists a. split; [|subst sc sr; lia].
    destruct (decide (a < n)%nat) as [|Hge]; [done|]. exfalso.
    pose proof (Ha (a - n)%nat ltac:(lia)) as Htrue.
    rewrite (onTeam_at _ _ (sc + Z.of_nat n * dc) (sr + Z.of_nat n * dr))
      in Htrue by (subst sc sr; rewrite Nat2Z.inj_sub by lia; lia).
    congruence.
Qed.

(** Along one direction a cell lies on one run only. *)
Lemma runThrough_unique dc dr c r sc sr n sc' sr' n' :
  runThrough b t dc dr c r sc sr n → runThrough b t dc dr c r sc' sr' n' →
  sc = sc' ∧ sr = sr' ∧ n = n'.
Proof.
  intros [[Hcells Hbefore Hafter] (k & Hk & Hc & Hr)]
         [[Hcells' Hbefore' Hafter'] (k' & Hk' & Hc' & Hr')].
  assert (k = k') as <-.
  { destruct (Nat.lt_trichotomy k k') as [Hlt|[?|Hlt]]; [|done|]; exfalso.
    - apply Hbefore. pose proof (Hcells' (k' - k - 1)%nat ltac:(lia)) as Hh.
      assert (Z.of_nat (k' - k - 1) = Z.of_nat k' - Z.of_nat k - 1) as Hsub
        by lia.
      rewrite Hsub in Hh. eapply holds_at; [| |exact Hh]; lia.
    - apply Hbefore'. pose proof (Hcells (k - k' - 1)%nat ltac:(lia)) as Hh.
      assert (Z.of_nat (k - k' - 1) = Z.of_nat k - Z.of_nat k' - 1) as Hsub
        by lia.
      rewrite Hsub in Hh. eapply holds_at; [| |exact Hh]; lia. }
  assert (sc = sc') as <- by lia. assert (sr = sr') as <- by lia.
  split; [done|]. split; [done|].
  destruct (Nat.lt_trichotomy n n') as [Hlt|[?|Hlt]]; [|done|]; exfalso.
  - apply Hafter. by apply Hcells'.
  - apply Hafter'. by apply Hcells.
Qed.
End WinDetection.

Section CheckWin.
Import GameEngine.

Lemma checkLines_spec (b : Board) (t : Team) c r ds :
  (∀ d, d ∈ ds → d ∈ directions) → holds b t c r →
  (checkLines b c r t ds = mkWinResult None None
   ∧ ∀ dc dr sc sr n, (dc, dr) ∈ ds →
       runThrough b t dc dr c r sc sr n → (n < 4)%nat)
  ∨ (∃ ds1 dc dr ds2 sc sr n,
       ds = ds1 ++ (dc, dr) :: ds2
       ∧ (∀ dc' dr' sc' sr' n', (dc', dr') ∈ ds1 →
            runThrough b t dc' dr' c r sc' sr' n' → (n' < 4)%nat)
       ∧ runThrough b t dc dr c r sc sr n ∧ (4 ≤ n)%nat
       ∧ checkLines b c r t ds
         = mkWinResult (Some t) (Some (cellsFrom sc sr dc dr 4))).
Proof.
  intros Hds Hcell. induction ds as [|[dc dr] rest IH].
  { left. split; [done|]. intros ? ? ? ? ? []%elem_of_nil. }
  destruct (checkDirection_run b t dc dr c r) as (sc & sr & n & Hrun & Hline);
    [apply Hds; left|done|].
  cbn [checkLines]. rewrite Hline, length_cellsFrom.
  destruct (Nat.leb_spec 4 n) as [Hn|Hn].
  - right. exists [], dc, dr, rest, sc, sr, n.
    split; [done|]. split; [intros ? ? ? ? ? []%elem_of_nil|].
    split; [done|]. split; [done|]. by rewrite take_cellsFrom.
  - assert (Hhead : ∀ sc' sr' n',
              runThrough b t dc dr c r sc' sr' n' → (n' < 4)%nat).
    { intros sc' sr' n' Hrun'.
      destruct (runThrough_unique b t dc dr c r sc sr n sc' sr' n')
        as (_ & _ & <-); done. }
    destruct IH as [[-> Hnone]|Hsome].
    + intros d Hd. apply Hds. by right.
    + left. split; [done|].
      intros dc' dr' sc' sr' n' [[= -> ->]|Hin]%elem_of_cons Hrun'.
      * by eapply Hhead.
      * by eapply Hnone.
    + destruct Hsome
        as (ds1 & dc1 & dr1 & ds2 & sc1 & sr1 & n1 & -> & Hbefore & Hrun1 & Hn1 & ->).
      right. exists ((dc, dr) :: ds1), dc1, dr1, ds2, sc1, sr1, n1.
      split; [done|]. split; [|done].
      intros dc' dr' sc' sr' n' [[= -> ->]|Hin]%elem_of_cons Hrun'.
      * by eapply Hhead.
      * by eapply Hbefore.
Qed.

(** The list that [checkWin] scans is the four axes, in scan order. *)
Lemma directions_axes : directions = axes.
Proof. reflexivity. Qed.

(** C4: for a board and its last-placed cell (col, row, team), checkWin
    reports the team as winner exactly when, along one of the four
    axes (horizontal, vertical, the diagonal down and the diagonal
    up), the run of consecutive same-team cells through that cell has
    4 or more cells; the winning line is then the first 4 coordinates
    of that run in scan order, for the first of the four axes, taken
    in the order just given, that has such a run. When no axis has
    one, checkWin reports no winner and no line. *)
Theorem checkWin_reports_runs (b : Board) (m : LastMove) :
  holds b (lastTeam m) (lastCol m) (lastRow m) →
  (checkWin b m = mkWinResult None None
   ∧ ∀ dc dr sc sr n, ¬ winningRun b m dc dr sc sr n)
  ∨ (∃ before dc dr after sc sr n,
       [horizontal; vertical; diagonalDown; diagonalUp]
       = before ++ (dc, dr) :: after
       ∧ (∀ dc' dr' sc' sr' n', (dc', dr') ∈ before →
            ¬ winningRun b m dc' dr' sc' sr' n')
       ∧ winningRun b m dc dr sc sr n
       ∧ checkWin b m
         = mkWinResult (Some (lastTeam m)) (Some (cellsFrom sc sr dc dr 4))).
Proof.
  intros Hcell. unfold checkWin, winningRun.
  fold axes. rewrite <-directions_axes.
  destruct (checkLines_spec b (lastTeam m) (lastCol m) (lastRow m) directions)
    as [[Hres Hnone]|Hsome]; [done|done| |].
  - left. split; [done|]. intros dc dr sc sr n (Hd & Hrun & Hn).
    specialize (Hnone dc dr sc sr n Hd Hrun). lia.
  - destruct Hsome
      as (ds1 & dc & dr & ds2 & sc & sr & n & Hsplit & Hbefore & Hrun & Hn & Hres).
    right. exists ds1, dc, dr, ds2, sc, sr, n.
    split; [done|]. split.
    + intros dc' dr' sc' sr' n' Hin (_ & Hrun' & Hn').
      specialize (Hbefore dc' dr' sc' sr' n' Hin Hrun'). lia.
    + split; [|done]. split; [|done].
      rewrite Hsplit. apply elem_of_app. right. left.
Qed.

Lemma checkWin_reports_runs_witness :
  (checkWin Sample.bottomRowWin (mkLastMove 3 5 red)
   = mkWinResult (Some red)
       (Some [mkCell 0 5; mkCell 1 5; mkCell 2 5; mkCell 3 5])
   ∧ ∃ sc sr n, winningRun Sample.bottomRowWin (mkLastMove 3 5 red)
                           1 0 sc sr n)
  ∧ (checkWin Sample.columnWin (mkLastMove 2 2 red)
     = mkWinResult (Some red)
         (Some [mkCell 2 2; mkCell 2 3; mkCell 2 4; mkCell 2 5])
     ∧ ∃ sc sr n, winningRun Sample.columnWin (mkLastMove 2 2 red)
                             0 1 sc sr n)
  ∧ (checkWin Sample.diagonalDownWin (mkLastMove 0 2 red)
     = mkWinResult (Some red)
         (Some [mkCell 0 2; mkCell 1 3; mkCell 2 4; mkCell 3 5])
     ∧ ∃ sc sr n, winningRun Sample.diagonalDownWin (mkLastMove 0 2 red)
                             1 1 sc sr n)
  ∧ (checkWin Sample.diagonalUpWin (mkLastMove 3 2 red)
     = mkWinResult (Some red)
         (Some [mkCell 0 5; mkCell 1 4; mkCell 2 3; mkCell 3 2])
     ∧ ∃ sc sr n, winningRun Sample.diagonalUpWin (mkLastMove 3 2 red)
                             1 (-1) sc sr n).
Proof.
  repeat apply conj; try reflexivity.
  - destruct (checkWin_reports_runs Sample.bottomRowWin (mkLastMove 3 5 red))
      as [[Hres _]|(before & dc & dr & after & sc & sr & n & _ & _ & Hrun & Hres)].
    + split; [cbn; lia|]. split; [cbn; lia|]. reflexivity.
    + discriminate Hres.
    + exists sc, sr, n.
      assert (dc = 1 ∧ dr = 0) as [-> ->]; [|exact Hrun].
      change (checkWin _ _)
        with (mkWinResult (Some red) (Some [mkCell 0 5; mkCell 1 5; mkCell 2 5; mkCell 3 5]))
        in Hres.
      injection Hres as Hres. unfold cellsFrom in Hres. cbn in Hres.
      lia.
  - destruct (checkWin_reports_runs Sample.columnWin (mkLastMove 2 2 red))
      as [[Hres _]|(before & dc & dr & after & sc & sr & n & _ & _ & Hrun & Hres)].
    + split; [cbn; lia|]. split; [cbn; lia|]. reflexivity.
    + discriminate Hres.
    + exists sc, sr, n.
      assert (dc = 0 ∧ dr = 1) as [-> ->]; [|exact Hrun].
      change (checkWin _ _)
        with (mkWinResult (Some red) (Some [mkCell 2 2; mkCell 2 3; mkCell 2 4; mkCell 2 5]))
        in Hres.
      injection Hres as Hres. unfold cellsFrom in Hres. cbn in Hres.
      lia.
  - destruct (checkWin_reports_runs Sample.diagonalDownWin
                (mkLastMove 0 2 red))
      as [[Hres _]|(before & dc & dr & after & sc & sr & n & _ & _ & Hrun & Hres)].
    + split; [cbn; lia|]. split; [cbn; lia|]. reflexivity.
    + discriminate Hres.
    + exists sc, sr, n.
      assert (dc = 1 ∧ dr = 1) as [-> ->]; [|exact Hrun].
      change (checkWin _ _)
        with (mkWinResult (Some red) (Some [mkCell 0 2; mkCell 1 3; mkCell 2 4; mkCell 3 5]))
        in Hres.
      injection Hres as Hres. unfold cellsFrom in Hres. cbn in Hres.
      lia.
  - destruct (checkWin_reports_runs Sample.diagonalUpWin (mkLastMove 3 2 red))
      as [[Hres _]|(before & dc & dr & after & sc & sr & n & _ & _ & Hrun & Hres)].
    + split; [cbn; lia|]. split; [cbn; lia|]. reflexivity.
    + discriminate Hres.
    + exists sc, sr, n.
      assert (dc = 1 ∧ dr = -1) as [-> ->]; [|exact Hrun].
      change (checkWin _ _)
        with (mkWinResult (Some red) (Some [mkCell 0 5; mkCell 1 4; mkCell 2 3; mkCell 3 2]))
        in Hres.
      injection Hres as Hres. unfold cellsFrom in Hres. cbn in Hres.
      lia.
Defined.
End CheckWin.

Section StoreFacts.
Import GameEngine.
Implicit Types (h : gmap positive Store.Obj) (b l : positive) (B : Board).

Lemma rowCells_weaken h h' l cells :
  h ⊆ h' → Store.rowCells h l = Some cells → Store.rowCells h' l = Some cells.
Proof.
  unfold Store.rowCells. intros Hsub Hl.
  destruct (h !! l) as [[cells0|?]|] eqn:Hh; try done.
  by rewrite (lookup_weaken _ _ _ _ Hh Hsub).
Qed.

Lemma boardOf_rows h b B :
  Store.boardOf h b = Some B ↔
  ∃ rows, h !! b = Some (Store.BoardArray rows)
          ∧ Forall2 (λ l cells, Store.rowCells h l = Some cells) rows B.
Proof.
  unfold Store.boardOf, Store.boardRows. split.
  - destruct (h !! b) as [[?|rows]|]; try done. cbn.
    intros Hm%mapM_Some. by exists rows.
  - intros (rows & -> & Hrows). cbn. by apply mapM_Some.
Qed.

(** Old objects unchanged: every board of the old store is still the
    same board in the new one. *)
Lemma boardOf_weaken h h' b B :
  h ⊆ h' → Store.boardOf h b = Some B → Store.boardOf h' b = Some B.
Proof.
  intros Hsub (rows & Hb & Hrows)%boardOf_rows. apply boardOf_rows.
  exists rows. split; [by eapply lookup_weaken|].
  eapply Forall2_impl; [done|]. intros l cells. by apply rowCells_weaken.
Qed.

Lemma cellAt_boardOf h b B r c :
  Store.boardOf h b = Some B → Store.cellAt h b r c = cellAt B r c.
Proof.
  intros (rows & Hb & Hrows)%boardOf_rows.
  unfold Store.cellAt, Store.boardRows, cellAt, at_index. rewrite Hb. cbn.
  destruct (r <? 0); [done|].
  destruct (rows !! Z.to_nat r) as [l|] eqn:Hl; cbn.
  - destruct (Forall2_lookup_l _ _ _ _ _ Hrows Hl) as (cells & -> & ->). done.
  - apply lookup_ge_None in Hl. rewrite (Forall2_length _ _ _ Hrows) in Hl.
    apply lookup_ge_None in Hl. by rewrite Hl.
Qed.

Lemma isValidMove_boardOf h b B c :
  Store.boardOf h b = Some B → Store.isValidMove h b c = isValidMove B c.
Proof.
  intros HB. unfold Store.isValidMove, isValidMove, Store.isNullAt, isNullAt.
  by rewrite (cellAt_boardOf h b B).
Qed.

Lemma findTargetRow_boardOf h b B c n :
  Store.boardOf h b = Some B →
  Store.findTargetRow h b c n = findTargetRow B c n.
Proof.
  intros HB. induction n as [|n IH]; cbn; [done|].
  unfold Store.isNullAt, isNullAt.
  by rewrite (cellAt_boardOf h b B), IH.
Qed.

(** The copy allocates one new row array per row, all distinct, none
    of them in the old store, and leaves the old store as it was. *)
Lemma copyRows_spec rows : ∀ h B,
  Forall2 (λ l cells, Store.rowCells h l = Some cells) rows B →
  ∃ h1 rows', Store.copyRows h rows = (h1, rows')
    ∧ h ⊆ h1
    ∧ Forall (λ l', h !! l' = None) rows'
    ∧ NoDup rows'
    ∧ Forall2 (λ l' cells, h1 !! l' = Some (Store.RowArray cells)) rows' B.
Proof.
  induction rows as [|l rest IH]; intros h B HB.
  { apply Forall2_nil_inv_l in HB as ->. exists h, []. cbn.
    split; [done|]. split; [done|]. split; [done|].
    split; [constructor|constructor]. }
  apply Forall2_cons_inv_l in HB as (cells & B' & Hl & Hrest & ->).
  cbn. rewrite Hl. cbn.
  set (l' := fresh (dom h)).
  assert (Hfresh : h !! l' = None) by apply not_elem_of_dom, is_fresh.
  set (h0 := <[l' := Store.RowArray cells]> h).
  assert (Hsub0 : h ⊆ h0) by (by apply insert_subseteq).
  destruct (IH h0 B') as (h1 & rest' & -> & Hsub1 & Hnew & Hnodup & Hcopy).
  { eapply Forall2_impl; [done|]. intros ? ?. by apply rowCells_weaken. }
  exists h1, (l' :: rest'). split; [done|].
  split; [by etrans|]. split; [|split].
  - constructor; [done|]. eapply Forall_impl; [done|].
    intros x Hx. cbn in Hx. by eapply lookup_weaken_None.
  - apply NoDup_cons. split; [|done]. intros Hin.
    eapply Forall_forall in Hnew; [|done]. cbn in Hnew.
    subst h0. by rewrite lookup_insert_eq in Hnew.
  - constructor; [|done]. eapply lookup_weaken; [|done].
    subst h0. apply lookup_insert_eq.
Qed.
End StoreFacts.

Section StoreMove.
Import GameEngine.
Implicit Types (h : gmap positive Store.Obj) (b l : positive) (B : Board).

Lemma applyMove_target B c t :
  isValidMove B c = true →
  let r := findTargetRow B c 6 in
  0 ≤ r < 6 ∧ cellAt B r c = Some None
  ∧ applyMove B c t = inr (withCell B r c t, r).
Proof.
  intros Hv.
  destruct (applyMove_valid B c t Hv) as (r0 & (Hr0 & Hnull0 & Hbelow0) & Happly).
  cbv zeta.
  destruct (findTargetRow_spec B c 6) as [[_ Hnone]|(Hr & Hnull & Hbelow)].
  { exfalso. apply (Hnone r0); [lia|done]. }
  assert (findTargetRow B c 6 = r0) as ->; [|split; [lia|done]].
  apply (isLowestEmptyRow_unique B c); [|done].
  split; [lia|]. split; [done|]. intros r' ?. apply Hbelow. lia.
Qed.

(** A rejected move leaves the store as it is. *)
Lemma store_applyMove_invalid h b B c t :
  Store.boardOf h b = Some B → isValidMove B c = false →
  Store.applyMove h b c t = (h, inl (InvalidMove c)).
Proof.
  intros HB Hv. unfold Store.applyMove.
  by rewrite (isValidMove_boardOf h b B), Hv.
Qed.

(** An accepted move builds the new board out of new arrays only: the
    old store is part of the new one, so the input board and every
    other old object read as before; the returned board and its rows
    are references the old store did not hold; and the returned board
    denotes the value-level result. *)
Lemma store_applyMove_valid h b B c t :
  Store.boardOf h b = Some B → isValidMove B c = true →
  ∃ h' b' rows' r,
    Store.applyMove h b c t = (h', inr (b', r))
    ∧ applyMove B c t = inr (withCell B r c t, r)
    ∧ Store.boardOf h' b' = Some (withCell B r c t)
    ∧ h ⊆ h'
    ∧ Store.boardOf h' b = Some B
    ∧ h !! b' = None
    ∧ h' !! b' = Some (Store.BoardArray rows')
    ∧ Forall (λ l, h !! l = None) rows'.
Proof.
  intros HB Hv.
  destruct (applyMove_target B c t Hv) as (Hr & Hnull & Happly).
  set (r := findTargetRow B c 6) in *.
  unfold Store.applyMove. rewrite (isValidMove_boardOf h b B), Hv by done.
  cbn [negb].
  pose proof HB as (rows & Hb & Hrows)%boardOf_rows.
  unfold Store.boardRows at 1. rewrite Hb. cbn [from_option].
  unfold Datatypes.id.
  destruct (copyRows_spec rows h B Hrows)
    as (h1 & rows' & -> & Hsub1 & Hnew & Hnodup & Hcopy).
  unfold Store.alloc.
  set (nb := fresh (dom h1)).
  assert (Hnb : h1 !! nb = None) by apply not_elem_of_dom, is_fresh.
  set (h2 := <[nb := Store.BoardArray rows']> h1).
  assert (Hsub2 : h1 ⊆ h2) by (by apply insert_subseteq).
  assert (HB2 : Store.boardOf h2 nb = Some B).
  { apply boardOf_rows. exists rows'. split; [apply lookup_insert_eq|].
    eapply Forall2_impl; [done|]. intros l cells Hl. cbn in Hl.
    unfold Store.rowCells. by rewrite (lookup_weaken _ _ _ _ Hl Hsub2). }
  rewrite (findTargetRow_boardOf h2 nb B) by done. fold r.
  destruct (Z.eqb_spec r (-1)); [lia|].
  (* the row array that receives the piece *)
  unfold cellAt in Hnull.
  destruct (at_index B r) as [cells|] eqn:HBr; [|done]. cbn in Hnull.
  pose proof HBr as [_ HBr']%at_index_Some.
  destruct (Forall2_lookup_r _ _ _ _ _ Hcopy HBr') as (l & Hl & Hlcells).
  assert (at_index rows' r = Some l) as -> by (apply at_index_Some; split; [lia|done]).
  assert (Hl2 : h2 !! l = Some (Store.RowArray cells))
    by (by eapply lookup_weaken).
  unfold Store.rowCells at 1. rewrite Hl2.
  set (cells' := set_index cells c (Some t)).
  set (h3 := <[l := Store.RowArray cells']> h2).
  assert (Hlnb : l ≠ nb) by (intros ->; congruence).
  assert (Hlold : h !! l = None).
  { eapply Forall_forall in Hnew; [done|]. by eapply list_elem_of_lookup_2. }
  assert (Hsub3 : h ⊆ h3).
  { subst h3. apply map_subseteq_spec. intros i x Hi.
    rewrite lookup_insert_ne by (intros <-; congruence).
    eapply lookup_weaken; [|exact Hsub2]. by eapply lookup_weaken. }
  exists h3, nb, rows', r.
  split; [done|]. split; [done|]. split; [|split; [done|split; [|split; [|split]]]].
  - apply boardOf_rows. exists rows'. split.
    { subst h3 h2. rewrite lookup_insert_ne by done. apply lookup_insert_eq. }
    unfold withCell. rewrite HBr. fold cells'.
    unfold set_index. destruct (Z.ltb_spec r 0); [lia|].
    apply Forall2_same_length_lookup. split.
    { rewrite length_insert. by eapply Forall2_length. }
    intros i x y Hx Hy. unfold Store.rowCells. subst h3.
    destruct (decide (i = Z.to_nat r)) as [->|Hi].
    + assert (x = l) as -> by congruence.
      rewrite lookup_insert_eq.
      rewrite list_lookup_insert_eq in Hy by (by eapply lookup_lt_Some).
      congruence.
    + rewrite list_lookup_insert_ne in Hy by done.
      assert (x ≠ l) as Hxl.
      { intros ->. apply Hi. by eapply NoDup_lookup. }
      rewrite lookup_insert_ne by done.
      pose proof (Forall2_lookup_lr _ _ _ _ _ _ Hcopy Hx Hy) as Hh1. cbn in Hh1.
      by rewrite (lookup_weaken _ _ _ _ Hh1 Hsub2).
  - by eapply boardOf_weaken.
  - by eapply lookup_weaken_None.
  - subst h3 h2. rewrite lookup_insert_ne by done. apply lookup_insert_eq.
  - done.
Qed.
End StoreMove.

Section ApplyMove.
Import GameEngine.

Lemma wfBoard_top_cell (B : Board) c :
  wfBoard B → 0 ≤ c < 7 →
  cellAt B 0 c ≠ Some None ↔ ∃ t', cellAt B 0 c = Some (Some t').
Proof.
  intros [Hrows Hcols] Hc.
  destruct B as [|top B']; [done|].
  apply Forall_cons in Hcols as [Htop _].
  destruct (at_index_in_range top c) as [x Hx]; [lia|].
  assert (cellAt (top :: B') 0 c = Some x) as ->.
  { unfold cellAt. change (at_index (top :: B') 0) with (Some top).
    by cbn. }
  destruct x as [t'|].
  - split; [by eauto|done].
  - split; [done|]. by intros [? ?].
Qed.

(** C5: applyMove fails exactly when isValidMove is false, that is
    when the column is outside [0,7) or its top cell is not empty
    (occupied, on a 6 x 7 board). Otherwise it returns the lowest
    empty row of the column and a board that holds the team in that
    cell and equals the input everywhere else. Over the object store,
    the returned board and its rows are arrays that did not exist
    before the call and every array that existed is unchanged, so the
    input board still denotes the same value. Moves into an empty
    column use rows 5, 4, 3, ... in turn. *)
Theorem applyMove_gravity_and_immutability (B : Board) c t :
  (isValidMove B c = false ↔ c < 0 ∨ 7 ≤ c ∨ cellAt B 0 c ≠ Some None)
  ∧ (wfBoard B → 0 ≤ c < 7 →
     cellAt B 0 c ≠ Some None ↔ ∃ t', cellAt B 0 c = Some (Some t'))
  ∧ (isValidMove B c = false →
     applyMove B c t = inl (InvalidMove c)
     ∧ ∀ h b, Store.boardOf h b = Some B →
         Store.applyMove h b c t = (h, inl (InvalidMove c)))
  ∧ (isValidMove B c = true →
     ∃ r, isLowestEmptyRow B c r
       ∧ applyMove B c t = inr (withCell B r c t, r)
       ∧ cellAt (withCell B r c t) r c = Some (Some t)
       ∧ (∀ r' c', (r', c') ≠ (r, c) →
            cellAt (withCell B r c t) r' c' = cellAt B r' c')
       ∧ ∀ h b, Store.boardOf h b = Some B →
           ∃ h' b' rows',
             Store.applyMove h b c t = (h', inr (b', r))
             ∧ Store.boardOf h' b' = Some (withCell B r c t)
             ∧ h ⊆ h'
             ∧ Store.boardOf h' b = Some B
             ∧ h !! b' = None
             ∧ h' !! b' = Some (Store.BoardArray rows')
             ∧ Forall (λ l, h !! l = None) rows')
  ∧ (∀ ts, 0 ≤ c < 7 → (length ts ≤ 6)%nat → emptyColumn B c →
     ∃ B', applyMoves B c ts = Some (B', stackedRows (length ts))).
Proof.
  split; [apply isValidMove_false|].
  split; [apply wfBoard_top_cell|].
  split; [|split].
  - intros Hv. split; [by apply applyMove_invalid|].
    intros h b HB. by eapply store_applyMove_invalid.
  - intros Hv.
    destruct (applyMove_valid B c t Hv) as (r & Hlow & Happly).
    exists r. split; [done|]. split; [done|]. split; [|split].
    + rewrite cellAt_withCell. case_bool_decide as Hd; [done|].
      exfalso. apply Hd. destruct Hlow as (_ & -> & _). by eauto.
    + intros r' c' Hne. rewrite cellAt_withCell.
      case_bool_decide as Hd; [|done]. destruct Hd as (-> & -> & _). done.
    + intros h b HB.
      destruct (store_applyMove_valid h b B c t HB Hv)
        as (h' & b' & rows' & r0 & Hrun & Happly0 & Hrest).
      assert (r0 = r) as -> by congruence.
      by exists h', b', rows'.
  - intros ts. apply applyMoves_stack.
Qed.

Lemma applyMove_gravity_and_immutability_witness :
  applyMove newBoard 3 red = inr (withCell newBoard 5 3 red, 5)
  ∧ (∃ h' b', Store.applyMove Sample.stored 7 3 red = (h', inr (b', 5))
       ∧ Store.boardOf h' b' = Some (withCell newBoard 5 3 red)
       ∧ Store.boardOf h' 7%positive = Some newBoard
       ∧ Sample.stored ⊆ h')
  ∧ (∃ B', applyMoves newBoard 3 [red; yellow; red] = Some (B', [5; 4; 3])).
Proof.
  destruct (applyMove_gravity_and_immutability newBoard 3 red)
    as (_ & _ & _ & Hvalid & Hstack).
  destruct Hvalid as (r & Hlow & Happly & _ & _ & Hstore); [reflexivity|].
  assert (r = 5) as ->.
  { apply (isLowestEmptyRow_unique newBoard 3); [done|].
    split; [lia|]. split; [reflexivity|]. intros r' ?. lia. }
  split; [exact Happly|]. split.
  - destruct (Hstore Sample.stored 7%positive) as (h' & b' & rows' & Hrun & Hnew & Hsub & Hold & _).
    { vm_compute. reflexivity. }
    exists h', b'. by repeat split.
  - apply (Hstack [red; yellow; red]); [lia|cbn; lia|].
    intros r' Hr'. each_row r'; reflexivity.
Defined.
End ApplyMove.

Section Tally.
Import MajorityTurnDecider.
Variable validCols : list Z.

Lemma votesFor_set_index counts i x k :
  is_Some (at_index counts i) →
  votesFor (set_index counts i x) k
  = if bool_decide (i = k) then x else votesFor counts k.
Proof.
  intros Hi. unfold votesFor. rewrite at_index_set_index.
  repeat case_bool_decide; try done; exfalso; tauto.
Qed.

Lemma length_set_index {A} (a : list A) i x :
  length (set_index a i x) = length a.
Proof. unfold set_index. destruct (i <? 0); [done|]. apply length_insert. Qed.

(** One vote adds one to its column when the column is counted, and
    changes nothing otherwise. *)
Lemma countVote_spec counts v :
  length counts = 7%nat →
  length (countVote validCols counts v) = 7%nat
  ∧ ∀ k, votesFor (countVote validCols counts v) k
         = votesFor counts k
           + (if bool_decide (v = k ∧ counted validCols v) then 1 else 0).
Proof.
  intros Hlen. unfold countVote, counted.
  destruct (includes validCols v) eqn:Hv; cbn.
  - apply includes_true in Hv.
    destruct (Z.geb_spec v 0), (Z.ltb_spec v 7); cbn;
      try (split; [done|]; intros k; case_bool_decide; lia).
    split; [by rewrite length_set_index|]. intros k.
    rewrite votesFor_set_index by (apply at_index_in_range; lia).
    repeat case_bool_decide; subst; try lia; try (unfold votesFor; lia);
      exfalso; tauto.
  - split; [done|]. intros k. case_bool_decide as Hd; [|lia].
    destruct Hd as (_ & Hin%includes_true & _). congruence.
Qed.

Lemma foldl_countVote_spec vs : ∀ counts,
  length counts = 7%nat →
  length (foldl (countVote validCols) counts vs) = 7%nat
  ∧ ∀ k, votesFor (foldl (countVote validCols) counts vs) k
         = votesFor counts k
           + (if bool_decide (counted validCols k)
              then Z.of_nat (length (filter (λ v, v = k) vs)) else 0).
Proof.
  induction vs as [|v vs IH]; intros counts Hlen; cbn [foldl].
  { split; [done|]. intros k. rewrite filter_nil. cbn. case_bool_decide; lia. }
  destruct (countVote_spec counts v Hlen) as [Hlen' Hstep].
  destruct (IH _ Hlen') as [Hlen'' Hrest].
  split; [done|]. intros k. rewrite Hrest, Hstep, filter_cons.
  destruct (decide (v = k)) as [->|Hne]; cbn [length].
  - repeat case_bool_decide; try lia; exfalso; tauto.
  - rewrite (bool_decide_eq_false_2 (v = k ∧ _)) by tauto.
    case_bool_decide; lia.
Qed.

Lemma size_filter_votes (votes : gmap string Z) (c : Z) :
  votersFor votes c
  = length (filter (λ v, v = c) ((map_to_list votes).*2)).
Proof.
  unfold votersFor. rewrite map_filter_alt.
  rewrite <-length_map_to_list.
  rewrite map_to_list_to_map.
  2:{ apply (sublist_NoDup _ ((map_to_list votes).*1));
        [apply NoDup_fst_map_to_list|].
      apply fmap_sublist, sublist_filter. }
  generalize (map_to_list votes). intros l.
  induction l as [|[i x] l IH]; [done|].
  rewrite fmap_cons, !filter_cons. cbn [snd].
  destruct (decide (x = c)); cbn [length]; by rewrite IH.
Qed.
End Tally.

Section TallyProperties.
Import GameEngine MajorityTurnDecider TurnManager.

Lemma tallyVotes_facts (votes : gmap string Z) (validCols : list Z) :
  length (tallyVotes votes validCols) = 7%nat
  ∧ Forall (λ x, 0 ≤ x) (tallyVotes votes validCols)
  ∧ (∀ c, counted validCols c →
       votesFor (tallyVotes votes validCols) c = Z.of_nat (votersFor votes c))
  ∧ (∀ c, ¬ counted validCols c →
       votesFor (tallyVotes votes validCols) c = 0).
Proof.
  unfold tallyVotes.
  destruct (foldl_countVote_spec validCols ((map_to_list votes).*2)
              [0; 0; 0; 0; 0; 0; 0] eq_refl) as [Hlen Hcount].
  assert (Hzero : ∀ k, votesFor [0; 0; 0; 0; 0; 0; 0] k = 0).
  { intros k. unfold votesFor.
    destruct (at_index _ k) as [x|] eqn:Hk; [|done]. cbn.
    apply at_index_elem_of in Hk.
    repeat (apply elem_of_cons in Hk as [->|Hk]; [done|]).
    by apply elem_of_nil in Hk. }
  split; [done|]. split; [|split].
  - apply Forall_lookup. intros i x Hi.
    rewrite <-(votesFor_lookup _ _ _ Hi), Hcount, Hzero.
    case_bool_decide; lia.
  - intros c Hc. rewrite Hcount, Hzero, bool_decide_eq_true_2 by done.
    by rewrite size_filter_votes.
  - intros c Hc. by rewrite Hcount, Hzero, bool_decide_eq_false_2.
Qed.

(** X1: tallyVotes returns 7 non-negative counts; the count of a
    column that is in validCols and inside [0,7) is the number of
    players whose vote is that column, and every other column counts
    0: votes for full or out-of-range columns are dropped. *)
Theorem tallyVotes_counts (votes : gmap string Z) (validCols : list Z) :
  length (tallyVotes votes validCols) = 7%nat
  ∧ Forall (λ x, 0 ≤ x) (tallyVotes votes validCols)
  ∧ (∀ c, counted validCols c →
       votesFor (tallyVotes votes validCols) c = Z.of_nat (votersFor votes c))
  ∧ (∀ c, ¬ counted validCols c →
       votesFor (tallyVotes votes validCols) c = 0).
Proof. apply tallyVotes_facts. Qed.

Lemma pickRandomColumn_at (columns : list Z) (i : nat) x :
  columns !! i = Some x →
  unitInterval (Z.of_nat i # Pos.of_nat (length columns))
  ∧ pickRandomColumn (Z.of_nat i # Pos.of_nat (length columns)) columns = x.
Proof.
  intros Hi. pose proof (lookup_lt_Some _ _ _ Hi) as Hlt.
  assert (Hpos : Z.pos (Pos.of_nat (length columns))
                 = Z.of_nat (length columns)).
  { rewrite <-positive_nat_Z, Nat2Pos.id by lia. done. }
  split.
  - unfold unitInterval, Qle, Qlt. cbn. rewrite Hpos. lia.
  - unfold pickRandomColumn.
    destruct (Nat.eqb_spec (length columns) 0); [lia|].
    assert (Qfloor ((Z.of_nat i # Pos.of_nat (length columns))
                    * inject_Z (Z.of_nat (length columns))) = Z.of_nat i)
      as ->.
    { unfold Qfloor, Qmult, inject_Z. cbn.
      rewrite Pos.mul_1_r, Hpos. apply Z.div_mul. lia. }
    by rewrite at_index_of_nat, Hi.
Qed.

Lemma maxVotesFrom_no_valid counts : ∀ c m,
  maxVotesFrom [] c counts m = m.
Proof. induction counts as [|x counts IH]; intros c m; cbn; [done|]. apply IH. Qed.

(** X4: with an empty list of valid columns decideColumn returns
    column 0 (the fallback of pickRandomColumn) for every count array
    and every random number. *)
Theorem decideColumn_no_valid_column u counts : decideColumn u counts [] = 0.
Proof.
  unfold decideColumn. destruct (foldl Z.add 0 counts =? 0); [done|].
  by rewrite maxVotesFrom_no_valid.
Qed.

(** X3: the tie-break has no fixed bias: for non-negative counts,
    every valid column that attains the maximum count among the valid
    columns is returned by decideColumn for some random number of
    [0, 1). *)
Theorem decideColumn_reaches_every_tied counts validCols c :
  Forall (λ x, 0 ≤ x) counts → attainsMax counts validCols c →
  ∃ u, unitInterval u ∧ decideColumn u counts validCols = c.
Proof.
  intros Hpos [Hc Hmax].
  assert (Hpick : ∀ l, c ∈ l → ∃ u, unitInterval u ∧ pickRandomColumn u l = c).
  { intros l [i Hi]%list_elem_of_lookup.
    destruct (pickRandomColumn_at l i c Hi). eauto. }
  unfold decideColumn.
  destruct (foldl Z.add 0 counts =? 0); [by apply Hpick|].
  set (m := maxVotesFrom validCols 0 counts 0).
  destruct (Z.eqb_spec m 0) as [|Hm]; [by apply Hpick|].
  apply Hpick, tiedColumnsFrom_spec.
  destruct (maxVotesFrom_spec validCols counts 0 0) as (Hm0 & Hub & Hwit).
  fold m in Hm0, Hub, Hwit.
  destruct Hwit as [?|(k & Hk & Hin)]; [lia|].
  rewrite Z.add_0_l in Hin.
  pose proof (Hmax _ Hin) as Hge. rewrite (votesFor_lookup _ _ _ Hk) in Hge.
  destruct (votesFor_cases counts c) as [Hz|(j & -> & Hj)]; [lia|].
  exists j. split; [|split; [lia|done]].
  assert (votesFor counts (Z.of_nat j) ≤ m) as Hle.
  { apply (Hub j); [done|]. by rewrite Z.add_0_l. }
  rewrite Hj. f_equal. lia.
Qed.

Lemma decideColumn_reaches_every_tied_witness :
  ∃ u, unitInterval u
       ∧ decideColumn u [2; 1; 2; 1; 0; 2; 0] (seqZ 0 7) = 5.
Proof.
  apply (decideColumn_reaches_every_tied [2; 1; 2; 1; 0; 2; 0] (seqZ 0 7) 5).
  - repeat constructor; lia.
  - split; [apply elem_of_seqZ; lia|].
    intros v Hv%elem_of_seqZ. each_column v; vm_compute; discriminate.
Defined.
End TallyProperties.

Section Majority2.
Import GameEngine MajorityTurnDecider TurnManager.
Context {C : Type} `{IClock C}.

Lemma chosenBy_most_voted u g v :
  unitInterval u → isValidMove (board g) v = true →
  (votersFor (votes g) v ≤ votersFor (votes g) (chosenBy u g))%nat.
Proof.
  intros Hu Hv.
  assert (Hne : validColumns (board g) ≠ []).
  { intros Hnil. apply validColumns_spec in Hv. rewrite Hnil in Hv.
    by apply elem_of_nil in Hv. }
  destruct (tallyVotes_facts (votes g) (validColumns (board g)))
    as (_ & Hpos & Hcount & _).
  destruct (decideColumn_attainsMax (validColumns (board g)) u _ Hu Hne Hpos)
    as [Hin Hmax].
  assert (Hcounted : ∀ c, c ∈ validColumns (board g) →
                          counted (validColumns (board g)) c).
  { intros c Hc. split; [done|].
    by apply validColumns_spec, isValidMove_true in Hc as [? _]. }
  apply validColumns_spec in Hv.
  specialize (Hmax v Hv).
  rewrite !Hcount in Hmax by auto. unfold chosenBy. lia.
Qed.

(** X2: finishVoting plays the majority: when a column is playable,
    the column it reports and plays is playable and no playable column
    has more voters; a playable column with strictly more voters than
    every other playable column is the one played, whatever the random
    number is. Votes for columns that are not playable do not count. *)
Theorem finishVoting_plays_most_voted u (tm : TurnManager.t C) g players :
  unitInterval u → validColumns (board g) ≠ [] →
  chosenColumn (finishVoting u tm g players).2 = Some (chosenBy u g)
  ∧ isValidMove (board g) (chosenBy u g) = true
  ∧ (∀ v, isValidMove (board g) v = true →
       (votersFor (votes g) v ≤ votersFor (votes g) (chosenBy u g))%nat)
  ∧ (∀ c, isValidMove (board g) c = true →
       (∀ v, isValidMove (board g) v = true → v ≠ c →
             (votersFor (votes g) v < votersFor (votes g) c)%nat) →
       chosenBy u g = c).
Proof.
  intros Hu Hne.
  assert (Hin : isValidMove (board g) (chosenBy u g) = true)
    by (apply validColumns_spec; by apply chosenBy_valid).
  split; [|split; [done|split]].
  - destruct (applyMove_valid (board g) (chosenBy u g) (currentTeam g) Hin)
      as (r & _ & Happly).
    rewrite (finishVoting_applied u tm g players _ r Hne Happly).
    cbv zeta. destruct (win_winner _); [done|]. by destruct (isBoardFull _).
  - intros v Hv. by apply chosenBy_most_voted.
  - intros c Hc Hstrict.
    destruct (decide (chosenBy u g = c)) as [|Hneq]; [done|].
    pose proof (Hstrict _ Hin Hneq).
    pose proof (chosenBy_most_voted u g c Hu Hc). lia.
Qed.
End Majority2.

Section Majority2Runs.
Import GameEngine MajorityTurnDecider TurnManager Sample.

Lemma finishVoting_plays_most_voted_witness :
  chosenColumn (finishVoting half opened.1 voted roster).2 = Some 3.
Proof.
  destruct (finishVoting_plays_most_voted half opened.1 voted roster)
    as (Hres & _).
  - exact half_unit.
  - vm_compute. discriminate.
  - exact Hres.
Defined.
End Majority2Runs.

Section BoardInvariants.
Import GameEngine TurnManager.

Lemma topRowHasNull_true cells (n : nat) : ∀ c,
  topRowHasNull cells c n = true
  ↔ ∃ k, c ≤ k < c + Z.of_nat n ∧ at_index cells k = Some None.
Proof.
  induction n as [|n IH]; intros c; cbn [topRowHasNull].
  { split; [done|]. intros (k & ? & _). lia. }
  destruct (at_index cells c) as [[t|]|] eqn:Hc.
  1,3: rewrite IH; split; intros (k & Hk & Hnull);
       (exists k; split; [|done]);
       destruct (decide (k = c)) as [->|]; (lia || congruence).
  split; [|done]. intros _. exists c. split; [lia|done].
Qed.

Lemma isBoardFull_true (b : Board) :
  isBoardFull b = true ↔ b ≠ [] ∧ noPlayableColumn b.
Proof.
  unfold isBoardFull, noPlayableColumn, cellAt.
  destruct b as [|top rest].
  { split; [done|]. by intros [? _]. }
  change (at_index (top :: rest) 0) with (Some top). cbn [mbind option_bind].
  rewrite negb_true_iff, <-not_true_iff_false, topRowHasNull_true.
  split.
  - intros Hno. split; [done|]. intros c Hc Hnull. apply Hno.
    exists c. split; [lia|done].
  - intros [_ Hno] (k & Hk & Hnull). apply (Hno k); [lia|done].
Qed.

(** X5: isBoardFull is true exactly when the board has a top row and
    no column is playable; then finishVoting finds no valid column. A
    board without rows is reported as not full although it has no
    playable column either. *)
Theorem isBoardFull_no_playable_column (b : Board) :
  (isBoardFull b = true ↔ b ≠ [] ∧ ∀ c, isValidMove b c = false)
  ∧ (isBoardFull b = true → validColumns b = [])
  ∧ (b ≠ [] → validColumns b = [] → isBoardFull b = true)
  ∧ (b = [] → isBoardFull b = false ∧ validColumns b = []).
Proof.
  assert (Hno : noPlayableColumn b ↔ ∀ c, isValidMove b c = false).
  { unfold noPlayableColumn. split.
    - intros Hno c. apply isValidMove_false.
      destruct (decide (0 ≤ c < 7)); [|lia]. right; right. by apply Hno.
    - intros Hall c Hc.
      specialize (Hall c). apply isValidMove_false in Hall.
      destruct Hall as [?|[?|?]]; [lia|lia|done]. }
  split; [by rewrite isBoardFull_true, Hno|].
  split; [|split].
  - intros [_ ?]%isBoardFull_true. by apply validColumns_nil.
  - intros Hne Hnil. apply isBoardFull_true. split; [done|].
    by apply validColumns_nil.
  - intros ->. split; [done|]. by apply validColumns_nil.
Qed.

Lemma wfBoard_cell (b : Board) r c :
  wfBoard b → 0 ≤ r ≤ 5 → 0 ≤ c < 7 → is_Some (cellAt b r c).
Proof.
  intros [Hrows Hcols] Hr Hc. unfold cellAt.
  destruct (at_index_in_range b r) as [cells Hcells]; [lia|].
  rewrite Hcells. cbn. apply at_index_in_range.
  apply at_index_elem_of in Hcells.
  eapply Forall_forall in Hcols; [|done]. cbn in Hcols. lia.
Qed.

Lemma wfBoard_withCell (b : Board) r c t :
  wfBoard b → wfBoard (withCell b r c t).
Proof.
  intros [Hrows Hcols]. unfold withCell.
  destruct (at_index b r) as [cells|] eqn:Hr; [|done].
  split; [by rewrite length_set_index|].
  unfold set_index at 1. destruct (r <? 0); [done|].
  apply Forall_insert; [done|]. rewrite length_set_index.
  apply at_index_elem_of in Hr.
  by eapply Forall_forall in Hcols.
Qed.

Lemma settled_withCell (b : Board) r c t :
  isLowestEmptyRow b c r → settled b → settled (withCell b r c t).
Proof.
  intros (Hr & Hnull & Hbelow) Hset c' r1 r2 Hrr.
  rewrite !cellAt_withCell.
  destruct (decide (r2 = r ∧ c' = c ∧ is_Some (cellAt b r c))) as [H2|H2].
  { by rewrite (bool_decide_eq_true_2 _ H2). }
  rewrite (bool_decide_eq_false_2 _ H2).
  case_bool_decide as H1.
  - destruct H1 as (-> & -> & _). intros _. apply Hbelow. lia.
  - by apply Hset.
Qed.

Lemma newBoard_wf_settled : wfBoard newBoard ∧ settled newBoard.
Proof.
  split; [split; [done|repeat constructor]|].
  intros c r r' Hrr Hr.
  destruct (decide (0 ≤ c < 7)) as [Hc|Hc].
  - exfalso. apply Hr. each_column c; each_row r; (reflexivity || lia).
  - intros Hnull. unfold cellAt in Hnull.
    destruct (at_index newBoard r') as [cells|] eqn:Hcells; [|done].
    cbn in Hnull. apply at_index_elem_of in Hcells.
    assert (cells = emptyRow) as ->.
    { unfold newBoard in Hcells. by apply elem_of_replicate in Hcells as [? _]. }
    apply at_index_Some in Hnull as [? Hl].
    apply lookup_lt_Some in Hl. cbn in Hl. lia.
Qed.

Lemma played_wf_settled (b : Board) : Played b → wfBoard b ∧ settled b.
Proof.
  induction 1 as [|b c t b' r _ [Hwf Hset] Happly];
    [apply newBoard_wf_settled|].
  destruct (isValidMove b c) eqn:Hv.
  - destruct (applyMove_valid b c t Hv) as (r0 & Hlow & Happly0).
    rewrite Happly0 in Happly. injection Happly as <- <-.
    split; [by apply wfBoard_withCell|by apply settled_withCell].
  - by rewrite (applyMove_invalid b c t Hv) in Happly.
Qed.

(** X6: every board reached from the new board by successful moves
    has 6 rows of 7 cells and no empty cell below a piece, so that a
    column inside [0,7) is refused by isValidMove exactly when all six
    of its cells hold a piece. *)
Theorem played_board_column_full (b : Board) c :
  Played b → 0 ≤ c < 7 →
  wfBoard b ∧ settled b
  ∧ (isValidMove b c = false ↔ fullColumn b c).
Proof.
  intros Hplayed Hc. destruct (played_wf_settled b Hplayed) as [Hwf Hset].
  split; [done|]. split; [done|].
  rewrite isValidMove_false. split.
  - intros [?|[?|Htop]]; [lia|lia|]. intros r Hr.
    assert (cellAt b r c ≠ Some None) as Hnn.
    { destruct (decide (r = 0)) as [->|]; [done|]. apply (Hset c 0 r); [lia|done]. }
    destruct (wfBoard_cell b r c Hwf Hr Hc) as [[t|] Hcell]; [by eauto|done].
  - intros Hfull. right; right. destruct (Hfull 0) as [t ->]; [lia|done].
Qed.

Lemma played_board_column_full_witness :
  wfBoard (withCell newBoard 5 3 red) ∧ settled (withCell newBoard 5 3 red)
  ∧ (isValidMove (withCell newBoard 5 3 red) 3 = false
     ↔ fullColumn (withCell newBoard 5 3 red) 3).
Proof.
  apply (played_board_column_full (withCell newBoard 5 3 red) 3); [|lia].
  apply (Played_move newBoard 3 red _ 5); [constructor|reflexivity].
Defined.
End BoardInvariants.

Section WinSoundness.
Import GameEngine.

Lemma checkDirection_cells (b : Board) (t : Team) c r dc dr :
  ∃ sc sr n, checkDirection b c r t dc dr = cellsFrom sc sr dc dr n
    ∧ ∀ i : nat, (i < n)%nat →
        holds b t (sc + Z.of_nat i * dc) (sr + Z.of_nat i * dr).
Proof.
  unfold checkDirection.
  destruct (walkBack lineFuel b t dc dr c r) as [c0 r0].
  destruct (walkForward_inv b t dc dr lineFuel (c0 + dc) (r0 + dr))
    as (n & _ & -> & Hall & _).
  exists (c0 + dc), (r0 + dr), n. split; [done|].
  intros i Hi. by apply onTeam_holds, Hall.
Qed.

Lemma checkLines_sound (b : Board) (t : Team) c r ds :
  (∀ d, d ∈ ds → d ∈ directions) →
  checkLines b c r t ds = mkWinResult None None
  ∨ ∃ line, checkLines b c r t ds = mkWinResult (Some t) (Some line)
            ∧ length line = 4%nat ∧ fourInLine b t line.
Proof.
  intros Hds. induction ds as [|[dc dr] rest IH]; [by left|].
  cbn [checkLines].
  destruct (checkDirection_cells b t c r dc dr) as (sc & sr & n & -> & Hall).
  rewrite length_cellsFrom.
  destruct (Nat.leb_spec 4 n) as [Hn|Hn].
  - right. exists (cellsFrom sc sr dc dr 4).
    split; [by rewrite take_cellsFrom|].
    split; [apply length_cellsFrom|].
    exists sc, sr, dc, dr. split; [apply Hds; left|]. split; [done|].
    intros cell (i & -> & Hi%elem_of_seq)%list_elem_of_fmap. cbn.
    apply Hall. lia.
  - apply IH. intros d Hd. apply Hds. by right.
Qed.

(** X7: checkWin never reports a win that is not on the board: for
    every board and last move, either it reports no winner and no
    line, or the winner is the team of the last move and the line is
    four cells in a row along one of the four directions, all on the
    board and all holding a piece of that team. *)
Theorem checkWin_sound (b : Board) (m : LastMove) :
  checkWin b m = mkWinResult None None
  ∨ ∃ line, checkWin b m = mkWinResult (Some (lastTeam m)) (Some line)
            ∧ length line = 4%nat ∧ fourInLine b (lastTeam m) line.
Proof. by apply checkLines_sound. Qed.
End WinSoundness.

Section Queries.
Import GameEngine MajorityTurnDecider TurnManager TurnManagerQueries.
Context {C : Type} `{IClock C}.
Implicit Types (tm : TurnManager.t C) (g : GameState) (players : list Player).

(** X8: once finishVoting has returned, castVote rejects every vote
    with WindowClosed and leaves the state alone, whoever votes and
    whatever the column and the manager are. *)
Theorem castVote_after_finishVoting u tm g players tm' players' playerId column :
  let g' := (finishVoting u tm g players).1.1.2 in
  castVote tm' g' players' playerId column = rejected WindowClosed g'.
Proof.
  cbv zeta. unfold castVote, rejected.
  destruct (finishVoting_closes u tm g players) as [_ ->]. done.
Qed.

Lemma hasAllTeamVoted_true g players :
  hasAllTeamVoted g players = true
  ↔ ∀ p, p ∈ players → team p = currentTeam g → connected p = true →
         is_Some (votes g !! id p).
Proof.
  unfold hasAllTeamVoted.
  rewrite <-Is_true_true, forallb_True, Forall_forall. split.
  - intros Hall p Hp Hteam Hconn.
    specialize (Hall p). rewrite list_elem_of_filter in Hall.
    specialize (Hall (conj (conj Hteam Hconn) Hp)).
    by apply bool_decide_unpack in Hall.
  - intros Hall p [[Hteam Hconn] Hp]%list_elem_of_filter.
    apply bool_decide_pack. by apply Hall.
Qed.

(** X9: hasAllTeamVoted is true exactly when every connected roster
    player of the active team has an entry in the vote map; it is
    true when the active team has no connected player, and with an
    empty vote map it is true only then. After castVote accepts a
    vote it is true as soon as every other connected active-team
    player had voted. *)
Theorem hasAllTeamVoted_spec tm g players playerId column :
  (hasAllTeamVoted g players = true
   ↔ ∀ p, p ∈ players → team p = currentTeam g → connected p = true →
          is_Some (votes g !! id p))
  ∧ (votes g = ∅ →
     hasAllTeamVoted g players = true
     ↔ ∀ p, p ∈ players → team p = currentTeam g → connected p = false)
  ∧ (castVote tm g players playerId column = accepted g playerId column →
     (∀ p, p ∈ players → team p = currentTeam g → connected p = true →
           id p ≠ playerId → is_Some (votes g !! id p)) →
     hasAllTeamVoted (castVote tm g players playerId column).2 players = true).
Proof.
  split; [apply hasAllTeamVoted_true|]. split.
  - intros Hempty. rewrite hasAllTeamVoted_true, Hempty. split.
    + intros Hall p Hp Hteam. destruct (connected p) eqn:Hconn; [|done].
      destruct (Hall p Hp Hteam Hconn) as [? Hl].
      by rewrite lookup_empty in Hl.
    + intros Hall p Hp Hteam Hconn. rewrite (Hall p Hp Hteam) in Hconn. done.
  - intros -> Hothers. apply hasAllTeamVoted_true. cbn.
    intros p Hp Hteam Hconn.
    destruct (decide (id p = playerId)) as [->|Hne].
    + rewrite lookup_insert_eq. by eexists.
    + rewrite lookup_insert_ne by done. by apply Hothers.
Qed.

Lemma collectTeamVotes_lookup g (ps : list Player) k :
  collectTeamVotes g ps !! k
  = if decide (Exists (λ p, id p = k) ps) then votes g !! k else None.
Proof.
  unfold collectTeamVotes.
  assert (Hgen : ∀ acc : gmap string Z,
    foldl (λ teamVotes player,
             match votes g !! id player with
             | Some vote => <[id player := vote]> teamVotes
             | None => teamVotes
             end) acc ps !! k
    = match (if decide (Exists (λ p, id p = k) ps)
             then votes g !! k else None) with
      | Some v => Some v
      | None => acc !! k
      end).
  { induction ps as [|p ps IH]; intros acc; cbn [foldl].
    { by rewrite decide_False by (by intros ?%Exists_nil). }
    rewrite IH. destruct (decide (Exists _ ps)) as [Hex|Hex].
    - rewrite decide_True by (by right).
      destruct (votes g !! k) as [v|] eqn:Hk; [done|].
      destruct (votes g !! id p) as [v|] eqn:Hp; [|done].
      rewrite lookup_insert_ne; [done|]. intros Heq. congruence.
    - destruct (decide (id p = k)) as [<-|Hne].
      + rewrite decide_True by (by left).
        destruct (votes g !! id p) as [v|] eqn:Hp; [|done].
        by rewrite lookup_insert_eq.
      + rewrite decide_False by (by intros [?|?]%Exists_cons).
        destruct (votes g !! id p) as [v|] eqn:Hp; [|done].
        by rewrite lookup_insert_ne. }
  rewrite Hgen, lookup_empty. by destruct (if decide _ then _ else _).
Qed.

(** X10: getTeamVoteCounts returns 7 counts; for a playable column the
    count is the number of recorded votes for it that belong to roster
    players of the given team, which never exceeds the count of all
    recorded votes for that column, and a column that is not playable
    counts 0. *)
Theorem getTeamVoteCounts_spec g players t c :
  length (getTeamVoteCounts g players t) = 7%nat
  ∧ (isValidMove (board g) c = true →
     votesFor (getTeamVoteCounts g players t) c
     = Z.of_nat (teamVotersFor g players t c)
     ∧ (teamVotersFor g players t c ≤ votersFor (votes g) c)%nat)
  ∧ (isValidMove (board g) c = false →
     votesFor (getTeamVoteCounts g players t) c = 0).
Proof.
  unfold getTeamVoteCounts.
  set (teamVotes := collectTeamVotes g (filter (λ p, team p = t) players)).
  destruct (tallyVotes_facts teamVotes (validColumns (board g)))
    as (Hlen & _ & Hcount & Hzero).
  split; [done|]. split.
  - intros Hv.
    assert (Hteam : filter (λ kv : string * Z, kv.2 = c) teamVotes
              = filter (λ kv : string * Z,
                   kv.2 = c ∧ Exists (λ p, team p = t ∧ id p = kv.1) players)
                  (votes g)).
    { apply map_filter_strong_ext. intros k v. cbn.
      subst teamVotes. rewrite collectTeamVotes_lookup.
      assert (Exists (λ p, id p = k) (filter (λ p, team p = t) players)
              ↔ Exists (λ p, team p = t ∧ id p = k) players) as Hex.
      { rewrite !Exists_exists. split.
        - intros (p & [? ?]%list_elem_of_filter & ?). by exists p.
        - intros (p & ? & ? & ?). exists p.
          split; [by apply list_elem_of_filter|done]. }
      destruct (decide (Exists _ (filter _ players))) as [Hd|Hd].
      - apply Hex in Hd. tauto.
      - split; [by intros [_ ?]|]. intros [[_ Hd'%Hex] _]. done. }
    split.
    + rewrite Hcount.
      * unfold votersFor, teamVotersFor. by rewrite Hteam.
      * split; [by apply validColumns_spec|].
        by apply isValidMove_true in Hv as [? _].
    + unfold teamVotersFor, votersFor. apply map_subseteq_size.
      apply map_subseteq_spec. intros k v.
      rewrite !map_lookup_filter_Some. cbn. tauto.
  - intros Hv. apply Hzero. intros [Hin%validColumns_spec _]. congruence.
Qed.

Lemma creditPlayer_creditedFrom g chosen p :
  creditedFrom g chosen p (creditPlayer g chosen p).
Proof.
  unfold creditedFrom, creditPlayer.
  destruct (decide (team p = currentTeam g)) as [Ht|Ht];
    destruct (decide (votes g !! id p = Some chosen)) as [Hv|Hv].
  - rewrite !bool_decide_eq_true_2 by done. cbn. done.
  - rewrite (bool_decide_eq_false_2 (votes g !! id p = Some chosen)) by done.
    rewrite andb_false_r, bool_decide_eq_false_2 by tauto.
    repeat split; lia.
  - rewrite (bool_decide_eq_false_2 (team p = currentTeam g)) by done. cbn.
    rewrite bool_decide_eq_false_2 by tauto. repeat split; lia.
  - rewrite (bool_decide_eq_false_2 (team p = currentTeam g)) by done. cbn.
    rewrite bool_decide_eq_false_2 by tauto. repeat split; lia.
Qed.

(** X11: finishVoting keeps the roster in order and touches nothing
    of a player but matchingVotes: with a playable column, the counter
    grows by one exactly for the active-team players whose recorded
    vote is the chosen column; with none, the roster is returned as it
    was. *)
Theorem finishVoting_credits u tm g players :
  (validColumns (board g) ≠ [] →
   Forall2 (creditedFrom g (chosenBy u g)) players
           (finishVoting u tm g players).1.2)
  ∧ (validColumns (board g) = [] →
     (finishVoting u tm g players).1.2 = players).
Proof.
  split.
  - intros Hne.
    assert ((finishVoting u tm g players).1.2
            = creditPlayer g (chosenBy u g) <$> players) as ->.
    { unfold finishVoting, chosenBy.
      cbn [board set_endsAt set_perColumnCounts set_votes currentTeam votes].
      destruct (validColumns (board g)) as [|c0 l] eqn:Hvalid; [done|].
      cbn [length Nat.eqb].
      destruct (applyMove _ _ _) as [?|[? ?]]; [done|].
      cbn. destruct (win_winner _); [done|]. by destruct (isBoardFull _). }
    apply Forall2_fmap_r, Forall_Forall2_diag, Forall_forall.
    intros p _. apply creditPlayer_creditedFrom.
  - intros Hnil. by rewrite finishVoting_no_column.
Qed.
End Queries.

Section QueriesRuns.
Import GameEngine MajorityTurnDecider TurnManager TurnManagerQueries Sample.

Lemma hasAllTeamVoted_spec_witness :
  hasAllTeamVoted (castVote opened.1 opened.2 roster "p1" 3).2
                  [mkPlayer "p1" "Player1" red false 0 true;
                   mkPlayer "p2" "Player2" red false 0 false] = true.
Proof.
  assert (Hvote : castVote opened.1 opened.2
                    [mkPlayer "p1" "Player1" red false 0 true;
                     mkPlayer "p2" "Player2" red false 0 false] "p1" 3
                  = accepted opened.2 "p1" 3) by reflexivity.
  destruct (hasAllTeamVoted_spec opened.1 opened.2
              [mkPlayer "p1" "Player1" red false 0 true;
               mkPlayer "p2" "Player2" red false 0 false] "p1" 3)
    as (_ & _ & Hafter).
  apply Hafter; [exact Hvote|].
  intros p Hp _ Hconn Hne.
  repeat (apply elem_of_cons in Hp as [->|Hp]; [done|]).
  by apply elem_of_nil in Hp.
Defined.

Lemma getTeamVoteCounts_spec_witness :
  votesFor (getTeamVoteCounts voted roster red) 3
  = Z.of_nat (teamVotersFor voted roster red 3)
  ∧ votesFor (getTeamVoteCounts voted roster yellow) 3 = 0.
Proof.
  split.
  - by apply (getTeamVoteCounts_spec voted roster red 3).
  - reflexivity.
Defined.

Lemma finishVoting_credits_witness :
  Forall2 (creditedFrom voted 3) roster
          (finishVoting half opened.1 voted roster).1.2.
Proof.
  apply (finishVoting_credits half opened.1 voted roster).
  vm_compute. discriminate.
Defined.
End QueriesRuns.

Section FakeClockFacts.
Import FakeClock.
Implicit Types (c : FakeClock.t) (l : list Timeout) (x y : Timeout).

Lemma insertByTime_Permutation x l : insertByTime x l ≡ₚ x :: l.
Proof.
  induction l as [|y l IH]; cbn; [done|].
  destruct (triggerTime x <=? triggerTime y); [done|].
  rewrite IH. apply Permutation_swap.
Qed.

Lemma sortByTime_Permutation l : sortByTime l ≡ₚ l.
Proof.
  induction l as [|x l IH]; cbn; [done|].
  by rewrite insertByTime_Permutation, IH.
Qed.

Lemma insertByTime_sorted x l :
  sortedByTime l → sortedByTime (insertByTime x l).
Proof.
  unfold sortedByTime. induction 1 as [|y l Hsorted IH Hall]; cbn.
  { repeat constructor. }
  destruct (Z.leb_spec (triggerTime x) (triggerTime y)).
  - constructor; [by constructor|]. constructor; [done|].
    eapply Forall_impl; [done|]. cbn. intros z ?. lia.
  - constructor; [done|].
    rewrite insertByTime_Permutation. constructor; [lia|done].
Qed.

Lemma sortByTime_sorted l : sortedByTime (sortByTime l).
Proof.
  induction l as [|x l IH]; cbn; [constructor|].
  by apply insertByTime_sorted.
Qed.

(** Inserting [y] in front of a queue whose other entries are not
    earlier than [y]: once the entries of handle [h] are filtered out,
    [y] comes first. *)
Lemma filter_insertByTime (h : Z) y l :
  timeoutId y ≠ h →
  Forall (λ z, timeoutId z ≠ h → triggerTime y ≤ triggerTime z) l →
  filter (λ z, timeoutId z ≠ h) (insertByTime y l)
  = y :: filter (λ z, timeoutId z ≠ h) l.
Proof.
  intros Hy. induction 1 as [|z l Hz Hall IH]; cbn [insertByTime].
  { by rewrite filter_cons_True. }
  destruct (Z.leb_spec (triggerTime y) (triggerTime z)).
  - by rewrite filter_cons_True.
  - destruct (decide (timeoutId z = h)) as [Hzh|Hzh]; [|lia].
    rewrite !(filter_cons_False _ z) by (by intros ?). apply IH.
Qed.

Lemma filter_sort_appended (h : Z) x l :
  timeoutId x = h → Forall (λ z, timeoutId z ≠ h) l → sortedByTime l →
  filter (λ z, timeoutId z ≠ h) (sortByTime (l ++ [x])) = l.
Proof.
  intros Hx Hl Hsorted. unfold sortByTime. rewrite foldr_app. cbn [foldr].
  change (insertByTime x []) with [x].
  induction Hsorted as [|y l Hsorted IH Hall]; cbn [foldr].
  { by rewrite filter_cons_False by (by intros ?). }
  apply Forall_cons in Hl as [Hy Hl].
  rewrite filter_insertByTime; [by rewrite IH|done|].
  apply Forall_forall. intros z Hz Hzh.
  assert (z ∈ foldr insertByTime [x] l) as Hin by done.
  assert (foldr insertByTime [x] l ≡ₚ x :: l) as Hperm.
  { clear. induction l as [|y l IH]; cbn; [done|].
    rewrite insertByTime_Permutation, IH. apply Permutation_swap. }
  rewrite Hperm in Hin. apply elem_of_cons in Hin as [->|Hin]; [done|].
  by eapply Forall_forall in Hall.
Qed.

Lemma Forall_filter_keep {A} (P Q : A → Prop) `{∀ a, Decision (Q a)}
  (l : list A) : Forall P l → Forall P (filter Q l).
Proof.
  rewrite !Forall_forall. intros Hall a [_ Ha]%list_elem_of_filter. auto.
Qed.

Lemma fresh_clockInv : clockInv fresh.
Proof. split; cbn; constructor. Qed.

Lemma setTimeout_Permutation c cb delay :
  timeouts (setTimeout c cb delay).1
  ≡ₚ mkTimeout cb (currentTime c + delay) (nextTimeoutId c) :: timeouts c.
Proof.
  cbn. rewrite sortByTime_Permutation. by rewrite Permutation_app_comm.
Qed.

Lemma not_queued_next c : clockInv c → ¬ queued c (nextTimeoutId c).
Proof.
  intros [_ _ Hbelow] (z & Hz & Hin)%list_elem_of_fmap.
  eapply Forall_forall in Hbelow; [|done]. cbn in Hbelow. lia.
Qed.

Lemma setTimeout_clockInv c cb delay :
  clockInv c → clockInv (setTimeout c cb delay).1.
Proof.
  intros Hinv. pose proof (not_queued_next c Hinv) as Hfresh.
  destruct Hinv as [Hsorted Hdistinct Hbelow].
  pose proof (setTimeout_Permutation c cb delay) as Hperm.
  split.
  - apply sortByTime_sorted.
  - rewrite Hperm. cbn. by apply NoDup_cons.
  - rewrite Hperm. constructor; [cbn; lia|].
    eapply Forall_impl; [done|]. cbn. intros z ?. lia.
Qed.

Lemma clearTimeout_clockInv c h : clockInv c → clockInv (clearTimeout c h).
Proof.
  intros [Hsorted Hdistinct Hbelow]. split; cbn.
  - unfold sortedByTime in *. clear Hdistinct Hbelow.
    induction Hsorted as [|z l Hs IH Hall]; [constructor|].
    rewrite filter_cons. destruct (decide _); [|apply IH].
    constructor; [apply IH|]. by apply Forall_filter_keep.
  - eapply sublist_NoDup; [done|]. apply fmap_sublist, sublist_filter.
  - by apply Forall_filter_keep.
Qed.

(** X12: setTimeout hands out the next id and queues one entry at
    [currentTime + delay], keeping every entry already queued; on a
    queue ordered by trigger time with distinct ids below the next id
    (as the queue of a new clock is), the queue stays so, and the
    handle returned was not queued before. *)
Theorem setTimeout_queue c cb delay :
  let c' := (setTimeout c cb delay).1 in
  let h := (setTimeout c cb delay).2 in
  h = nextTimeoutId c
  ∧ currentTime c' = currentTime c
  ∧ timeouts c' ≡ₚ mkTimeout cb (currentTime c + delay) h :: timeouts c
  ∧ sortedByTime (timeouts c')
  ∧ (clockInv c → clockInv c' ∧ ¬ queued c h ∧ queued c' h).
Proof.
  cbv zeta. split; [done|]. split; [done|].
  split; [apply setTimeout_Permutation|].
  split; [apply sortByTime_sorted|].
  intros Hinv. split; [by apply setTimeout_clockInv|].
  split; [by apply not_queued_next|].
  unfold queued. rewrite setTimeout_Permutation. cbn. left.
Qed.

(** X13: clearTimeout removes the entries of the given handle and
    nothing else: a handle that is not queued leaves the clock as it
    was, a cleared handle is no longer queued and every other one
    stays; an ordered queue with distinct ids stays so. *)
Theorem clearTimeout_queue c h :
  timeouts (clearTimeout c h) = filter (λ x, timeoutId x ≠ h) (timeouts c)
  ∧ ¬ queued (clearTimeout c h) h
  ∧ (∀ h', h' ≠ h → queued (clearTimeout c h) h' ↔ queued c h')
  ∧ (¬ queued c h → clearTimeout c h = c)
  ∧ (clockInv c → clockInv (clearTimeout c h)).
Proof.
  split; [done|]. unfold queued. cbn.
  split; [|split; [|split]].
  - intros (z & Hz & [? _]%list_elem_of_filter)%list_elem_of_fmap. done.
  - intros h' Hne. rewrite !list_elem_of_fmap. split.
    + intros (z & ? & [_ ?]%list_elem_of_filter). by exists z.
    + intros (z & -> & ?). exists z. split; [done|].
      by apply list_elem_of_filter.
  - intros Hnot. destruct c as [now l next]. unfold clearTimeout. cbn in *.
    f_equal. induction l as [|z l IH]; [done|].
    rewrite filter_cons_True.
    + f_equal. apply IH. intros Hin. apply Hnot. by right.
    + intros Hz. apply Hnot. rewrite <-Hz. left.
  - apply clearTimeout_clockInv.
Qed.

(** X14: cancelling a timeout right after scheduling it gives back
    the queue as it was; only the id counter has moved on. *)
Theorem clearTimeout_setTimeout c cb delay :
  clockInv c →
  clearTimeout (setTimeout c cb delay).1 (setTimeout c cb delay).2
  = mk (currentTime c) (timeouts c) (nextTimeoutId c + 1).
Proof.
  intros [Hsorted Hdistinct Hbelow]. unfold clearTimeout, setTimeout. cbn.
  f_equal. apply filter_sort_appended; [done| |done].
  eapply Forall_impl; [done|]. cbn. intros z ?. lia.
Qed.

Lemma setTimeout_queue_witness :
  clockInv (setTimeout fresh NotifyDeadline 5000).1
  ∧ ¬ queued fresh 1
  ∧ queued (setTimeout fresh NotifyDeadline 5000).1 1.
Proof.
  by apply (setTimeout_queue fresh NotifyDeadline 5000), fresh_clockInv.
Defined.

Lemma clearTimeout_queue_witness :
  clockInv (clearTimeout (setTimeout fresh NotifyDeadline 5000).1 1).
Proof.
  apply (clearTimeout_queue (setTimeout fresh NotifyDeadline 5000).1 1).
  apply setTimeout_clockInv, fresh_clockInv.
Defined.

Lemma clearTimeout_setTimeout_witness :
  clearTimeout (setTimeout fresh NotifyDeadline 5000).1
               (setTimeout fresh NotifyDeadline 5000).2
  = mk 0 [] 2.
Proof.
  apply (clearTimeout_setTimeout fresh NotifyDeadline 5000), fresh_clockInv.
Defined.
End FakeClockFacts.

Section GameEnd.
Import GameEngine MajorityTurnDecider TurnManager.
Context {C : Type} `{IClock C}.

(** X15: when finishVoting reports that a move ended the game, team
    and round stay as they were and the result is either a win of the
    team that moved, with a line of four of its pieces that is really
    on the new board, or a draw on a board that isBoardFull reports
    full. *)
Theorem finishVoting_game_end u (tm : TurnManager.t C) g players :
  unitInterval u → validColumns (board g) ≠ [] →
  gameEnded (finishVoting u tm g players).2 = true →
  let g' := (finishVoting u tm g players).1.1.2 in
  currentTeam g' = currentTeam g ∧ round g' = round g
  ∧ ((∃ line,
        result g' = Some (mkResult (Some (currentTeam g)) None (Some line))
        ∧ fourInLine (board g') (currentTeam g) line)
     ∨ (result g' = Some (mkResult None (Some true) None)
        ∧ isBoardFull (board g') = true)).
Proof.
  intros Hu Hne.
  assert (Hin : isValidMove (board g) (chosenBy u g) = true)
    by (apply validColumns_spec; by apply chosenBy_valid).
  destruct (applyMove_valid (board g) (chosenBy u g) (currentTeam g) Hin)
    as (r & _ & Happly).
  rewrite (finishVoting_applied u tm g players _ r Hne Happly).
  cbv zeta.
  set (b' := withCell (board g) r (chosenBy u g) (currentTeam g)).
  set (move := mkLastMove (chosenBy u g) r (currentTeam g)).
  destruct (checkLines_sound b' (currentTeam g) (chosenBy u g) r directions)
    as [Hnone|(line & Hwin & _ & Hline)]; [done| |].
  - unfold checkWin. cbn [lastCol lastRow lastTeam move]. rewrite Hnone. cbn.
    destruct (isBoardFull b') eqn:Hfull; cbn; [|done].
    intros _. split; [done|]. split; [done|]. by right.
  - unfold checkWin. cbn [lastCol lastRow lastTeam move]. rewrite Hwin. cbn.
    intros _. split; [done|]. split; [done|]. left. by exists line.
Qed.
End GameEnd.

Section GameEndRuns.
Import GameEngine TurnManager Sample Sample2.

Lemma finishVoting_game_end_witness :
  let g' := (finishVoting half opened.1 nearWin roster).1.1.2 in
  currentTeam g' = red ∧ round g' = 7
  ∧ ((∃ line, result g' = Some (mkResult (Some red) None (Some line))
              ∧ fourInLine (board g') red line)
     ∨ (result g' = Some (mkResult None (Some true) None)
        ∧ isBoardFull (board g') = true)).
Proof.
  apply (finishVoting_game_end half opened.1 nearWin roster).
  - exact half_unit.
  - vm_compute. discriminate.
  - vm_compute. reflexivity.
Defined.
End GameEndRuns.

Section ManagerOnFakeClock.
Import TurnManager.
Implicit Types (tm : TurnManager.t FakeClock.t) (g : GameState).

Lemma othersOf_cleared tm h :
  currentTimeout tm = Some h →
  FakeClock.timeouts (FakeClock.clearTimeout (clock tm) h) = othersOf tm.
Proof.
  intros Hh. unfold othersOf. rewrite Hh. cbn.
  apply list_filter_iff. intros x. split; [congruence|].
  intros Hne Heq. apply Hne. by rewrite Heq.
Qed.

Lemma othersOf_none tm :
  currentTimeout tm = None → othersOf tm = FakeClock.timeouts (clock tm).
Proof.
  intros Hh. unfold othersOf. rewrite Hh.
  induction (FakeClock.timeouts (clock tm)) as [|x l IH]; [done|].
  by rewrite filter_cons_True, IH.
Qed.

Lemma cancelTimeout_clock tm :
  currentTimeout tm ≠ Some 0 →
  currentTimeout (cancelTimeout tm) = None
  ∧ FakeClock.timeouts (clock (cancelTimeout tm)) = othersOf tm
  ∧ FakeClock.currentTime (clock (cancelTimeout tm))
    = FakeClock.currentTime (clock tm)
  ∧ FakeClock.nextTimeoutId (clock (cancelTimeout tm))
    = FakeClock.nextTimeoutId (clock tm)
  ∧ (clockInv (clock tm) → clockInv (clock (cancelTimeout tm))).
Proof.
  intros Hnz. unfold cancelTimeout.
  destruct (currentTimeout tm) as [h|] eqn:Hh.
  - assert (h ≠ 0) by congruence.
    cbn. destruct (Z.eqb_spec h 0); [done|]. cbn.
    split; [done|]. split; [by apply othersOf_cleared|].
    split; [done|]. split; [done|]. apply clearTimeout_clockInv.
  - split; [done|]. split; [by rewrite othersOf_none|]. done.
Qed.

Lemma soleOwner_clockInv tm :
  soleOwner tm →
  clockInv (clock tm) ∧ currentTimeout tm ≠ Some 0 ∧ othersOf tm = [].
Proof.
  intros [Hnext Hq]. destruct (currentTimeout tm) as [h|] eqn:Hh.
  - destruct Hq as (x & Hx & Hid & Hrange).
    split; [|split; [intros [= ->]; lia|]].
    + split; rewrite Hx; cbn.
      * repeat constructor.
      * repeat constructor. by intros ?%elem_of_nil.
      * repeat constructor. lia.
    + unfold othersOf. rewrite Hh, Hx.
      rewrite filter_cons_False; [done|]. intros Hne. apply Hne. by rewrite Hid.
  - split; [|split; [done|]].
    + split; rewrite Hq; constructor.
    + by rewrite othersOf_none, Hq.
Qed.

(** X16: startVoting sets the deadline to the clock's time plus
    timerSec * 1000 and leaves the rest of the game state, the votes
    included, as it was. On a fake clock with a well-formed queue it
    cancels the manager's pending deadline, if any, and queues exactly
    one new timeout, due at the deadline, whose handle it keeps; the
    timeouts of others stay queued. *)
Theorem startVoting_schedules tm g players timerSec :
  clockInv (clock tm) → currentTimeout tm ≠ Some 0 →
  let tm' := (startVoting tm g players timerSec).1 in
  let deadline := FakeClock.currentTime (clock tm) + timerSec * 1000 in
  (startVoting tm g players timerSec).2 = set_endsAt g (Some deadline)
  ∧ currentTimeout tm' = Some (FakeClock.nextTimeoutId (clock tm))
  ∧ FakeClock.timeouts (clock tm')
    ≡ₚ FakeClock.mkTimeout NotifyDeadline deadline
         (FakeClock.nextTimeoutId (clock tm)) :: othersOf tm
  ∧ clockInv (clock tm')
  ∧ (soleOwner tm → soleOwner tm').
Proof.
  intros Hinv Hnz. cbv zeta.
  destruct (cancelTimeout_clock tm Hnz) as (Hcur & Hq & Hnow & Hnext & Hkeep).
  specialize (Hkeep Hinv).
  assert (Heq : startVoting tm g players timerSec
            = (mk (Some (FakeClock.nextTimeoutId (clock (cancelTimeout tm))))
                  (FakeClock.setTimeout (clock (cancelTimeout tm))
                     NotifyDeadline (timerSec * 1000)).1,
               set_endsAt g (Some (FakeClock.currentTime (clock tm)
                                   + timerSec * 1000))))
    by reflexivity.
  rewrite Heq. cbn [fst snd currentTimeout clock].
  split; [done|]. split; [by rewrite Hnext|].
  assert (Hperm : FakeClock.timeouts
              (FakeClock.setTimeout (clock (cancelTimeout tm)) NotifyDeadline
                 (timerSec * 1000)).1
            ≡ₚ FakeClock.mkTimeout NotifyDeadline
                 (FakeClock.currentTime (clock tm) + timerSec * 1000)
                 (FakeClock.nextTimeoutId (clock tm)) :: othersOf tm).
  { by rewrite setTimeout_Permutation, Hq, Hnow, Hnext. }
  split; [done|]. split; [by apply setTimeout_clockInv|].
  intros Hsole. destruct (soleOwner_clockInv tm Hsole) as (_ & _ & Hnone).
  destruct Hsole as [Hone _].
  split; [cbn; lia|]. cbn [currentTimeout].
  rewrite Hnone in Hperm. apply Permutation_singleton_r in Hperm.
  eexists. split; [exact Hperm|]. cbn. rewrite Hnext. split; [done|lia].
Qed.

(** X17: on a fake clock with a well-formed queue, finishVoting
    cancels the manager's pending deadline and forgets its handle; the
    timeouts of others stay queued, and when the deadline was the only
    entry the queue is left empty. *)
Theorem finishVoting_cancels_deadline u tm g players :
  clockInv (clock tm) → currentTimeout tm ≠ Some 0 →
  let tm' := (finishVoting u tm g players).1.1.1 in
  currentTimeout tm' = None
  ∧ FakeClock.timeouts (clock tm') = othersOf tm
  ∧ clockInv (clock tm')
  ∧ (soleOwner tm → soleOwner tm' ∧ FakeClock.timeouts (clock tm') = []).
Proof.
  intros Hinv Hnz. cbv zeta.
  destruct (finishVoting_closes u tm g players) as [-> _].
  destruct (cancelTimeout_clock tm Hnz) as (Hcur & Hq & Hnow & Hnext & Hkeep).
  split; [done|]. split; [done|]. split; [by apply Hkeep|].
  intros Hsole. destruct (soleOwner_clockInv tm Hsole) as (_ & _ & Hnone).
  destruct Hsole as [Hone _]. rewrite Hq, Hnone.
  split; [|done]. split; [lia|]. by rewrite Hcur, Hq.
Qed.

Lemma startVoting_schedules_witness :
  let tm' := (startVoting Sample.opened.1 Sample.voted Sample.roster 10).1 in
  currentTimeout tm' = Some 2
  ∧ FakeClock.timeouts (clock tm')
    ≡ₚ [FakeClock.mkTimeout NotifyDeadline 10000 2]
  ∧ soleOwner tm'.
Proof.
  assert (Hsole : soleOwner Sample.opened.1).
  { split; [cbn; lia|]. eexists. split; [reflexivity|]. cbn. lia. }
  destruct (soleOwner_clockInv _ Hsole) as (Hinv & Hnz & _).
  destruct (startVoting_schedules Sample.opened.1 Sample.voted Sample.roster
              10 Hinv Hnz) as (_ & Hcur & Hperm & _ & Hkeep).
  split; [exact Hcur|]. split; [exact Hperm|]. by apply Hkeep.
Defined.

Lemma finishVoting_cancels_deadline_witness :
  let tm' := (finishVoting Sample.half Sample.opened.1 Sample.voted
                           Sample.roster).1.1.1 in
  currentTimeout tm' = None ∧ FakeClock.timeouts (clock tm') = [].
Proof.
  assert (Hsole : soleOwner Sample.opened.1).
  { split; [cbn; lia|]. eexists. split; [reflexivity|]. cbn. lia. }
  destruct (soleOwner_clockInv _ Hsole) as (Hinv & Hnz & _).
  destruct (finishVoting_cancels_deadline Sample.half Sample.opened.1
              Sample.voted Sample.roster Hinv Hnz) as (Hcur & _ & _ & Hkeep).
  split; [exact Hcur|]. by apply Hkeep.
Defined.
End ManagerOnFakeClock.

Section DeadlineFiring.
Import TurnManager Deadline.
Context {H U : Type}.
Variable invoke : H → string → World H U → World H U.
Variable effect : H → string → U → U.
(** The completion callback changes nothing of the manager and its
    clock: it acts on the caller's own state only. *)
Hypothesis invoke_outside : ∀ h code w,
  invoke h code w
  = mkWorld (manager w) (completionCallback w) (currentRoomCode w)
            (effect h code (outside w)).

Lemma startVoting_sole (tm : TurnManager.t FakeClock.t) g players timerSec :
  soleOwner tm →
  TurnManager.startVoting tm g players timerSec
  = (TurnManager.mk
       (Some (FakeClock.nextTimeoutId (clock tm)))
       (FakeClock.mk
          (FakeClock.currentTime (clock tm))
          [FakeClock.mkTimeout NotifyDeadline
             (FakeClock.currentTime (clock tm) + timerSec * 1000)
             (FakeClock.nextTimeoutId (clock tm))]
          (FakeClock.nextTimeoutId (clock tm) + 1)),
     set_endsAt g (Some (FakeClock.currentTime (clock tm) + timerSec * 1000))).
Proof.
  intros Hsole. destruct (soleOwner_clockInv tm Hsole) as (_ & Hnz & Hnone).
  destruct (cancelTimeout_clock tm Hnz) as (_ & Hq & Hnow & Hnext & _).
  rewrite Hnone in Hq.
  assert (Heq : TurnManager.startVoting tm g players timerSec
            = (TurnManager.mk
                 (Some (FakeClock.nextTimeoutId (clock (cancelTimeout tm))))
                 (FakeClock.setTimeout (clock (cancelTimeout tm))
                    NotifyDeadline (timerSec * 1000)).1,
               set_endsAt g (Some (FakeClock.currentTime (clock tm)
                                   + timerSec * 1000))))
    by reflexivity.
  rewrite Heq. unfold FakeClock.setTimeout. cbn [fst].
  by rewrite Hq, Hnow, Hnext.
Qed.

Lemma tick_idle (fuel : nat) (w : World H U) ms :
  (1 ≤ fuel)%nat → FakeClock.timeouts (clock (manager w)) = [] →
  ∃ w', tick invoke fuel w ms = Some w'
        ∧ outside w' = outside w
        ∧ currentTimeout (manager w') = currentTimeout (manager w)
        ∧ FakeClock.timeouts (clock (manager w')) = [].
Proof.
  intros Hfuel Hq. destruct fuel as [|k]; [lia|].
  unfold tick. cbn [tickLoop]. rewrite Hq. cbn.
  eexists. split; [done|]. cbn. by rewrite Hq.
Qed.

(** X18: for a completion callback that leaves the manager, its
    clock and the registered callback and room code as they are (it
    acts on state of its own only, as [invoke_outside] says), the
    deadline reaches the callback once. After startVoting on a
    manager that owns the only queued timeout, with such a callback
    and a non-empty room code registered, a tick that reaches the
    deadline runs the callback exactly once with the room code,
    clears the handle and empties the queue, and a further tick runs
    nothing; a tick that stops short of the deadline runs nothing and
    keeps the deadline pending; and after finishVoting no tick runs
    the callback. The loop of tick ends within two rounds. Nothing is
    said of a callback that starts a new window itself. *)
Theorem deadline_fires_once (w : World H U) g players timerSec
  (cb : H) (code : string) (fuel : nat) ms :
  soleOwner (manager w) →
  completionCallback w = Some cb → currentRoomCode w = Some code →
  code ≠ "" → (2 ≤ fuel)%nat →
  let w1 := (Deadline.startVoting w g players timerSec).1 in
  let g1 := (Deadline.startVoting w g players timerSec).2 in
  (timerSec * 1000 ≤ ms →
   ∃ w2, tick invoke fuel w1 ms = Some w2
     ∧ outside w2 = effect cb code (outside w)
     ∧ currentTimeout (manager w2) = None
     ∧ FakeClock.timeouts (clock (manager w2)) = []
     ∧ FakeClock.currentTime (clock (manager w2))
       = FakeClock.currentTime (clock (manager w)) + ms
     ∧ ∀ ms', ∃ w3, tick invoke fuel w2 ms' = Some w3
                    ∧ outside w3 = outside w2)
  ∧ (ms < timerSec * 1000 →
     ∃ w2, tick invoke fuel w1 ms = Some w2
       ∧ outside w2 = outside w
       ∧ currentTimeout (manager w2) = currentTimeout (manager w1)
       ∧ FakeClock.timeouts (clock (manager w2))
         = FakeClock.timeouts (clock (manager w1)))
  ∧ (∀ u ms',
       ∃ w2, tick invoke fuel
                  (Deadline.finishVoting u w1 g1 players).1.1.1 ms'
             = Some w2
         ∧ outside w2 = outside w).
Proof.
  intros Hsole Hcb Hcode Hne Hfuel. cbv zeta.
  unfold Deadline.startVoting.
  rewrite (startVoting_sole (manager w) g players timerSec Hsole).
  cbn [fst snd].
  set (now0 := FakeClock.currentTime (clock (manager w))).
  set (next := FakeClock.nextTimeoutId (clock (manager w))).
  assert (Hlen : (String.length code =? 0)%nat = false).
  { apply Nat.eqb_neq. by destruct code. }
  destruct fuel as [|[|k]]; [lia|lia|].
  split; [|split].
  - intros Hdue. unfold tick. cbn [tickLoop manager setManager clock
                                    FakeClock.timeouts FakeClock.triggerTime
                                    FakeClock.currentTime].
    destruct (Z.leb_spec (now0 + timerSec * 1000) (now0 + ms)); [|lia].
    cbn. rewrite Hcb, Hcode, Hlen, invoke_outside. cbn.
    eexists. split; [done|]. cbn.
    split; [done|]. split; [done|]. split; [done|]. split; [done|].
    intros ms'. eexists. split; [done|]. done.
  - intros Hearly. unfold tick. cbn [tickLoop manager setManager clock
                                      FakeClock.timeouts FakeClock.triggerTime
                                      FakeClock.currentTime].
    destruct (Z.leb_spec (now0 + timerSec * 1000) (now0 + ms)); [lia|].
    cbn. eexists. split; [done|]. done.
  - intros u ms'. unfold Deadline.finishVoting.
    set (tm1 := TurnManager.mk (Some next)
                  (FakeClock.mk now0
                     [FakeClock.mkTimeout NotifyDeadline
                        (now0 + timerSec * 1000) next] (next + 1))).
    assert (Hsole1 : soleOwner tm1).
    { destruct Hsole as [? _]. split; [cbn; lia|].
      eexists. split; [reflexivity|]. cbn. fold next. lia. }
    destruct (soleOwner_clockInv tm1 Hsole1) as (_ & Hnz & Hnone).
    destruct (cancelTimeout_clock tm1 Hnz) as (_ & Hq & _).
    rewrite Hnone in Hq.
    change (manager (setManager w tm1)) with tm1.
    match goal with
    | |- context [TurnManager.finishVoting u tm1 ?gs ?ps] =>
        pose proof (finishVoting_closes u tm1 gs ps) as [Hclosed _];
        destruct (TurnManager.finishVoting u tm1 gs ps)
          as [[[tm2 g2] ps2] res2]
    end.
    cbn [fst snd] in Hclosed |- *. subst tm2.
    destruct (tick_idle (S (S k)) (setManager (setManager w tm1)
                                     (cancelTimeout tm1)) ms')
      as (w2 & -> & Hout & _); [lia|exact Hq|].
    by exists w2.
Qed.
End DeadlineFiring.

Section DeadlineRuns.
Import TurnManager Deadline Sample Sample2.

Lemma deadline_fires_once_witness :
  ∃ w2, tick count 5 (Deadline.startVoting world GameEngine.newGame roster 5).1 6000
        = Some w2
    ∧ outside w2 = 1%nat
    ∧ ∀ ms', ∃ w3, tick count 5 w2 ms' = Some w3 ∧ outside w3 = outside w2.
Proof.
  destruct (deadline_fires_once count (λ _ _ n, S n) (λ _ _ _, eq_refl)
              world GameEngine.newGame roster 5 tt "test-room" 5 6000)
    as (Hfire & _).
  - split; [cbn; lia|]. reflexivity.
  - reflexivity.
  - reflexivity.
  - discriminate.
  - lia.
  - destruct Hfire as (w2 & Htick & Hout & _ & _ & _ & Hagain); [lia|].
    exists w2. split; [exact Htick|]. split; [exact Hout|exact Hagain].
Defined.
End DeadlineRuns.

Section RoomCodes.
Import AccessControl.

Lemma charAt_chars (k : Z) :
  0 ≤ k < 32 →
  ∃ a, charAt chars k = String a "" ∧ codeChar a = true
       ∧ a ∈ String.list_ascii_of_string chars.
Proof.
  intros Hk. unfold charAt. destruct (Z.ltb_spec k 0); [lia|].
  assert (Z.to_nat k < 32)%nat as Hn by lia.
  generalize dependent (Z.to_nat k). intros n Hn.
  do 32 (destruct n as [|n];
         [eexists; split; [reflexivity|]; split; [reflexivity|];
          apply list_elem_of_In; cbn; intuition|]).
  lia.
Qed.

(** X19: whatever numbers Math.random returns, generateRoomCode
    builds a code of 6 characters, all taken from its alphabet (which
    has no 0, 1, I or O), and validateRoomCode accepts it. *)
Theorem generateRoomCode_valid (random : nat → Q) :
  (∀ i, unitInterval (random i)) →
  String.length (generateRoomCode random) = 6%nat
  ∧ validateRoomCode (generateRoomCode random) = true
  ∧ ∀ a, a ∈ String.list_ascii_of_string (generateRoomCode random) →
         a ∈ String.list_ascii_of_string chars.
Proof.
  intros Hrandom.
  assert (Hdraw : ∀ i, ∃ a,
    charAt chars (Qfloor (random i * inject_Z (Z.of_nat (String.length chars))))
    = String a "" ∧ codeChar a = true
    ∧ a ∈ String.list_ascii_of_string chars).
  { intros i. apply charAt_chars.
    apply (randomIndex_range (random i) 32); [apply Hrandom|lia]. }
  unfold generateRoomCode. cbn [seq foldl].
  destruct (Hdraw 0%nat) as (a0 & -> & Hc0 & Hin0).
  destruct (Hdraw 1%nat) as (a1 & -> & Hc1 & Hin1).
  destruct (Hdraw 2%nat) as (a2 & -> & Hc2 & Hin2).
  destruct (Hdraw 3%nat) as (a3 & -> & Hc3 & Hin3).
  destruct (Hdraw 4%nat) as (a4 & -> & Hc4 & Hin4).
  destruct (Hdraw 5%nat) as (a5 & -> & Hc5 & Hin5).
  assert (Hcode :
    (((((("" +:+ String a0 "") +:+ String a1 "") +:+ String a2 "")
       +:+ String a3 "") +:+ String a4 "") +:+ String a5 "")
    = String a0 (String a1 (String a2 (String a3 (String a4 (String a5 ""))))))
    by reflexivity.
  rewrite Hcode. split; [done|]. split.
  - unfold validateRoomCode. cbn -[codeChar].
    by rewrite Hc0, Hc1, Hc2, Hc3, Hc4, Hc5.
  - intros a Ha. cbn in Ha.
    repeat (apply elem_of_cons in Ha as [->|Ha]; [done|]).
    by apply elem_of_nil in Ha.
Qed.

Lemma generateRoomCode_valid_witness :
  validateRoomCode (generateRoomCode (λ _, Sample.half)) = true.
Proof.
  apply (generateRoomCode_valid (λ _, Sample.half)).
  intros _. exact half_unit.
Defined.
End RoomCodes.

(** * The room store and the room service *)

Section RoomStore.
Import InMemoryRoomStore.

(** X20: [updateRoom] never adds a room: on a code that is stored it
    replaces that room and leaves every other entry and the room
    count as they were; on any other code it throws and the code
    stays unknown. *)
Theorem updateRoom_keeps_codes (rooms : gmap string Rooms.Room)
  (code : string) (room : Rooms.Room) :
  match updateRoom rooms code room with
  | inr rooms' =>
      is_Some (getRoom rooms code)
      ∧ getRoom rooms' code = Some room
      ∧ (∀ other, other ≠ code → getRoom rooms' other = getRoom rooms other)
      ∧ getRoomCount rooms' = getRoomCount rooms
  | inl e => e = RoomNotFound code ∧ getRoom rooms code = None
  end.
Proof.
  unfold updateRoom, getRoom, getRoomCount. case_bool_decide as Hin.
  - split; [exact Hin|]. split; [apply lookup_insert_eq|].
    split; [intros other Hne; apply lookup_insert_ne; congruence|].
    apply map_size_insert_Some, Hin.
  - split; [reflexivity|]. apply eq_None_not_Some, Hin.
Qed.

End RoomStore.

Section RoomServiceProperties.
Import RoomService.
Context {C : Type} `{IClock C} `{IAccessControl}.
Variable toLowerCase : string → string.

Lemma updateThen_keyed {R} (svc : t C) (roomCode : string)
  (room0 room : Rooms.Room) (result : R) :
  roomStore svc !! roomCode = Some room0 →
  Rooms.code room = roomCode →
  updateThen svc roomCode room result
  = (setStore svc (<[roomCode := room]> (roomStore svc)), inr result).
Proof.
  intros Hin Hcode. unfold updateThen, InMemoryRoomStore.updateRoom.
  rewrite Hcode, lookup_insert_eq, bool_decide_eq_true_2 by eauto.
  now rewrite insert_insert_eq.
Qed.

Lemma keyed_insert (rooms : gmap string Rooms.Room) (k : string)
  (room : Rooms.Room) :
  keyed rooms → Rooms.code room = k → keyed (<[k := room]> rooms).
Proof.
  intros Hk Hcode k' r. destruct (decide (k' = k)) as [->|Hne].
  - rewrite lookup_insert_eq. congruence.
  - rewrite lookup_insert_ne by congruence. apply Hk.
Qed.

Lemma joinRoom_inv (svc svc' : t C) (playerId : string)
  (request : JoinRoomRequest) (out : Thrown + JoinRoomResponse) :
  keyed (roomStore svc) →
  joinRoom toLowerCase svc playerId request = (svc', out) →
  (refused out ∧ svc' = svc)
  ∨ ∃ room players' player,
      roomStore svc !! join_roomCode request = Some room
      ∧ valid (validateNickname (join_nickname request)) = true
      ∧ Joined toLowerCase playerId request room players' player
      ∧ svc' = setStore svc (<[join_roomCode request := set_players room players']>
                               (roomStore svc))
      ∧ out = inr (mkJoinRoomResponse
                     (sanitizeRoomForClient (set_players room players'))
                     player).
Proof.
  intros Hkeyed. unfold joinRoom, InMemoryRoomStore.getRoom.
  destruct (roomStore svc !! join_roomCode request) as [room|] eqn:Hroom;
    [|intros [= <- <-]; left; split; [unfold refused; eauto|done]].
  destruct (_ && _);
    [intros [= <- <-]; left; split; [unfold refused; eauto|done]|].
  destruct (_ && _);
    [intros [= <- <-]; left; split; [unfold refused; eauto|done]|].
  destruct (valid _) eqn:Hvalid; cbn [negb];
    [|intros [= <- <-]; left; split; [unfold refused; eauto|done]].
  destruct (list_find _ _) as [[i existing]|] eqn:Hfind.
  - case_bool_decide as Hid;
      [|intros [= <- <-]; left; split; [unfold refused; eauto|done]].
    rewrite (updateThen_keyed _ _ room) by (auto; cbn; eauto).
    intros [= <- <-]. right. eexists _, _, _.
    split; [reflexivity|]. split; [reflexivity|].
    split; [eapply Rejoined; eauto|]. done.
  - destruct (_ >=? _) eqn:Hfull;
      [intros [= <- <-]; left; split; [unfold refused; eauto|done]|].
    rewrite (updateThen_keyed _ _ room) by (auto; cbn; eauto).
    intros [= <- <-]. right. eexists _, _, _.
    split; [reflexivity|]. split; [reflexivity|].
    split; [eapply Entered; eauto; lia|]. done.
Qed.


Lemma notAdmin_false (r : Rooms.Room) (adminPlayerId : string) :
  notAdmin (Rooms.players r) adminPlayerId = false ↔ isAdminOf r adminPlayerId.
Proof.
  unfold notAdmin, isAdminOf.
  destruct (TurnManager.findPlayer _ _) as [admin|].
  - split.
    + intros Hadmin%negb_false_iff. eauto.
    + intros (a & [= <-] & ->). reflexivity.
  - split; [discriminate|]. intros (a & [=] & _).
Qed.

Lemma startGame_unknown (svc : t C) (roomCode adminPlayerId : string) :
  roomStore svc !! roomCode = None →
  startGame svc roomCode adminPlayerId
  = (svc, inl (RoomServiceError ROOM_NOT_FOUND "Room not found")).
Proof. unfold startGame, InMemoryRoomStore.getRoom. now intros ->. Qed.

Lemma startGame_inv (svc : t C) (roomCode adminPlayerId : string)
  (room : Rooms.Room) :
  keyed (roomStore svc) →
  roomStore svc !! roomCode = Some room →
  (canStart room adminPlayerId Rooms.lobby
   ∧ startGame svc roomCode adminPlayerId
     = (setStore svc (<[roomCode := startedRoom room (Rooms.players room)]>
                        (roomStore svc)), inr tt))
  ∨ (¬ canStart room adminPlayerId Rooms.lobby
     ∧ ∃ code message,
         startGame svc roomCode adminPlayerId
         = (svc, inl (RoomServiceError code message))).
Proof.
  intros Hkeyed Hroom. unfold startGame, InMemoryRoomStore.getRoom.
  rewrite Hroom. unfold canStart.
  destruct (notAdmin _ _) eqn:Hadmin.
  { right. split; [|eauto].
    intros (Ha%notAdmin_false & _); congruence. }
  apply notAdmin_false in Hadmin.
  case_bool_decide as Hstate.
  { right. split; [|eauto].
    intros (_ & ? & _); done. }
  destruct (Nat.ltb_spec (length (Rooms.players room)) 2) as [Hlen|Hlen].
  { right. split; [|eauto].
    intros (_ & _ & ?); lia. }
  left. split; [done|].
  rewrite (updateThen_keyed _ _ room); [done|done|]. cbn. eauto.
Qed.


Lemma findPlayer_fmap (f : Player → Player) (players : list Player)
  (playerId : string) :
  (∀ p, id (f p) = id p) →
  TurnManager.findPlayer (f <$> players) playerId
  = f <$> TurnManager.findPlayer players playerId.
Proof.
  intros Hid. unfold TurnManager.findPlayer.
  rewrite list_find_fmap.
  destruct (list_find (_ ∘ f) players) as [[i p]|] eqn:Hfind.
  - erewrite (list_find_ext _ (λ p, id p = playerId)) in Hfind
      by (intros; cbn; by rewrite Hid).
    by rewrite Hfind.
  - erewrite (list_find_ext _ (λ p, id p = playerId)) in Hfind
      by (intros; cbn; by rewrite Hid).
    by rewrite Hfind.
Qed.

Lemma startRematch_inv (svc : t C) (roomCode adminPlayerId : string)
  (room : Rooms.Room) :
  keyed (roomStore svc) →
  roomStore svc !! roomCode = Some room →
  (canStart room adminPlayerId Rooms.ended
   ∧ startRematch svc roomCode adminPlayerId
     = (setStore svc
          (<[roomCode := startedRoom room
               ((λ p, set_matchingVotes p 0) <$> Rooms.players room)]>
             (roomStore svc)), inr tt))
  ∨ (¬ canStart room adminPlayerId Rooms.ended
     ∧ ∃ code message,
         startRematch svc roomCode adminPlayerId
         = (svc, inl (RoomServiceError code message))).
Proof.
  intros Hkeyed Hroom. unfold startRematch, InMemoryRoomStore.getRoom.
  rewrite Hroom. unfold canStart.
  destruct (notAdmin _ _) eqn:Hadmin.
  { right. split; [|eauto].
    intros (Ha%notAdmin_false & _); congruence. }
  apply notAdmin_false in Hadmin.
  case_bool_decide as Hstate.
  { right. split; [|eauto].
    intros (_ & ? & _); done. }
  destruct (Nat.ltb_spec (length (Rooms.players room)) 2) as [Hlen|Hlen].
  { right. split; [|eauto].
    intros (_ & _ & ?); lia. }
  left. split; [done|].
  rewrite (updateThen_keyed _ _ room); [|done|cbn; eauto].
  set (room1 := set_players _ _).
  destruct (startGame_inv
              (setStore svc (<[roomCode := room1]> (roomStore svc)))
              roomCode adminPlayerId room1)
    as [(_ & ->)|(Hno & _)].
  - apply keyed_insert; [done|]. cbn. eauto.
  - cbn. apply lookup_insert_eq.
  - unfold setStore. cbn. by rewrite insert_insert_eq.
  - destruct Hno. split; [|split; [done|]].
    + destruct Hadmin as (admin & Hfind & Hflag).
      exists (set_matchingVotes admin 0). split; [|done].
      subst room1. unfold set_players, set_game, set_state.
      cbn [Rooms.players].
      rewrite findPlayer_fmap by done. by rewrite Hfind.
    + subst room1. cbn. by rewrite length_fmap.
Qed.

Lemma castVote_success (tm : TurnManager.t C) (g : GameState)
  (players : list Player) (playerId : string) (column : Z) :
  TurnManager.success (TurnManager.castVote tm g players playerId column).1
  = true →
  TurnManager.castVote tm g players playerId column
  = accepted g playerId column.
Proof.
  unfold TurnManager.castVote, accepted.
  repeat (case_match; try done).
Qed.

Lemma castVote_inv (svc svc' : t C) (roomCode playerId : string)
  (column : Z) (out : Thrown + unit) :
  keyed (roomStore svc) →
  castVote svc roomCode playerId column = (svc', out) →
  (refused out ∧ svc' = svc)
  ∨ ∃ room game turnManager,
      roomStore svc !! roomCode = Some room
      ∧ Rooms.state room = Rooms.active
      ∧ Rooms.game room = Some game
      ∧ turnManagers svc !! roomCode = Some turnManager
      ∧ TurnManager.castVote turnManager game (Rooms.players room)
                             playerId column
        = accepted game playerId column
      ∧ svc' = setStore svc
                 (<[roomCode := set_game room
                      (Some (accepted game playerId column).2)]>
                    (roomStore svc))
      ∧ out = inr tt.
Proof.
  intros Hkeyed. unfold castVote, InMemoryRoomStore.getRoom.
  destruct (roomStore svc !! roomCode) as [room|] eqn:Hroom;
    [|intros [= <- <-]; left; split; [unfold refused; eauto|done]].
  destruct (Rooms.game room) as [game|] eqn:Hgame;
    [|intros [= <- <-]; left; split; [unfold refused; eauto|done]].
  case_bool_decide as Hstate;
    [intros [= <- <-]; left; split; [unfold refused; eauto|done]|].
  destruct (turnManagers svc !! roomCode) as [turnManager|] eqn:Htm;
    [|intros [= <- <-]; left; split; [unfold refused; eauto|done]].
  destruct (TurnManager.castVote _ _ _ _ _) as [result game'] eqn:Hvote.
  destruct (TurnManager.success result) eqn:Hsucc; cbn [negb];
    [|intros [= <- <-]; left; split; [unfold refused; eauto|done]].
  rewrite (updateThen_keyed _ _ room); [|done|cbn; eauto].
  intros [= <- <-]. right. exists room, game, turnManager.
  pose proof (castVote_success turnManager game (Rooms.players room)
                playerId column) as Hacc.
  rewrite Hvote in Hacc. specialize (Hacc Hsucc).
  rewrite Hvote. repeat split; try done.
  by rewrite <-Hacc.
Qed.


Lemma startRematch_unknown (svc : t C) (roomCode adminPlayerId : string) :
  roomStore svc !! roomCode = None →
  startRematch svc roomCode adminPlayerId
  = (svc, inl (RoomServiceError ROOM_NOT_FOUND "Room not found")).
Proof. unfold startRematch, InMemoryRoomStore.getRoom. now intros ->. Qed.

Lemma createRoom_keyed (svc : t C) request roomCode adminToken hashed :
  keyed (roomStore svc) →
  keyed (roomStore (createRoom svc request roomCode adminToken hashed).1).
Proof. intros Hkeyed. cbn. apply keyed_insert; [exact Hkeyed|reflexivity]. Qed.

Lemma joinRoom_keyed (svc : t C) playerId request :
  keyed (roomStore svc) →
  keyed (roomStore (joinRoom toLowerCase svc playerId request).1).
Proof.
  intros Hkeyed.
  destruct (joinRoom toLowerCase svc playerId request) as [svc' out] eqn:Hjoin.
  apply joinRoom_inv in Hjoin; [|done].
  destruct Hjoin
    as [(_ & ->)|(room & players' & player & Hroom & _ & _ & -> & _)];
    [done|].
  cbn. apply keyed_insert; [done|]. cbn. eauto.
Qed.

Lemma startGame_keyed (svc : t C) roomCode adminPlayerId :
  keyed (roomStore svc) →
  keyed (roomStore (startGame svc roomCode adminPlayerId).1).
Proof.
  intros Hkeyed.
  destruct (roomStore svc !! roomCode) as [room|] eqn:Hroom;
    [|by rewrite startGame_unknown].
  destruct (startGame_inv svc roomCode adminPlayerId room)
    as [(_ & ->)|(_ & ? & ? & ->)]; [done|done| |done].
  cbn. apply keyed_insert; [done|]. cbn. eauto.
Qed.

Lemma startRematch_keyed (svc : t C) roomCode adminPlayerId :
  keyed (roomStore svc) →
  keyed (roomStore (startRematch svc roomCode adminPlayerId).1).
Proof.
  intros Hkeyed.
  destruct (roomStore svc !! roomCode) as [room|] eqn:Hroom;
    [|by rewrite startRematch_unknown].
  destruct (startRematch_inv svc roomCode adminPlayerId room)
    as [(_ & ->)|(_ & ? & ? & ->)]; [done|done| |done].
  cbn. apply keyed_insert; [done|]. cbn. eauto.
Qed.

Lemma castVote_keyed (svc : t C) roomCode playerId column :
  keyed (roomStore svc) →
  keyed (roomStore (castVote svc roomCode playerId column).1).
Proof.
  intros Hkeyed.
  destruct (castVote svc roomCode playerId column) as [svc' out] eqn:Hvote.
  apply castVote_inv in Hvote; [|done].
  destruct Hvote
    as [(_ & ->)|(room & game & tm & Hroom & _ & _ & _ & _ & -> & _)];
    [done|].
  cbn. apply keyed_insert; [done|]. cbn. eauto.
Qed.

Lemma keyed_fmap (f : Rooms.Room → Rooms.Room)
  (rooms : gmap string Rooms.Room) :
  (∀ r, Rooms.code (f r) = Rooms.code r) →
  keyed rooms → keyed (f <$> rooms).
Proof.
  intros Hcode Hkeyed k r. rewrite lookup_fmap.
  destruct (rooms !! k) as [r0|] eqn:Hr0; [|done].
  intros [= <-]. rewrite Hcode. eauto.
Qed.

(** X21: The service keeps every room stored under its own code:
    [createRoom], [joinRoom], [startGame], [startRematch] and
    [castVote] each lead from such a store to such a store, whatever
    their arguments and whether they return or throw. *)
Theorem service_keeps_rooms_keyed (svc : t C) :
  keyed (roomStore svc) →
  (∀ request roomCode adminToken hashed,
     keyed (roomStore (createRoom svc request roomCode adminToken hashed).1))
  ∧ (∀ playerId request,
       keyed (roomStore (joinRoom toLowerCase svc playerId request).1))
  ∧ (∀ roomCode adminPlayerId,
       keyed (roomStore (startGame svc roomCode adminPlayerId).1))
  ∧ (∀ roomCode adminPlayerId,
       keyed (roomStore (startRematch svc roomCode adminPlayerId).1))
  ∧ (∀ roomCode playerId column,
       keyed (roomStore (castVote svc roomCode playerId column).1)).
Proof.
  intros Hkeyed. repeat apply conj; intros.
  - by apply createRoom_keyed.
  - by apply joinRoom_keyed.
  - by apply startGame_keyed.
  - by apply startRematch_keyed.
  - by apply castVote_keyed.
Qed.

(** X22: In a store that holds every room under its own code, a call
    that the service refuses with a [RoomServiceError] changes
    nothing: after a refused [joinRoom], [startGame],
    [startRematch] or [castVote] the store and the turn managers are
    what they were. For [startRematch] this includes the refusals of
    the [startGame] it ends with. *)
Theorem refusals_change_nothing (svc : t C) :
  keyed (roomStore svc) →
  (∀ playerId request svc' out,
     joinRoom toLowerCase svc playerId request = (svc', out) →
     refused out → svc' = svc)
  ∧ (∀ roomCode adminPlayerId svc' out,
       startGame svc roomCode adminPlayerId = (svc', out) →
       refused out → svc' = svc)
  ∧ (∀ roomCode adminPlayerId svc' out,
       startRematch svc roomCode adminPlayerId = (svc', out) →
       refused out → svc' = svc)
  ∧ (∀ roomCode playerId column svc' out,
       castVote svc roomCode playerId column = (svc', out) →
       refused out → svc' = svc).
Proof.
  intros Hkeyed. repeat apply conj.
  - intros playerId request svc' out Hjoin (code & message & ->).
    apply joinRoom_inv in Hjoin; [|done].
    by destruct Hjoin as [(_ & ->)|(? & ? & ? & _ & _ & _ & _ & [=])].
  - intros roomCode adminPlayerId svc' out Hstart (code & message & ->).
    destruct (roomStore svc !! roomCode) as [room|] eqn:Hroom;
      [|rewrite startGame_unknown in Hstart by done; congruence].
    destruct (startGame_inv svc roomCode adminPlayerId room)
      as [(_ & Heq)|(_ & ? & ? & Heq)]; [done|done| |];
      rewrite Heq in Hstart; congruence.
  - intros roomCode adminPlayerId svc' out Hstart (code & message & ->).
    destruct (roomStore svc !! roomCode) as [room|] eqn:Hroom;
      [|rewrite startRematch_unknown in Hstart by done; congruence].
    destruct (startRematch_inv svc roomCode adminPlayerId room)
      as [(_ & Heq)|(_ & ? & ? & Heq)]; [done|done| |];
      rewrite Heq in Hstart; congruence.
  - intros roomCode playerId column svc' out Hvote (code & message & ->).
    apply castVote_inv in Hvote; [|done].
    by destruct Hvote as [(_ & ->)|(? & ? & ? & _ & _ & _ & _ & _ & _ & [=])].
Qed.


(** X23: In a store that holds every room under its own code, a
    [joinRoom] that returns has let the caller in: the player
    it returns carries the caller's id, is connected and is among the
    players of the returned room; the returned room is the stored
    one without its password hash, which is also what [getRoom] then
    gives; no other room and no turn manager is touched. *)
Theorem joinRoom_accepts (svc svc' : t C) (playerId : string)
  (request : JoinRoomRequest) (response : JoinRoomResponse) :
  keyed (roomStore svc) →
  joinRoom toLowerCase svc playerId request = (svc', inr response) →
  Rooms.passwordHash (joined_room response) = None
  ∧ (∃ room, roomStore svc' !! join_roomCode request = Some room
             ∧ joined_room response = sanitizeRoomForClient room)
  ∧ getRoom svc' (join_roomCode request) = Some (joined_room response)
  ∧ joined_player response ∈ Rooms.players (joined_room response)
  ∧ id (joined_player response) = playerId
  ∧ connected (joined_player response) = true
  ∧ turnManagers svc' = turnManagers svc
  ∧ ∀ other, other ≠ join_roomCode request →
             roomStore svc' !! other = roomStore svc !! other.
Proof.
  intros Hkeyed Hjoin. apply joinRoom_inv in Hjoin; [|done].
  destruct Hjoin
    as [((? & ? & [=]) & _)
       |(room & players' & player & Hroom & _ & Hjoined & -> & [= ->])].
  cbn. split; [done|]. split.
  { eexists. split; [apply lookup_insert_eq|done]. }
  split.
  { unfold getRoom, InMemoryRoomStore.getRoom. cbn.
    by rewrite lookup_insert_eq. }
  split; [|split; [|split; [|split; [done|]]]].
  - destruct Hjoined as [i existing Hfind Hid|Hfind Hfull].
    + apply list_find_Some in Hfind as (Hi & _).
      apply list_elem_of_lookup. exists i.
      apply list_lookup_insert_eq. by eapply lookup_lt_Some.
    + apply elem_of_app. right. by apply list_elem_of_singleton.
  - by destruct Hjoined.
  - by destruct Hjoined.
  - intros other Hne. by rewrite lookup_insert_ne.
Qed.

Lemma teamCount_app (players : list Player) (p : Player) (t : Team) :
  teamCount (players ++ [p]) t
  = (teamCount players t + if decide (team p = t) then 1 else 0)%nat.
Proof.
  unfold teamCount. rewrite filter_app, length_app, filter_cons, filter_nil.
  by destruct (decide (team p = t)).
Qed.

Lemma teamCount_insert (players : list Player) (i : nat) (p p' : Player)
  (t : Team) :
  players !! i = Some p → team p' = team p →
  teamCount (<[i := p']> players) t = teamCount players t.
Proof.
  unfold teamCount. intros Hi Hteam.
  revert i Hi. induction players as [|q players IH]; intros [|i] Hi; try done.
  - cbn in Hi. injection Hi as ->. cbn [insert list_insert].
    rewrite !filter_cons, Hteam. by destruct (decide (team p = t)).
  - cbn in Hi. cbn [insert list_insert]. rewrite !filter_cons.
    destruct (decide (team q = t)); cbn; [f_equal|]; by apply IH.
Qed.

Lemma createRoom_roomInv (svc : t C) request roomCode adminToken hashed :
  (∀ k r, roomStore svc !! k = Some r → roomInv toLowerCase r) →
  ∀ k r,
    roomStore (createRoom svc request roomCode adminToken hashed).1 !! k
    = Some r →
    roomInv toLowerCase r.
Proof.
  intros Hinv k r. cbn. unfold InMemoryRoomStore.createRoom. cbn.
  destruct (decide (k = roomCode)) as [->|Hne];
    [|rewrite lookup_insert_ne by done; apply Hinv].
  rewrite lookup_insert_eq. intros [= <-].
  unfold roomInv, balanced, distinctNicknames, withinCapacity. cbn.
  split; [lia|]. split; [apply NoDup_nil_2|lia].
Qed.

(** X24: [joinRoom] keeps a room well formed: where every room is
    stored under its own code and every stored room
    has balanced teams (red as many players as yellow, or one more),
    nicknames that differ up to case, and no more players than its
    [maxPlayers], the same holds of every stored room after the call,
    for a new player as for a returning one. *)
Theorem joinRoom_keeps_room_invariants (svc : t C) (playerId : string)
  (request : JoinRoomRequest) :
  keyed (roomStore svc) →
  (∀ k r, roomStore svc !! k = Some r → roomInv toLowerCase r) →
  ∀ k r, roomStore (joinRoom toLowerCase svc playerId request).1 !! k = Some r →
         roomInv toLowerCase r.
Proof.
  intros Hkeyed Hinv k r.
  destruct (joinRoom toLowerCase svc playerId request) as [svc' out] eqn:Hjoin.
  apply joinRoom_inv in Hjoin; [|done].
  destruct Hjoin
    as [(_ & ->)|(room & players' & player & Hroom & _ & Hjoined & -> & _)];
    [apply Hinv|].
  cbn. destruct (decide (k = join_roomCode request)) as [->|Hne];
    [|rewrite lookup_insert_ne by done; apply Hinv].
  rewrite lookup_insert_eq. intros [= <-].
  destruct (Hinv _ _ Hroom) as (Hbal & Hnick & Hcap).
  unfold roomInv, balanced, distinctNicknames, withinCapacity, set_players in *.
  cbn [Rooms.players Rooms.settings].
  destruct Hjoined as [i existing Hfind Hid|Hfind Hfull].
  - apply list_find_Some in Hfind as (Hi & _).
    rewrite !(teamCount_insert _ _ existing) by done.
    split; [done|]. split; [|by rewrite length_insert].
    rewrite list_fmap_insert. cbn. rewrite list_insert_id; [done|].
    by rewrite list_lookup_fmap, Hi.
  - rewrite !teamCount_app. cbn [team]. split; [|split].
    + destruct (Nat.leb_spec (teamCount (Rooms.players room) red)
                             (teamCount (Rooms.players room) yellow));
        repeat (destruct (decide _)); try done; lia.
    + rewrite fmap_app. cbn. apply NoDup_app. split; [done|].
      split; [|apply NoDup_singleton].
      intros x Hx ->%list_elem_of_singleton.
      apply list_elem_of_fmap in Hx as (p & Heq & Hp).
      apply list_find_None in Hfind.
      rewrite Forall_forall in Hfind. by apply (Hfind p).
    + rewrite length_app. cbn. lia.
Qed.

(** X25: The first player to join a room that [createRoom] has just
    made without a password is let in under any valid nickname and
    any password, as its admin, on the red team, connected and with
    no matching votes; the room is in the lobby with this one player
    and has a turn manager with no deadline pending. This holds
    whatever the store held under that code before: [createRoom]
    replaces it. *)
Theorem createRoom_then_joinRoom (svc : t C) (request : CreateRoomRequest)
  (roomCode adminToken hashed playerId nick : string)
  (password : option string) :
  create_password request = None →
  valid (validateNickname nick) = true →
  let svc1 := (createRoom svc request roomCode adminToken hashed).1 in
  let player := mkPlayer playerId (sanitizeNickname nick) red true 0 true in
  ∃ svc2 room,
    joinRoom toLowerCase svc1 playerId
             (mkJoinRoomRequest roomCode nick password)
    = (svc2, inr (mkJoinRoomResponse room player))
    ∧ Rooms.players room = [player]
    ∧ Rooms.state room = Rooms.lobby
    ∧ getRoom svc2 roomCode = Some room
    ∧ getTurnManager svc2 roomCode = Some (TurnManager.mk None (clock svc)).
Proof.
  intros Hpw Hvalid svc1 player. subst svc1 player.
  unfold joinRoom, createRoom, InMemoryRoomStore.getRoom,
    InMemoryRoomStore.createRoom.
  cbn [fst roomStore join_roomCode join_nickname join_password Rooms.code].
  rewrite lookup_insert_eq, Hpw, Hvalid.
  cbn [truthyString Rooms.passwordHash andb negb Rooms.players list_find
       length Rooms.settings Rooms.maxPlayers].
  unfold updateThen, InMemoryRoomStore.updateRoom. cbn.
  rewrite lookup_insert_eq, bool_decide_eq_true_2 by eauto.
  eexists _, _. split; [reflexivity|]. cbn.
  split; [done|]. split; [done|]. split.
  - unfold getRoom, InMemoryRoomStore.getRoom. cbn.
    by rewrite lookup_insert_eq.
  - unfold getTurnManager. cbn. by rewrite lookup_insert_eq.
Qed.

(** X26: In a room stored under its own code, as every room of the
    store, [startGame] returns exactly when the caller
    is a player of the room flagged admin, the room is in the lobby
    and it has two players or more; it then stores the room as
    active with the game of [newGame], players and the other fields
    as they were, and leaves the other rooms alone. *)
Theorem startGame_starts (svc : t C) (roomCode adminPlayerId : string)
  (room : Rooms.Room) :
  keyed (roomStore svc) →
  roomStore svc !! roomCode = Some room →
  ((startGame svc roomCode adminPlayerId).2 = inr tt
   ↔ canStart room adminPlayerId Rooms.lobby)
  ∧ (canStart room adminPlayerId Rooms.lobby →
     roomStore (startGame svc roomCode adminPlayerId).1
     = <[roomCode := startedRoom room (Rooms.players room)]> (roomStore svc)
     ∧ getRoom (startGame svc roomCode adminPlayerId).1 roomCode
       = Some (sanitizeRoomForClient
                 (startedRoom room (Rooms.players room)))).
Proof.
  intros Hkeyed Hroom.
  destruct (startGame_inv svc roomCode adminPlayerId room)
    as [(Hcan & ->)|(Hno & ? & ? & ->)]; [done|done| |].
  - split; [done|]. intros _. cbn. split; [done|].
    unfold getRoom, InMemoryRoomStore.getRoom. cbn.
    by rewrite lookup_insert_eq.
  - split; [split; [done|by intros ?]|]. by intros ?.
Qed.

(** X27: In a store that holds every room under its own code, from a
    room whose game has ended, [startRematch] called by
    the admin with two players or more returns, and the stored room
    is then active with the game of [newGame] and the same players
    in the same order, each with [matchingVotes] back at 0 and its
    other fields as they were. *)
Theorem startRematch_restarts (svc : t C) (roomCode adminPlayerId : string)
  (room : Rooms.Room) :
  keyed (roomStore svc) →
  roomStore svc !! roomCode = Some room →
  canStart room adminPlayerId Rooms.ended →
  ∃ svc' room',
    startRematch svc roomCode adminPlayerId = (svc', inr tt)
    ∧ roomStore svc' !! roomCode = Some room'
    ∧ Rooms.state room' = Rooms.active
    ∧ Rooms.game room' = Some GameEngine.newGame
    ∧ Forall2 (λ p p', p' = set_matchingVotes p 0 ∧ matchingVotes p' = 0)
              (Rooms.players room) (Rooms.players room')
    ∧ Rooms.passwordHash room' = Rooms.passwordHash room
    ∧ Rooms.settings room' = Rooms.settings room
    ∧ turnManagers svc' = turnManagers svc.
Proof.
  intros Hkeyed Hroom Hcan.
  destruct (startRematch_inv svc roomCode adminPlayerId room)
    as [(_ & ->)|(Hno & _)]; [done|done| |done].
  eexists _, _. split; [reflexivity|]. cbn.
  split; [apply lookup_insert_eq|]. cbn.
  split; [done|]. split; [done|]. split; [|done].
  apply Forall2_fmap_r, Forall_Forall2_diag, Forall_forall. by intros.
Qed.

(** X28: In a store that holds every room under its own code, a vote
    that the service accepts is a vote that the room's
    turn manager accepts on the room's game: the room is active,
    its game has a deadline set, and afterwards the stored game
    differs from it only in the vote map, where the player's entry is
    the column, over any earlier vote; the room's other fields, the
    other rooms and the turn managers are as they were. *)
Theorem castVote_records (svc svc' : t C) (roomCode playerId : string)
  (column : Z) :
  keyed (roomStore svc) →
  castVote svc roomCode playerId column = (svc', inr tt) →
  ∃ room game,
    roomStore svc !! roomCode = Some room
    ∧ Rooms.state room = Rooms.active
    ∧ Rooms.game room = Some game
    ∧ windowOpen game
    ∧ roomStore svc'
      = <[roomCode := set_game room
            (Some (TurnManager.set_votes game
                     (<[playerId := column]> (votes game))))]>
          (roomStore svc)
    ∧ turnManagers svc' = turnManagers svc.
Proof.
  intros Hkeyed Hvote. apply castVote_inv in Hvote; [|done].
  destruct Hvote
    as [((? & ? & [=]) & _)
       |(room & game & tm & Hroom & Hstate & Hgame & _ & Hacc & -> & _)].
  exists room, game. repeat split; try done.
  apply windowOpen_truthy. unfold TurnManager.castVote, accepted in Hacc.
  by destruct (truthy (endsAt game)).
Qed.

End RoomServiceProperties.

Section RoomServiceRuns.
Import RoomService Sample3.

Lemma keyed_empty : keyed (roomStore empty).
Proof. intros k r. cbn. by rewrite lookup_empty. Qed.

Lemma keyed_created : keyed (roomStore created).
Proof. apply createRoom_keyed, keyed_empty. Qed.

Lemma keyed_lobbyOfTwo : keyed (roomStore lobbyOfTwo).
Proof. do 2 apply joinRoom_keyed. apply keyed_created. Qed.

Lemma keyed_started : keyed (roomStore started).
Proof. apply startGame_keyed, keyed_lobbyOfTwo. Qed.

Lemma service_keeps_rooms_keyed_witness :
  keyed (roomStore (startGame lobbyOfTwo "ABC234" "p1").1).
Proof.
  destruct (@service_keeps_rooms_keyed FakeClock.t _ openAccess (λ s, s)
              lobbyOfTwo keyed_lobbyOfTwo) as (_ & _ & Hstart & _).
  apply Hstart.
Defined.

Lemma refusals_change_nothing_witness :
  (startGame lobbyOfTwo "ABC234" "p2").1 = lobbyOfTwo.
Proof.
  destruct (@refusals_change_nothing FakeClock.t openAccess (λ s, s)
              lobbyOfTwo keyed_lobbyOfTwo) as (_ & Hstart & _).
  apply (Hstart "ABC234" "p2" _ (startGame lobbyOfTwo "ABC234" "p2").2).
  - apply surjective_pairing.
  - exists UNAUTHORIZED, "Only admin can start the game". reflexivity.
Defined.

Lemma joinRoom_accepts_witness :
  ∃ svc' response,
    @joinRoom _ openAccess (λ s, s) created "p1"
              (mkJoinRoomRequest "ABC234" "ann" None)
    = (svc', inr response)
    ∧ id (joined_player response) = "p1"
    ∧ connected (joined_player response) = true
    ∧ Rooms.passwordHash (joined_room response) = None.
Proof.
  destruct (@joinRoom _ openAccess (λ s, s) created "p1"
              (mkJoinRoomRequest "ABC234" "ann" None))
    as [svc' [e|response]] eqn:Hjoin; [vm_compute in Hjoin; discriminate|].
  exists svc', response. split; [reflexivity|].
  destruct (@joinRoom_accepts FakeClock.t openAccess (λ s, s) created svc'
              "p1" _ response keyed_created Hjoin)
    as (Hhash & _ & _ & _ & Hid & Hconn & _).
  split; [exact Hid|]. split; [exact Hconn|exact Hhash].
Defined.

Lemma joinRoom_keeps_room_invariants_witness :
  ∃ r, roomStore (join created "p1" "ann") !! "ABC234" = Some r
       ∧ roomInv (λ s, s) r.
Proof.
  destruct (roomStore (join created "p1" "ann") !! "ABC234") as [r|] eqn:Hr;
    [|vm_compute in Hr; discriminate].
  exists r. split; [reflexivity|].
  apply (@joinRoom_keeps_room_invariants FakeClock.t openAccess (λ s, s)
           created "p1" (mkJoinRoomRequest "ABC234" "ann" None))
    with (k := "ABC234").
  - exact keyed_created.
  - apply createRoom_roomInv. intros k r0. cbn. by rewrite lookup_empty.
  - exact Hr.
Defined.

Lemma createRoom_then_joinRoom_witness :
  ∃ svc2 room,
    @joinRoom _ openAccess (λ s, s) created "p1"
              (mkJoinRoomRequest "ABC234" "ann" None)
    = (svc2, inr (mkJoinRoomResponse room
                    (mkPlayer "p1" "ann" red true 0 true)))
    ∧ Rooms.players room = [mkPlayer "p1" "ann" red true 0 true].
Proof.
  destruct (@createRoom_then_joinRoom FakeClock.t _ openAccess (λ s, s)
              empty (mkCreateRoomRequest None None) "ABC234" "token" ""
              "p1" "ann" None)
    as (svc2 & room & Hjoin & Hplayers & _).
  - reflexivity.
  - reflexivity.
  - exists svc2, room. split; [exact Hjoin|exact Hplayers].
Defined.

Lemma startGame_starts_witness :
  (startGame lobbyOfTwo "ABC234" "p1").2 = inr tt
  ∧ (startGame lobbyOfTwo "ABC234" "p2").2 ≠ inr tt.
Proof.
  destruct (startGame_starts lobbyOfTwo "ABC234" "p1" roomOfTwo)
    as (Hiff & _); [exact keyed_lobbyOfTwo|reflexivity|].
  destruct (startGame_starts lobbyOfTwo "ABC234" "p2" roomOfTwo)
    as (Hiff' & _); [exact keyed_lobbyOfTwo|reflexivity|].
  split.
  - apply Hiff. split; [|split; [reflexivity|cbn; lia]].
    eexists. split; reflexivity.
  - intros (Hadmin & _)%Hiff'. destruct Hadmin as (admin & Hfind & Hflag).
    vm_compute in Hfind. injection Hfind as <-. discriminate Hflag.
Defined.

Lemma startRematch_restarts_witness :
  ∃ svc' room',
    startRematch finished "ABC234" "p1" = (svc', inr tt)
    ∧ roomStore svc' !! "ABC234" = Some room'
    ∧ Rooms.state room' = Rooms.active
    ∧ Rooms.game room' = Some GameEngine.newGame.
Proof.
  destruct (startRematch_restarts finished "ABC234" "p1" endedRoom)
    as (svc' & room' & Hrun & Hroom & Hstate & Hgame & _).
  - apply keyed_fmap; [done|exact keyed_started].
  - reflexivity.
  - split; [|split; [reflexivity|cbn; lia]].
    eexists. split; reflexivity.
  - exists svc', room'. repeat split; assumption.
Defined.

Lemma castVote_records_witness :
  ∃ svc' room game,
    castVote voting "ABC234" "p1" 3 = (svc', inr tt)
    ∧ roomStore svc'
      = <["ABC234" := set_game room
            (Some (TurnManager.set_votes game (<["p1" := 3]> (votes game))))]>
          (roomStore voting).
Proof.
  destruct (castVote voting "ABC234" "p1" 3) as [svc' [e|[]]] eqn:Hvote;
    [vm_compute in Hvote; discriminate|].
  destruct (castVote_records voting svc' "ABC234" "p1" 3)
    as (room & game & _ & _ & _ & _ & Hstore & _).
  - apply keyed_fmap; [done|exact keyed_started].
  - exact Hvote.
  - exists svc', room, game. split; [reflexivity|exact Hstore].
Defined.

End RoomServiceRuns.

(** * Nicknames *)

Section Nicknames.
Import AccessControl.
Implicit Types (s t : list Z) (c : Z).

Lemma whiteSpace_dec c : whiteSpace c ∨ ¬ whiteSpace c.
Proof. unfold whiteSpace. destruct (isWhiteSpace c); [by left|by right]. Qed.

Lemma whiteSpace_space : whiteSpace 32.
Proof. reflexivity. Qed.

Lemma trimStart_split s :
  ∃ pre, s = pre ++ trimStart s ∧ Forall whiteSpace pre.
Proof.
  induction s as [|c s (pre & Hs & Hpre)]; [by exists []|]. cbn.
  destruct (isWhiteSpace c) eqn:Hc; [|by exists []].
  exists (c :: pre). split; [cbn; congruence|by constructor].
Qed.

Lemma trimStart_head s c : head (trimStart s) = Some c → ¬ whiteSpace c.
Proof.
  induction s as [|d s IH]; [done|]. cbn.
  destruct (isWhiteSpace d) eqn:Hd; [done|].
  cbn. intros [= <-]. unfold whiteSpace. congruence.
Qed.

Lemma trimStart_id s :
  (∀ c, head s = Some c → ¬ whiteSpace c) → trimStart s = s.
Proof.
  destruct s as [|d s]; [done|]. intros Hhead. cbn.
  destruct (isWhiteSpace d) eqn:Hd; [|done]. by destruct (Hhead d).
Qed.

Lemma trimEnd_split s :
  ∃ suf, s = trimEnd s ++ suf ∧ Forall whiteSpace suf.
Proof.
  unfold trimEnd. destruct (trimStart_split (reverse s)) as (pre & Hs & Hpre).
  exists (reverse pre). split; [|by apply Forall_reverse].
  rewrite <-reverse_app, <-Hs. by rewrite reverse_involutive.
Qed.

Lemma trimEnd_last s c : last (trimEnd s) = Some c → ¬ whiteSpace c.
Proof. unfold trimEnd. rewrite last_reverse. apply trimStart_head. Qed.

Lemma trimEnd_id s :
  (∀ c, last s = Some c → ¬ whiteSpace c) → trimEnd s = s.
Proof.
  intros Hlast. unfold trimEnd. rewrite trimStart_id.
  - apply reverse_involutive.
  - intros c. rewrite head_reverse. apply Hlast.
Qed.

Lemma trim_split s :
  ∃ pre suf, s = pre ++ trim s ++ suf
             ∧ Forall whiteSpace pre ∧ Forall whiteSpace suf.
Proof.
  destruct (trimStart_split s) as (pre & Hs & Hpre).
  destruct (trimEnd_split (trimStart s)) as (suf & Ht & Hsuf).
  exists pre, suf. unfold trim. by rewrite <-Ht.
Qed.

Lemma trim_head s c : head (trim s) = Some c → ¬ whiteSpace c.
Proof.
  unfold trim. destruct (trimEnd_split (trimStart s)) as (suf & Ht & _).
  destruct (trimEnd (trimStart s)) as [|d r]; [done|].
  cbn. intros [= ->]. apply (trimStart_head s). by rewrite Ht.
Qed.

Lemma trim_last s c : last (trim s) = Some c → ¬ whiteSpace c.
Proof. apply trimEnd_last. Qed.

Lemma trim_id s :
  (∀ c, head s = Some c → ¬ whiteSpace c) →
  (∀ c, last s = Some c → ¬ whiteSpace c) →
  trim s = s.
Proof.
  intros Hhead Hlast. unfold trim. rewrite trimStart_id by done.
  by apply trimEnd_id.
Qed.

Lemma inked_whiteSpace s : Forall whiteSpace s → inked s = [].
Proof.
  unfold inked. induction 1 as [|c s Hc _ IH]; [done|].
  rewrite filter_cons. by destruct (decide (¬ whiteSpace c)).
Qed.

Lemma inked_trim s : inked (trim s) = inked s.
Proof.
  destruct (trim_split s) as (pre & suf & Hs & Hpre & Hsuf).
  pose proof (inked_whiteSpace pre Hpre) as Hp.
  pose proof (inked_whiteSpace suf Hsuf) as Hq.
  unfold inked in *. rewrite Hs at 2.
  by rewrite !filter_app, Hp, Hq, app_nil_r.
Qed.

Lemma length_trim s : (length (trim s) ≤ length s)%nat.
Proof.
  destruct (trim_split s) as (pre & suf & Hs & _).
  rewrite Hs at 2. rewrite !length_app. lia.
Qed.

Lemma elem_of_trim s c : c ∈ trim s → c ∈ s.
Proof.
  destruct (trim_split s) as (pre & suf & Hs & _).
  rewrite Hs at 2. rewrite !elem_of_app. tauto.
Qed.

Lemma spacedFrom_replaceRuns b t : spacedFrom b (replaceRuns b t) = true.
Proof.
  revert b. induction t as [|c t IH]; intros b; [done|]. cbn.
  destruct (isWhiteSpace c) eqn:Hc.
  - destruct b; [apply IH|]. cbn. apply IH.
  - cbn. rewrite Hc. apply IH.
Qed.

Lemma replaceRuns_id b s : spacedFrom b s = true → replaceRuns b s = s.
Proof.
  revert b. induction s as [|c s IH]; intros b; [done|]. cbn.
  destruct (isWhiteSpace c) eqn:Hc.
  - intros ((Hb & Hc32)%andb_prop & Hs)%andb_prop.
    apply negb_true_iff in Hb as ->. apply Z.eqb_eq in Hc32 as ->.
    by rewrite IH.
  - intros Hs. by rewrite IH.
Qed.

Lemma inked_replaceRuns b t : inked (replaceRuns b t) = inked t.
Proof.
  revert b. unfold inked.
  induction t as [|c t IH]; intros b; [done|]. cbn [replaceRuns].
  destruct (isWhiteSpace c) eqn:Hc.
  - rewrite (filter_cons _ c).
    destruct (decide (¬ whiteSpace c)) as [Hno|_]; [by destruct Hno|].
    destruct b; [apply IH|].
    rewrite filter_cons.
    destruct (decide (¬ whiteSpace 32)) as [Hno|_];
      [by destruct Hno|apply IH].
  - rewrite !(filter_cons _ c).
    destruct (decide (¬ whiteSpace c)) as [_|Hyes].
    + f_equal. apply IH.
    + destruct Hyes. unfold whiteSpace. congruence.
Qed.

Lemma length_replaceRuns b t : (length (replaceRuns b t) ≤ length t)%nat.
Proof.
  revert b. induction t as [|c t IH]; intros b; [done|]. cbn.
  pose proof (IH true). pose proof (IH false).
  destruct (isWhiteSpace c), b; cbn; lia.
Qed.

Lemma elem_of_replaceRuns b t c :
  c ∈ replaceRuns b t → c = 32 ∨ c ∈ t.
Proof.
  revert b. induction t as [|d t IH]; intros b; [by intros ?%elem_of_nil|].
  cbn. destruct (isWhiteSpace d).
  - destruct b.
    + intros [?|?]%IH; [by left|right; by constructor].
    + intros [->|[?|?]%IH]%elem_of_cons; [by left|by left|].
      right; by constructor.
  - intros [->|[?|?]%IH]%elem_of_cons;
      [right; by constructor|by left|right; by constructor].
Qed.

Lemma replaceRuns_last b t c :
  last t = Some c → ¬ whiteSpace c → last (replaceRuns b t) = Some c.
Proof.
  intros Hlast Hc. revert b Hlast.
  induction t as [|d t IH]; intros b; [done|].
  destruct t as [|e t].
  - cbn. intros [= ->].
    destruct (isWhiteSpace c) eqn:Hd; [by destruct Hc|done].
  - intros Hlast. change (last (e :: t) = Some c) in Hlast.
    remember (e :: t) as t' eqn:Ht'. cbn [replaceRuns].
    assert (Hrest : ∀ b', ∃ x r, replaceRuns b' t' = x :: r).
    { intros b'. specialize (IH b' Hlast).
      destruct (replaceRuns b' t') as [|x r]; [done|eauto]. }
    destruct (isWhiteSpace d); [destruct b|].
    + by apply IH.
    + destruct (Hrest true) as (x & r & Heq). rewrite Heq.
      change (last (x :: r) = Some c). rewrite <-Heq. by apply IH.
    + destruct (Hrest false) as (x & r & Heq). rewrite Heq.
      change (last (x :: r) = Some c). rewrite <-Heq. by apply IH.
Qed.

Lemma spacedFrom_spec b s :
  spacedFrom b s = true
  ↔ (∀ c, c ∈ s → whiteSpace c → c = 32)
    ∧ (b = true → ∀ c, head s = Some c → ¬ whiteSpace c)
    ∧ (∀ i c d, s !! i = Some c → s !! S i = Some d →
                whiteSpace c → ¬ whiteSpace d).
Proof.
  revert b. induction s as [|c s IH]; intros b.
  { split; [|done]. intros _. split; [by intros ? ?%elem_of_nil|].
    split; [done|]. by intros ? ? ?. }
  cbn [spacedFrom]. destruct (isWhiteSpace c) eqn:Hc.
  - rewrite !andb_true_iff, negb_true_iff, Z.eqb_eq, IH. split.
    + intros ((-> & ->) & Hchars & Hhead & Hadj). split; [|split].
      * intros x [->|Hx]%elem_of_cons; [done|by apply Hchars].
      * done.
      * intros [|i] x d; cbn.
        -- intros [= <-] Hd _. apply (Hhead eq_refl). by rewrite head_lookup.
        -- apply Hadj.
    + intros (Hchars & Hhead & Hadj). split; [split|split; [|split]].
      * destruct b; [|done]. by destruct (Hhead eq_refl c).
      * apply Hchars; [by left|done].
      * intros x Hx. apply Hchars. by right.
      * intros _ d Hd. rewrite head_lookup in Hd.
        by apply (Hadj 0%nat c d).
      * intros i x d. apply (Hadj (S i)).
  - rewrite IH. split.
    + intros (Hchars & _ & Hadj). split; [|split].
      * intros x [->|Hx]%elem_of_cons; [|by apply Hchars].
        unfold whiteSpace. congruence.
      * intros _ x [= <-]. unfold whiteSpace. congruence.
      * intros [|i] x d; cbn.
        -- intros [= <-] _. unfold whiteSpace. congruence.
        -- apply Hadj.
    + intros (Hchars & _ & Hadj). split; [|split; [done|]].
      * intros x Hx. apply Hchars. by right.
      * intros i x d. apply (Hadj (S i)).
Qed.

Lemma spacedFrom_head s :
  spacedFrom false s = true →
  (∀ c, head s = Some c → ¬ whiteSpace c) →
  spacedFrom true s = true.
Proof.
  rewrite !spacedFrom_spec. intros (Hchars & _ & Hadj) Hhead. done.
Qed.

Lemma replaceRuns_head t c :
  head (replaceRuns false t) = Some c →
  (∀ d, head t = Some d → ¬ whiteSpace d) →
  ¬ whiteSpace c.
Proof.
  destruct t as [|d t]; [done|]. cbn. intros Hres Hhead.
  destruct (isWhiteSpace d) eqn:Hd; [by destruct (Hhead d)|].
  cbn in Hres. injection Hres as <-. unfold whiteSpace. congruence.
Qed.

Lemma sanitizeNickname_spaced s :
  spacedFrom true (sanitizeNickname s) = true
  ∧ ∀ c, last (sanitizeNickname s) = Some c → ¬ whiteSpace c.
Proof.
  unfold sanitizeNickname. split.
  - apply spacedFrom_head; [apply spacedFrom_replaceRuns|].
    intros c Hc. apply (replaceRuns_head _ _ Hc). apply trim_head.
  - intros c Hc Hws.
    destruct (last (trim s)) as [d|] eqn:Hlast.
    + pose proof (trim_last _ _ Hlast) as Hd.
      rewrite (replaceRuns_last _ _ d) in Hc by done. congruence.
    + apply last_None in Hlast. by rewrite Hlast in Hc.
Qed.

Lemma singleSpaced_spaced s :
  singleSpaced s
  ↔ spacedFrom true s = true ∧ ∀ c, last s = Some c → ¬ whiteSpace c.
Proof.
  unfold singleSpaced. rewrite spacedFrom_spec. split.
  - intros (? & ? & ? & ?). done.
  - intros ((? & Hhead & ?) & ?). split; [done|].
    split; [by apply Hhead|done].
Qed.

(** X29: [sanitizeNickname] puts a nickname in a normal form and
    changes nothing else: in the result white space occurs only as
    single spaces between other characters; the characters that are
    not white space are those of the argument, in the same order; the
    result is no longer than the argument; and the nicknames it
    returns unchanged are exactly those already in that form, so
    that applying it twice is applying it once. *)
Theorem sanitizeNickname_normal_form s :
  singleSpaced (sanitizeNickname s)
  ∧ inked (sanitizeNickname s) = inked s
  ∧ (length (sanitizeNickname s) ≤ length s)%nat
  ∧ (sanitizeNickname s = s ↔ singleSpaced s)
  ∧ sanitizeNickname (sanitizeNickname s) = sanitizeNickname s.
Proof.
  assert (Hfix : ∀ t, singleSpaced t → sanitizeNickname t = t).
  { intros t (Hspaced & Hlast)%singleSpaced_spaced.
    pose proof Hspaced as (_ & Hhead & _)%spacedFrom_spec.
    unfold sanitizeNickname. rewrite trim_id by auto.
    apply replaceRuns_id, spacedFrom_spec.
    apply spacedFrom_spec in Hspaced as (? & _ & ?). done. }
  assert (Hnormal : singleSpaced (sanitizeNickname s))
    by apply singleSpaced_spaced, sanitizeNickname_spaced.
  split; [done|]. split; [|split; [|split]].
  - unfold sanitizeNickname. by rewrite inked_replaceRuns, inked_trim.
  - unfold sanitizeNickname.
    etransitivity; [apply length_replaceRuns|apply length_trim].
  - split; [by intros <-|apply Hfix].
  - by apply Hfix.
Qed.

Lemma trim_nil s : trim s = [] → Forall whiteSpace s.
Proof.
  intros Hnil. destruct (trim_split s) as (pre & suf & Hs & Hpre & Hsuf).
  rewrite Hs, Hnil. by apply Forall_app.
Qed.

Lemma validateNickname_valid s :
  valid (validateNickname s) = true
  ↔ (∃ c, c ∈ s ∧ ¬ whiteSpace c)
    ∧ (length s ≤ 20)%nat
    ∧ ∀ c, c ∈ s → nicknameChar c = true.
Proof.
  unfold validateNickname. split.
  - case_bool_decide as Hnil; [done|]. cbn [orb negb andb].
    destruct (Nat.eqb_spec (length (trim s)) 0) as [Hlen|Hlen]; [done|].
    destruct (Nat.ltb_spec 20 (length s)) as [Hlong|Hlong]; [done|].
    destruct (forallb nicknameChar s) eqn:Hall; [|done]. intros _.
    split; [|split; [done|]].
    + destruct (trim s) as [|c r] eqn:Htrim; [done|].
      exists c. split.
      * apply elem_of_trim. rewrite Htrim. by left.
      * apply (trim_head s). by rewrite Htrim.
    + intros c Hc. rewrite forallb_forall in Hall.
      by apply Hall, list_elem_of_In.
  - intros ((c & Hc & Hink) & Hlen & Hall).
    rewrite bool_decide_eq_false_2 by (intros ->; by apply elem_of_nil in Hc).
    cbn [orb negb andb].
    destruct (Nat.eqb_spec (length (trim s)) 0) as [Hzero|_].
    { apply nil_length_inv, trim_nil in Hzero.
      rewrite Forall_forall in Hzero. destruct Hink. by apply Hzero. }
    destruct (Nat.ltb_spec 20 (length s)) as [Hlong|_]; [lia|].
    assert (forallb nicknameChar s = true) as ->; [|done].
    apply forallb_forall. intros x Hx. by apply Hall, list_elem_of_In.
Qed.

(** X30: A nickname that [validateNickname] accepts is still accepted
    after [sanitizeNickname]: cutting the white space at both ends
    and joining runs of it into single spaces leaves a character
    that is not white space, adds no character outside the allowed
    class and does not lengthen the name. *)
Theorem sanitizeNickname_keeps_valid s :
  valid (validateNickname s) = true →
  valid (validateNickname (sanitizeNickname s)) = true.
Proof.
  rewrite !validateNickname_valid.
  intros ((c & Hc & Hink) & Hlen & Hall). split; [|split].
  - exists c. split; [|done].
    assert (Hin : c ∈ inked (sanitizeNickname s)).
    { unfold sanitizeNickname.
      rewrite inked_replaceRuns, inked_trim.
      by apply list_elem_of_filter. }
    by apply list_elem_of_filter in Hin as (_ & ?).
  - etransitivity; [|exact Hlen]. unfold sanitizeNickname.
    etransitivity; [apply length_replaceRuns|apply length_trim].
  - intros x [->|Hx%elem_of_trim]%elem_of_replaceRuns; [done|].
    by apply Hall.
Qed.

End Nicknames.

Section NicknameRuns.
Import AccessControl Sample4.

Lemma sanitizeNickname_keeps_valid_witness :
  valid (validateNickname (sanitizeNickname padded)) = true
  ∧ sanitizeNickname padded = [65; 110; 110; 32; 66; 46].
Proof.
  split; [|reflexivity].
  apply (sanitizeNickname_keeps_valid padded). reflexivity.
Defined.

End NicknameRuns.
